(** * Transcription Assistant: sequence detection and list reordering

    A shallow embedding of the file-ordering code of the Transcription
    Assistant front end (class [TranscriptionAssistant] of the TypeScript
    main module): [extractSequenceNumber], [sortTranscriptionFiles],
    [handleTranscriptionFiles], [moveFileUp] and [moveFileDown], together
    with the fragments of the JavaScript run time they call (regular
    expression matching, [parseInt], [Array.prototype.sort],
    [Array.prototype.splice]).

    The merge engine proper (the Rust module [merger.rs] behind the
    [merge_transcriptions] command) is not part of the sources at hand;
    [MergeEngine] models it from the design document.

    Further methods of the class are embedded next to them:
    [removeTranscriptionFile], [clearAllTranscriptions], the rows and
    buttons built by [displayTranscriptionFiles], [getParentFolder],
    [truncatePath], [setDefaultOutputPath], and the handler of the
    file-drop event with [handleMediaFiles].

    Definitions come first, then the vocabulary of the statements, then the
    lemmas on the matcher, the sort and the moves, and the theorems; the
    lemmas and theorems on the further methods close the file. *)

From Stdlib Require Import List ZArith NArith Bool Lia Ascii String.
From Stdlib Require Import Permutation Sorted.
Import ListNotations.

Set Implicit Arguments.

(* ================================================================== *)
(** * JavaScript strings and numbers *)

(** A JavaScript string is a sequence of UTF-16 code units. *)
Definition codeUnit := N.
Definition jsstring := list codeUnit.

(** ASCII literals, for readable examples. *)
Definition js (s : string) : jsstring :=
  List.map N_of_ascii (list_ascii_of_string s).

(** The numbers the ordering code handles: the integers read by [parseInt],
    their differences, the comparator's [-1] and [1] and the collation's
    result.  They are IEEE doubles with an integer value, kept here as that
    integer, next to the two infinities and [NaN]. *)
Inductive number : Type :=
| Num (z : Z)
| PosInf
| NegInf
| NaN.

(** The double nearest to a natural number (ties to the even significand):
    the number itself below 2^53; beyond, the 53 leading bits rounded; and
    infinity from 2^1024 - 2^970 on. *)
Definition roundNatural (n : Z) : number :=
  if (n <? 2 ^ 53)%Z then Num n
  else
    let e := (Z.log2 n - 52)%Z in
    let q := (n / 2 ^ e)%Z in
    let r := (n mod 2 ^ e)%Z in
    let half := (2 ^ (e - 1))%Z in
    let q' := if ((half <? r) || ((r =? half) && Z.odd q))%Z
              then (q + 1)%Z else q in
    if (2 ^ 1024 <=? q' * 2 ^ e)%Z then PosInf else Num (q' * 2 ^ e).

(** The Number value for an integer. *)
Definition toNumber (z : Z) : number :=
  if (0 <=? z)%Z then roundNatural z
  else match roundNatural (- z) with
       | Num v => Num (- v)
       | PosInf => NegInf
       | other => other
       end.

(** [a - b]: the exact difference, rounded. *)
Definition number_sub (a b : number) : number :=
  match a, b with
  | Num x, Num y => toNumber (x - y)
  | Num _, PosInf => NegInf
  | Num _, NegInf => PosInf
  | PosInf, Num _ => PosInf
  | PosInf, NegInf => PosInf
  | NegInf, Num _ => NegInf
  | NegInf, PosInf => NegInf
  | _, _ => NaN
  end.

(** [v > 0], false for [NaN]. *)
Definition number_pos (v : number) : bool :=
  match v with
  | Num z => (0 <? z)%Z
  | PosInf => true
  | NegInf => false
  | NaN => false
  end.

Definition number_eqb (a b : number) : bool :=
  match a, b with
  | Num x, Num y => Z.eqb x y
  | PosInf, PosInf => true
  | NegInf, NegInf => true
  | NaN, NaN => true
  | _, _ => false
  end.

Module CharClass.
Open Scope N_scope.

(** [\d]: the ten ASCII digits. *)
Definition digit (c : codeUnit) : bool := (48 <=? c) && (c <=? 57).

(** [\s]: WhiteSpace and LineTerminator code units. *)
Definition space (c : codeUnit) : bool :=
  ((9 <=? c) && (c <=? 13)) || (c =? 32) || (c =? 160) || (c =? 5760)
  || ((8192 <=? c) && (c <=? 8202)) || (c =? 8232) || (c =? 8233)
  || (c =? 8239) || (c =? 8287) || (c =? 12288) || (c =? 65279).

(** [[_\-\s]] *)
Definition separator (c : codeUnit) : bool :=
  (c =? 95) || (c =? 45) || space c.

(** [\.] and [[^.]] *)
Definition dot (c : codeUnit) : bool := c =? 46.
Definition notDot (c : codeUnit) : bool := negb (c =? 46).

(** [[\\/]] *)
Definition slash (c : codeUnit) : bool := (c =? 92) || (c =? 47).

(** The regular expression Canonicalize operation of the [i] flag (without
    the [u] flag: the upper-case mapping of a code unit), on the code
    units it can map onto a letter of the keywords of pattern 3: the ASCII
    letters, the basic Cyrillic block and the Cyrillic Extended-C variants
    of ve, de, o, es, te and the hard sign.  Other letters fold in the
    host too, never onto these. *)
Definition canonicalize (ch : codeUnit) : codeUnit :=
  if (97 <=? ch) && (ch <=? 122) then ch - 32
  else if (1072 <=? ch) && (ch <=? 1103) then ch - 32
  else if (1104 <=? ch) && (ch <=? 1119) then ch - 80
  else if ch =? 7296 then 1042
  else if ch =? 7297 then 1044
  else if ch =? 7298 then 1054
  else if ch =? 7299 then 1057
  else if (ch =? 7300) || (ch =? 7301) then 1058
  else if ch =? 7302 then 1066
  else ch.
End CharClass.

(* ================================================================== *)
(** * Regular expressions *)

(** The fragment of the pattern language the source uses: one-code-unit
    matchers (literals and classes), concatenation, alternation, the greedy
    star, one capturing group and the end-of-input assertion [$] (no [m]
    flag). *)
Inductive regex : Type :=
| Chr (p : codeUnit -> bool)
| Eps
| Seq (r1 r2 : regex)
| Alt (r1 r2 : regex)
| Star (r : regex)
| Group (r : regex)
| Eoi.

Definition Plus (r : regex) : regex := Seq r (Star r).

(** A literal code unit, compared after canonicalization under the [i]
    flag. *)
Definition Lit (ignoreCase : bool) (k : codeUnit) : regex :=
  Chr (fun c => if ignoreCase
                then N.eqb (CharClass.canonicalize c) (CharClass.canonicalize k)
                else N.eqb c k).

Fixpoint Word (ignoreCase : bool) (w : jsstring) : regex :=
  match w with
  | [] => Eps
  | k :: w' => Seq (Lit ignoreCase k) (Word ignoreCase w')
  end.

(** [(?:w1|w2|...)] *)
Fixpoint AnyWord (ignoreCase : bool) (ws : list jsstring) : regex :=
  match ws with
  | [] => Chr (fun _ => false)
  | [w] => Word ignoreCase w
  | w :: ws' => Alt (Word ignoreCase w) (AnyWord ignoreCase ws')
  end.

(** The state of a match in progress: the input still to read and the
    content of capture 1 ([None] is [undefined]). *)
Definition capture := option jsstring.
Definition mstate : Type := jsstring * capture.

Definition continuation : Type := jsstring -> capture -> option mstate.

Section StarLoop.
(** The matcher of the starred pattern, and what follows the star. *)
Variable step : jsstring -> capture -> continuation -> option mstate.
Variable k : continuation.

(** The greedy star: one more iteration is tried first, and the
    continuation only when that fails.  An iteration that consumes nothing
    is rejected, so the input length bounds the number of iterations. *)
Fixpoint starLoop (fuel : nat) (s : jsstring) (c : capture)
  : option mstate :=
  match fuel with
  | O => k s c
  | S fuel' =>
      match step s c
              (fun s' c' =>
                 if (List.length s' <? List.length s)%nat
                 then starLoop fuel' s' c' else None) with
      | Some m => Some m
      | None => k s c
      end
  end.
End StarLoop.

(** The backtracking matcher, in continuation-passing style as in the
    language specification: [exec r s c k] matches [r] at the head of [s] and
    hands the rest of the input to [k]; when [k] fails the matcher tries the
    next alternative. *)
Fixpoint exec (r : regex) (s : jsstring) (c : capture) (k : continuation)
    {struct r} : option mstate :=
  match r with
  | Chr p =>
      match s with
      | x :: s' => if p x then k s' c else None
      | [] => None
      end
  | Eps => k s c
  | Seq r1 r2 => exec r1 s c (fun s' c' => exec r2 s' c' k)
  | Alt r1 r2 =>
      match exec r1 s c k with
      | Some m => Some m
      | None => exec r2 s c k
      end
  | Star r1 => starLoop (exec r1) k (List.length s) s c
  | Group r1 =>
      exec r1 s c
        (fun s' _ => k s' (Some (firstn (List.length s - List.length s') s)))
  | Eoi =>
      match s with
      | [] => k s c
      | _ :: _ => None
      end
  end.

(** The result of a successful search: the text before the match, the
    matched text, the text after it, and capture 1. *)
Record matchResult : Type := MatchResult {
  m_before : jsstring;
  m_text : jsstring;
  m_after : jsstring;
  m_group1 : capture
}.

(** The search behind [String.prototype.match] and [replace] for a pattern
    without the [g] flag: the match is tried at index 0, 1, ... and the
    first index where it succeeds wins. *)
Fixpoint searchFrom (r : regex) (before s : jsstring) : option matchResult :=
  match exec r s None (fun s' c' => Some (s', c')) with
  | Some (rest, c) =>
      Some (MatchResult before
              (firstn (List.length s - List.length rest) s) rest c)
  | None =>
      match s with
      | [] => None
      | x :: s' => searchFrom r (before ++ [x]) s'
      end
  end.

Definition search (r : regex) (s : jsstring) : option matchResult :=
  searchFrom r [] s.

(** [s.replace(r, '')] *)
Definition replaceEmpty (r : regex) (s : jsstring) : jsstring :=
  match search r s with
  | Some m => m_before m ++ m_after m
  | None => s
  end.

(** [s.split(r)] for a pattern [r] that matches exactly one code unit of the
    class [p]. *)
Fixpoint split (p : codeUnit -> bool) (s : jsstring) : list jsstring :=
  match s with
  | [] => [[]]
  | x :: s' =>
      if p x then [] :: split p s'
      else match split p s' with
           | piece :: pieces => (x :: piece) :: pieces
           | [] => [[x]]
           end
  end.

(** [parseInt(text, 10)]: leading white space is skipped, a sign is read,
    and the longest run of decimal digits that follows is the value, as a
    double; there is no value without a digit.  (Past the 20th significant
    digit the language lets a host round less exactly; this is the correctly
    rounded value.) *)
Fixpoint dropWhile (p : codeUnit -> bool) (s : jsstring) : jsstring :=
  match s with
  | x :: s' => if p x then dropWhile p s' else s
  | [] => []
  end.

Fixpoint takeWhile (p : codeUnit -> bool) (s : jsstring) : jsstring :=
  match s with
  | x :: s' => if p x then x :: takeWhile p s' else []
  | [] => []
  end.

Definition digitsValue (ds : jsstring) : Z :=
  fold_left (fun acc d => (10 * acc + (Z.of_N d - 48))%Z) ds 0%Z.

Definition parseInt10 (text : capture) : number :=
  match text with
  | None => NaN
  | Some s =>
      let s1 := dropWhile CharClass.space s in
      let '(sign, s2) :=
        match s1 with
        | x :: t => if N.eqb x 45 then ((-1)%Z, t)
                    else if N.eqb x 43 then (1%Z, t) else (1%Z, s1)
        | [] => (1%Z, s1)
        end in
      match takeWhile CharClass.digit s2 with
      | [] => NaN
      | ds => toNumber (sign * digitsValue ds)
      end
  end.

(* ================================================================== *)
(** * extractSequenceNumber *)

Module Pattern.
Import CharClass.

(** [/\.[^.]*$/] *)
Definition extension : regex :=
  Seq (Chr dot) (Seq (Star (Chr notDot)) Eoi).

(** Pattern 1: [/(\d+)$/] *)
Definition trailing : regex :=
  Seq (Group (Plus (Chr digit))) Eoi.

(** Pattern 2: [/[_\-\s](\d+)$/] *)
Definition separated : regex :=
  Seq (Chr separator) (Seq (Group (Plus (Chr digit))) Eoi).

(** part, chast', segment, segment (ru), file, fajl, chapter, glava *)
Definition keywords : list jsstring :=
  [ js "part";
    [1095; 1072; 1089; 1090; 1100]%N;
    js "segment";
    [1089; 1077; 1075; 1084; 1077; 1085; 1090]%N;
    js "file";
    [1092; 1072; 1081; 1083]%N;
    js "chapter";
    [1075; 1083; 1072; 1074; 1072]%N ].

(** Pattern 3: [/(?:part|...|chapter|...)[_\-\s]*(\d+)$/i].  The classes
    hold no letter and nothing canonicalizes onto their members, so the
    [i] flag changes the keywords' letters only. *)
Definition keyword : regex :=
  Seq (AnyWord true keywords)
    (Seq (Star (Chr separator)) (Seq (Group (Plus (Chr digit))) Eoi)).

(** Pattern 4: [/(\d+)/] *)
Definition anywhere : regex :=
  Group (Plus (Chr digit)).
End Pattern.

(** [text.match(r)] followed by [parseInt(match[1], 10)]; [None] is the
    [null] of a failed match. *)
Definition matchNumber (r : regex) (text : jsstring) : option number :=
  match search r text with
  | Some m => Some (parseInt10 (m_group1 m))
  | None => None
  end.

Definition nameWithoutExt (filename : jsstring) : jsstring :=
  replaceEmpty Pattern.extension filename.

Definition extractSequenceNumber (filename : jsstring) : option number :=
  let name := nameWithoutExt filename in
  match matchNumber Pattern.trailing name with
  | Some n => Some n
  | None =>
  match matchNumber Pattern.separated name with
  | Some n => Some n
  | None =>
  match matchNumber Pattern.keyword name with
  | Some n => Some n
  | None =>
  match matchNumber Pattern.anywhere name with
  | Some n => Some n
  | None => None
  end end end end.

(* ================================================================== *)
(** * Array.prototype.sort and sortTranscriptionFiles *)

Section ArraySort.
Variable A : Type.
Variable comparefn : A -> A -> number.

(** [x] goes in front of the first entry it does not compare greater
    than; a comparison that is [0] or [NaN] leaves [x] first. *)
Fixpoint sortInsert (x : A) (sorted : list A) : list A :=
  match sorted with
  | [] => [x]
  | y :: rest =>
      if number_pos (comparefn x y) then y :: sortInsert x rest
      else x :: sorted
  end.

(** [arr.sort(comparefn)]: the language requires the sort to be stable and,
    for a consistent comparator, fixes the result; this is the stable
    insertion sort, which every conforming host agrees with on such a
    comparator ([arraySort_unique] below).  The source's array is sorted in
    place and returned; nothing else holds a reference to it. *)
Definition arraySort (arr : list A) : list A :=
  fold_right sortInsert [] arr.
End ArraySort.

(** The options object of [localeCompare]. *)
Record collatorOptions : Type := CollatorOptions { numeric : bool }.

(** [that.localeCompare(other, locales, options)] is the host's collation
    (ECMA-402); the ordering code is verified for any host. *)
Definition collation : Type :=
  jsstring -> jsstring -> string -> collatorOptions -> Z.

(** [arr.pop()] on a fresh array: its last entry, [undefined] when empty. *)
Definition pop (arr : list jsstring) : option jsstring :=
  match rev arr with
  | x :: _ => Some x
  | [] => None
  end.

(** [value || ''] *)
Definition orEmpty (value : option jsstring) : jsstring :=
  match value with
  | Some (x :: s) => x :: s
  | Some [] => []
  | None => []
  end.

(** [a.split(/[\\/]/).pop() || ''] *)
Definition fileName (path : jsstring) : jsstring :=
  orEmpty (pop (split CharClass.slash path)).

(** What a method call produces: a value, or an exception. *)
Inductive completion (A : Type) : Type :=
| Returns (value : A)
| Throws (error : jsstring).
Arguments Returns {A} value.
Arguments Throws {A} error.

Section Detector.
Variable localeCompare : collation.

(** The comparator of [sortTranscriptionFiles]. *)
Definition compareFiles (a b : jsstring) : number :=
  let fileA := fileName a in
  let fileB := fileName b in
  let numberA := extractSequenceNumber fileA in
  let numberB := extractSequenceNumber fileB in
  match numberA, numberB with
  | Some na, Some nb => number_sub na nb
  | Some _, None => Num (-1)
  | None, Some _ => Num 1
  | None, None =>
      Num (localeCompare fileA fileB "ru"%string (CollatorOptions true))
  end.

Definition sortTranscriptionFiles (filePaths : list jsstring)
  : list jsstring :=
  arraySort compareFiles filePaths.

(** A call of [sortTranscriptionFiles]: the method and its comparator hold
    no [throw], and the operations they use do not throw on strings. *)
Definition callSortTranscriptionFiles (filePaths : list jsstring)
  : completion (list jsstring) :=
  Returns (sortTranscriptionFiles filePaths).
End Detector.

(* ================================================================== *)
(** * The application state touched by file selection *)

(** The fields of the application and of its page that receiving a list of
    transcription files can change: the file list, the two buttons' disabled
    flags, and the messages shown to the user ([alert] and the merge status
    line).  The output-path input is left out. *)
Record App : Type := MkApp {
  transcriptionFiles : list jsstring;
  mergeBtnDisabled : bool;
  clearAllBtnDisabled : bool;
  messages : list jsstring
}.

(** Before any file is received: no file (the field's initial value) and
    nothing shown.  The two flags stand for the page as it is loaded; its
    markup is not part of the sources and no statement rests on them. *)
Definition initialApp : App := MkApp [] true true [].

(** The button updates at the end of [displayTranscriptionFiles]. *)
Definition displayTranscriptionFiles (app : App) : App :=
  let hasFiles := negb (Nat.eqb (List.length (transcriptionFiles app)) 0) in
  MkApp (transcriptionFiles app) (negb hasFiles) (negb hasFiles)
    (messages app).

(** [handleTranscriptionFiles], without its console output and the default
    output path. *)
Definition handleTranscriptionFiles (localeCompare : collation)
    (filePaths : list jsstring) (app : App) : App :=
  if negb (Nat.eqb (List.length filePaths) 0) then
    let app1 :=
      MkApp (sortTranscriptionFiles localeCompare filePaths)
        (mergeBtnDisabled app) (clearAllBtnDisabled app) (messages app) in
    let app2 := displayTranscriptionFiles app1 in
    MkApp (transcriptionFiles app2) false (clearAllBtnDisabled app2)
      (messages app2)
  else app.

(* ================================================================== *)
(** * moveFileUp and moveFileDown *)

Section Moves.
Variable A : Type.
(** What reading past the end of an array gives. *)
Variable undefined : A.

Open Scope Z_scope.

(** [arr[index]] for an integer [index]. *)
Definition arrayGet (arr : list A) (index : Z) : A :=
  if index <? 0 then undefined else nth (Z.to_nat index) arr undefined.

(** [arr.splice(start, deleteCount, ...items)], the array afterwards. *)
Definition splice (arr : list A) (start deleteCount : Z) (items : list A)
  : list A :=
  let len := Z.of_nat (List.length arr) in
  let actualStart :=
    if start <? 0 then Z.max (len + start) 0 else Z.min start len in
  let actualDeleteCount :=
    Z.min (Z.max deleteCount 0) (len - actualStart) in
  firstn (Z.to_nat actualStart) arr ++ items
    ++ skipn (Z.to_nat (actualStart + actualDeleteCount)) arr.

Definition moveFileUp (index : Z) (files : list A) : list A :=
  if 0 <? index then
    let file := arrayGet files index in
    let files1 := splice files index 1 [] in
    splice files1 (index - 1) 0 [file]
  else files.

Definition moveFileDown (index : Z) (files : list A) : list A :=
  if index <? Z.of_nat (List.length files) - 1 then
    let file := arrayGet files index in
    let files1 := splice files index 1 [] in
    splice files1 (index + 1) 0 [file]
  else files.
End Moves.

(* ================================================================== *)
(** * The merge engine, from the design document *)

Module MergeEngine.
Open Scope Z_scope.

(** Modelled from the spec: the ContentBlock of the data model of the merge
    engine, whose code ([merger.rs]) is missing: start and optional end in
    milliseconds, text lines, and the index of the file it comes from. *)
Record ContentBlock : Type := Block {
  blockStart : Z;
  blockEnd : option Z;
  blockText : list string;
  blockSource : nat
}.

(** Modelled from the spec: the SourceFile of the data model, which is
    missing: its identifier, its blocks in order of appearance and the
    optional duration hint of the splitting service. *)
Record SourceFile : Type := Source {
  fileId : jsstring;
  fileBlocks : list ContentBlock;
  durationHint : option Z
}.

(** Modelled from the spec: the decimal digits of a timestamp of the
    Timestamp Grammar Parser, which is missing. *)
Definition digitOf (a : ascii) : option Z :=
  let n := Z.of_nat (nat_of_ascii a) in
  if (48 <=? n) && (n <=? 57) then Some (n - 48) else None.

(** Modelled from the spec: a numeric field of a timestamp (parser
    missing). *)
Fixpoint numberOf (acc : Z) (l : list ascii) : option Z :=
  match l with
  | [] => Some acc
  | a :: l' =>
      match digitOf a with
      | Some d => numberOf (10 * acc + d) l'
      | None => None
      end
  end.

(** Modelled from the spec: the SRT-style and WebVTT-style timestamp of the
    Timestamp Grammar Parser, which is missing: [HH:MM:SS,mmm] with a comma
    for SRT and a period for WebVTT, read as milliseconds. *)
Definition parseClock (fraction : ascii) (l : list ascii) : option Z :=
  match l with
  | [h1; h2; c1; m1; m2; c2; s1; s2; p; f1; f2; f3] =>
      if Ascii.eqb c1 ":" && Ascii.eqb c2 ":" && Ascii.eqb p fraction then
        match numberOf 0 [h1; h2], numberOf 0 [m1; m2],
              numberOf 0 [s1; s2], numberOf 0 [f1; f2; f3] with
        | Some h, Some m, Some sec, Some ms =>
            Some (h * 3600000 + m * 60000 + sec * 1000 + ms)
        | _, _, _, _ => None
        end
      else None
  | _ => None
  end.

(** Modelled from the spec: a timestamp line [start --> end] of the SRT
    grammar (parser missing).  A line whose end precedes its start gives no
    token: the spec discards such a token, with a warning that is not
    modelled. *)
Definition parseSrtLine (line : string) : option (Z * Z) :=
  let l := list_ascii_of_string line in
  if String.eqb (string_of_list_ascii (firstn 5 (skipn 12 l))) " --> " then
    match parseClock "," (firstn 12 l), parseClock "," (skipn 17 l) with
    | Some a, Some b => if a <=? b then Some (a, b) else None
    | _, _ => None
    end
  else None.

(** Modelled from the spec: the per-file parse.  A timestamp line opens a
    block; a line that does not parse is continuation text of the block
    before it, and is dropped when there is none. *)
Fixpoint parseSrtFrom (source : nat) (current : option ContentBlock)
    (lines : list string) : list ContentBlock :=
  match lines with
  | [] => match current with Some b => [b] | None => [] end
  | line :: rest =>
      match parseSrtLine line with
      | Some (a, b) =>
          match current with
          | Some blk => blk :: parseSrtFrom source
                                 (Some (Block a (Some b) [] source)) rest
          | None => parseSrtFrom source
                      (Some (Block a (Some b) [] source)) rest
          end
      | None =>
          match current with
          | Some blk =>
              parseSrtFrom source
                (Some (Block (blockStart blk) (blockEnd blk)
                         (blockText blk ++ [line]) source)) rest
          | None => parseSrtFrom source None rest
          end
      end
  end.

(** Modelled from the spec: the blocks of one SRT file (parser missing). *)
Definition parseSrt (source : nat) (lines : list string)
  : list ContentBlock :=
  parseSrtFrom source None lines.

(** Modelled from the spec: the maximum of the times of a file's tokens, for
    the Duration Resolver, which is missing. *)
Definition maxOf (l : list Z) : option Z :=
  match l with
  | [] => None
  | x :: l' => Some (fold_left Z.max l' x)
  end.

(** Modelled from the spec: the end times among a file's tokens (Duration
    Resolver missing). *)
Definition endTimes (blocks : list ContentBlock) : list Z :=
  flat_map (fun b => match blockEnd b with Some e => [e] | None => [] end)
    blocks.

(** Modelled from the spec: the Duration Resolver, which is missing.  A
    hint wins; otherwise the largest end time among the file's tokens;
    otherwise the largest start time; otherwise zero. *)
Definition resolveDuration (f : SourceFile) : Z :=
  match durationHint f with
  | Some hint => hint
  | None =>
      match maxOf (endTimes (fileBlocks f)) with
      | Some e => e
      | None =>
          match maxOf (List.map blockStart (fileBlocks f)) with
          | Some st => st
          | None => 0
          end
      end
  end.

(** Modelled from the spec: the computed chain of the Offset Accumulator,
    which is missing: the offset of a file is the sum of the resolved
    durations of all the files before it in sequence order, file 0 having
    offset 0. *)
Definition computedOffset (durations : list Z) (i : nat) : Z :=
  fold_right Z.add 0 (firstn i durations).

(** Modelled from the spec: the result of the Offset Accumulator, which is
    missing: a manual override, if supplied for a file, replaces the
    computed value for that file only; the other files keep the computed
    chain. *)
Definition fileOffset (durations : list Z) (overrides : list (option Z))
    (i : nat) : Z :=
  match nth i overrides None with
  | Some manual => manual
  | None => computedOffset durations i
  end.

(** Modelled from the spec: absolute time = local time + file offset, for
    the start and for the end when present (Merge Assembler missing). *)
Definition shiftBlock (offset : Z) (b : ContentBlock) : ContentBlock :=
  Block (blockStart b + offset)
    (match blockEnd b with Some e => Some (e + offset) | None => None end)
    (blockText b) (blockSource b).

(** Modelled from the spec: the Merge Assembler, which is missing, in the
    default configuration (no gap filling, no collapsing of duplicates, no
    part markers): each block is moved by its file's offset and the blocks
    are appended file by file; the repair pass leaves the timestamps as
    they are. *)
Fixpoint assembleFrom (durations : list Z) (overrides : list (option Z))
    (i : nat) (files : list SourceFile) : list ContentBlock :=
  match files with
  | [] => []
  | f :: rest =>
      List.map (shiftBlock (fileOffset durations overrides i))
        (fileBlocks f)
      ++ assembleFrom durations overrides (S i) rest
  end.

(** Modelled from the spec: the assembly of a sequence of files, with their
    resolved durations (Merge Assembler missing). *)
Definition assemble (overrides : list (option Z))
    (files : list SourceFile) : list ContentBlock :=
  assembleFrom (List.map resolveDuration files) overrides 0%nat files.

(** Modelled from the spec: the [detect_and_merge] operation, which is
    missing, on parsed files; the order of the files is the one the front
    end's [sortTranscriptionFiles] gives them before it invokes the
    merge. *)
Definition detectAndMerge (localeCompare : collation)
    (overrides : list (option Z)) (files : list SourceFile)
  : list ContentBlock :=
  assemble overrides
    (arraySort
       (fun a b => compareFiles localeCompare (fileId a) (fileId b))
       files).

(** Modelled from the spec: a decimal digit of the Output Formatter, which
    is missing. *)
Definition digitChar (d : Z) : ascii :=
  ascii_of_nat (Z.to_nat (48 + d mod 10)).

(** Modelled from the spec: zero-padded two-digit fields (formatter
    missing). *)
Definition pad2 (n : Z) : list ascii :=
  [digitChar (n / 10); digitChar n].

(** Modelled from the spec: zero-padded three-digit milliseconds (formatter
    missing). *)
Definition pad3 (n : Z) : list ascii :=
  [digitChar (n / 100); digitChar (n / 10); digitChar n].

(** Modelled from the spec: the Output Formatter's timestamps, which are
    missing: two-digit hours, minutes and seconds, three-digit milliseconds,
    a comma before them for SRT and a period for WebVTT. *)
Definition formatClock (fraction : ascii) (ms : Z) : string :=
  string_of_list_ascii
    (pad2 (ms / 3600000) ++ [":"%char] ++ pad2 (ms / 60000 mod 60)
     ++ [":"%char] ++ pad2 (ms / 1000 mod 60) ++ [fraction]
     ++ pad3 (ms mod 1000)).

(** Modelled from the spec: the timestamp line of a block in the SRT
    grammar (formatter missing). *)
Definition formatSrtLine (b : ContentBlock) : option string :=
  match blockEnd b with
  | Some e =>
      Some (formatClock "," (blockStart b) ++ " --> " ++ formatClock "," e)%string
  | None => None
  end.
End MergeEngine.

(* ================================================================== *)
(** * Vocabulary of the statements *)

(** What it means for a pattern to match at the head of the input, apart from
    the order in which the matcher tries the alternatives:
    [Match r s c s' c'] when [r] can read a prefix of [s] leaving [s'], and
    turns capture [c] into [c']. *)
Inductive Match : regex -> jsstring -> capture -> jsstring -> capture -> Prop :=
| MChr p x s c :
    p x = true -> Match (Chr p) (x :: s) c s c
| MEps s c :
    Match Eps s c s c
| MSeq r1 r2 s c s1 c1 s2 c2 :
    Match r1 s c s1 c1 -> Match r2 s1 c1 s2 c2 ->
    Match (Seq r1 r2) s c s2 c2
| MAltL r1 r2 s c s' c' :
    Match r1 s c s' c' -> Match (Alt r1 r2) s c s' c'
| MAltR r1 r2 s c s' c' :
    Match r2 s c s' c' -> Match (Alt r1 r2) s c s' c'
| MStarStop r s c :
    Match (Star r) s c s c
| MStarStep r s c s1 c1 s2 c2 :
    Match r s c s1 c1 -> (List.length s1 < List.length s)%nat ->
    Match (Star r) s1 c1 s2 c2 -> Match (Star r) s c s2 c2
| MGroup r s c s' c' :
    Match r s c s' c' ->
    Match (Group r) s c s' (Some (firstn (List.length s - List.length s') s))
| MEoi c :
    Match Eoi [] c [] c.

(** The continuation of a search: any match is accepted. *)
Definition accept : continuation := fun s' c' => Some (s', c').

Definition isDigit (c : codeUnit) : Prop := CharClass.digit c = true.
Definition notDigit (c : codeUnit) : Prop := CharClass.digit c = false.

(** A non-empty run of digits. *)
Definition digitRun (ds : jsstring) : Prop :=
  ds <> [] /\ Forall isDigit ds.

(** The text ends here, or goes on with something else than a digit. *)
Definition noDigitAhead (s : jsstring) : Prop :=
  match s with
  | [] => True
  | x :: _ => notDigit x
  end.

(** The text is empty, or its last code unit is not a digit. *)
Definition noDigitBehind (s : jsstring) : Prop :=
  noDigitAhead (rev s).

(** The first run of digits of a text, and the run of digits it ends
    with. *)
Definition firstDigitRun (s : jsstring) : jsstring :=
  takeWhile CharClass.digit
    (dropWhile (fun x => negb (CharClass.digit x)) s).

Definition trailingDigitRun (s : jsstring) : jsstring :=
  rev (takeWhile CharClass.digit (rev s)).

Definition hasDigit (s : jsstring) : Prop :=
  exists x, In x s /\ isDigit x.

(** The four patterns of [extractSequenceNumber], in the order of the
    source. *)
Definition patterns : list regex :=
  [Pattern.trailing; Pattern.separated; Pattern.keyword; Pattern.anywhere].

(** The key of the first pattern of a list that matches the name. *)
Fixpoint firstMatching (rs : list regex) (name : jsstring) : option number :=
  match rs with
  | [] => None
  | r :: rs' =>
      match matchNumber r name with
      | Some n => Some n
      | None => firstMatching rs' name
      end
  end.

(** Whether a pattern matches a name. *)
Definition matches (r : regex) (name : jsstring) : bool :=
  match search r name with Some _ => true | None => false end.

(** The positions ([0] to [3]) of the patterns that match a name. *)
Fixpoint matchingFrom (i : nat) (rs : list regex) (name : jsstring)
  : list nat :=
  match rs with
  | [] => []
  | r :: rs' =>
      if matches r name then i :: matchingFrom (S i) rs' name
      else matchingFrom (S i) rs' name
  end.

Definition matchingPatterns (filename : jsstring) : list nat :=
  matchingFrom 0 patterns (nameWithoutExt filename).

(** The function with patterns 2 and 3 taken out. *)
Definition extractSequenceNumberShort (filename : jsstring) : option number :=
  let name := nameWithoutExt filename in
  match matchNumber Pattern.trailing name with
  | Some n => Some n
  | None =>
  match matchNumber Pattern.anywhere name with
  | Some n => Some n
  | None => None
  end end.

(** The sequence key of a path. *)
Definition sequenceKey (path : jsstring) : option number :=
  extractSequenceNumber (fileName path).

Definition hasKey (k : number) (path : jsstring) : bool :=
  match sequenceKey path with
  | Some n => number_eqb n k
  | None => false
  end.

Definition keyedBy (path : jsstring) (k : number) : Prop :=
  sequenceKey path = Some k.

(** The values a key can take, and their order. *)
Definition keyValue (n : number) : Prop :=
  match n with
  | Num z => (0 <= z)%Z
  | PosInf => True
  | NegInf => False
  | NaN => False
  end.

Definition number_leb (m n : number) : bool :=
  match m, n with
  | Num x, Num y => Z.leb x y
  | Num _, PosInf => true
  | PosInf, PosInf => true
  | NegInf, _ => true
  | _, _ => false
  end.

(** Ascending keys. *)
Definition keyLe (a b : jsstring) : Prop :=
  exists m n, keyedBy a m /\ keyedBy b n /\ number_leb m n = true.

Definition keyed (path : jsstring) : Prop := exists k, keyedBy path k.
Definition unkeyed (path : jsstring) : Prop := sequenceKey path = None.

(** The shape of a sorted list: the files with a key by ascending key, then
    the files without. *)
Definition keyOrdered (l : list jsstring) : Prop :=
  exists front back,
    l = front ++ back /\ Forall keyed front
    /\ StronglySorted keyLe front /\ Forall unkeyed back.

(** The collation comparator of the fallback. *)
Definition collate (localeCompare : collation) (a b : jsstring) : number :=
  Num (localeCompare (fileName a) (fileName b) "ru"%string
         (CollatorOptions true)).

(** The detector as the design document words it, with the four patterns of
    the code for rules: the rules are tried in priority order on the whole
    set, and the first rule that matches all the names gives every file its
    key; without such a rule the names are collated. *)
Definition matchesAll (r : regex) (files : list jsstring) : bool :=
  forallb (fun f => matches r (nameWithoutExt (fileName f))) files.

Fixpoint firstFullRuleFrom (i : nat) (rs : list regex)
    (files : list jsstring) : option (nat * regex) :=
  match rs with
  | [] => None
  | r :: rs' =>
      if matchesAll r files then Some (i, r)
      else firstFullRuleFrom (S i) rs' files
  end.

Definition firstFullRule (files : list jsstring) : option (nat * regex) :=
  firstFullRuleFrom 0 patterns files.

Definition keyUnder (r : regex) (path : jsstring) : number :=
  match matchNumber r (nameWithoutExt (fileName path)) with
  | Some n => n
  | None => NaN
  end.

Definition orderByFirstFullRule (localeCompare : collation)
    (files : list jsstring) : list jsstring :=
  match firstFullRule files with
  | Some (_, r) =>
      arraySort (fun a b => number_sub (keyUnder r a) (keyUnder r b)) files
  | None => arraySort (collate localeCompare) files
  end.

(** Two different files of the list resolve to the same key. *)
Definition tie (files : list jsstring) : Prop :=
  exists a b k,
    In a files /\ In b files /\ a <> b /\ keyedBy a k /\ keyedBy b k.

(** The design document's statements about the detector, in the terms of
    the code: a tie aborts the detection; the order is the one of the first
    rule that matches all the names; the order does not depend on the order
    of discovery when every name matches one rule and no other; a list
    without a numeric pattern is reported to the user. *)
Definition tieAborts (localeCompare : collation) (files : list jsstring)
  : Prop :=
  tie files ->
  exists error, callSortTranscriptionFiles localeCompare files = Throws error.

Definition firstFullRuleDecides (localeCompare : collation)
    (files : list jsstring) : Prop :=
  sortTranscriptionFiles localeCompare files
  = orderByFirstFullRule localeCompare files.

Definition oneRuleOnly (files : list jsstring) : Prop :=
  exists rule,
    Forall (fun f => matchingPatterns (fileName f) = [rule]) files.

Definition discoveryOrderIrrelevant (localeCompare : collation)
    (files : list jsstring) : Prop :=
  oneRuleOnly files ->
  forall files', Permutation files files' ->
    sortTranscriptionFiles localeCompare files
    = sortTranscriptionFiles localeCompare files'.

Definition lowConfidenceReported (localeCompare : collation)
    (files : list jsstring) : Prop :=
  exists warning,
    In warning
      (messages (handleTranscriptionFiles localeCompare files initialApp)).

(** The statement about the two moves for an arbitrary index: the length
    and the entries are kept. *)
Definition movesKeepEntries (A : Type) (undefined : A) (index : Z)
    (files : list A) : Prop :=
  List.length (moveFileUp undefined index files) = List.length files
  /\ Permutation files (moveFileUp undefined index files)
  /\ List.length (moveFileDown undefined index files) = List.length files
  /\ Permutation files (moveFileDown undefined index files).

(** The design document's statement about the offsets the Offset
    Accumulator computes in a merge run: offset(0) = 0 and
    offset(i) = offset(i-1) + duration(i-1). *)
Definition offsetsChain (files : list MergeEngine.SourceFile) : Prop :=
  let durations := List.map MergeEngine.resolveDuration files in
  MergeEngine.computedOffset durations 0 = 0%Z
  /\ forall i, (1 <= i < List.length files)%nat ->
       MergeEngine.computedOffset durations i
       = (MergeEngine.computedOffset durations (i - 1)
          + nth (i - 1) durations 0)%Z.

(** The two files of the design document's merge scenario, without
    duration hints. *)
Definition scenarioPart1 : MergeEngine.SourceFile :=
  MergeEngine.Source (js "a_1.srt")
    (MergeEngine.parseSrt 0
       ["00:00:00,000 --> 00:00:04,000"; "Hello"]%string)
    None.

Definition scenarioPart2 : MergeEngine.SourceFile :=
  MergeEngine.Source (js "a_2.srt")
    (MergeEngine.parseSrt 1
       ["00:00:00,000 --> 00:00:03,000"; "World"]%string)
    None.

(** The text is empty, or starts with a code unit outside the class. *)
Definition stopsAt (p : codeUnit -> bool) (s : jsstring) : Prop :=
  match s with
  | [] => True
  | x :: _ => p x = false
  end.

(** Boolean tests on code units, as arithmetic. *)
Ltac to_arith :=
  repeat match goal with
    | H : (_ && _)%bool = true |- _ => apply andb_true_iff in H; destruct H
    | H : (_ && _)%bool = false |- _ => apply andb_false_iff in H
    | H : (_ || _)%bool = true |- _ => apply orb_true_iff in H
    | H : (_ || _)%bool = false |- _ => apply orb_false_iff in H; destruct H
    | H : (_ <=? _)%N = true |- _ => apply N.leb_le in H
    | H : (_ <=? _)%N = false |- _ => apply N.leb_gt in H
    | H : (_ =? _)%N = true |- _ => apply N.eqb_eq in H
    | H : (_ =? _)%N = false |- _ => apply N.eqb_neq in H
    | H : _ \/ _ |- _ => destruct H
    end.

(** A concrete name holds no digit. *)
Ltac no_digit :=
  let c := fresh "c" in
  let Hin := fresh "Hin" in
  let Hd := fresh "Hd" in
  intros (c & Hin & Hd); vm_compute in Hin;
  repeat (destruct Hin as [<-|Hin]; [discriminate Hd|]);
  exact Hin.

(** The order a comparator induces: [x] does not compare greater than [y];
    and the entries it does not tell apart. *)
Definition notGreater (A : Type) (comparefn : A -> A -> number) (x y : A)
  : Prop :=
  number_pos (comparefn x y) = false.

Definition sameRank (A : Type) (comparefn : A -> A -> number) (x y : A)
  : bool :=
  negb (number_pos (comparefn x y)) && negb (number_pos (comparefn y x)).

(* ================================================================== *)
(** * Removing entries, paths, the rows of the list and dropped files *)

(** [removeTranscriptionFile] and [clearAllTranscriptions]: the list is
    changed, then the buttons are brought up to date. *)
Definition removeTranscriptionFile (index : Z) (app : App) : App :=
  displayTranscriptionFiles
    (MkApp (splice (transcriptionFiles app) index 1 [])
       (mergeBtnDisabled app) (clearAllBtnDisabled app) (messages app)).

Definition clearAllTranscriptions (app : App) : App :=
  displayTranscriptionFiles
    (MkApp [] (mergeBtnDisabled app) (clearAllBtnDisabled app)
       (messages app)).

(** [selectTranscriptionFiles] once the file dialog has answered, without
    its console output and the default output path.  [Some files] is an
    answer that is an array, [None] any other ([null] when the dialog is
    dismissed) or a failure of the dialog, which is caught.  Unlike
    [handleTranscriptionFiles] the method does not look at the length of
    the array. *)
Definition selectTranscriptionFiles (localeCompare : collation)
    (selected : option (list jsstring)) (app : App) : App :=
  match selected with
  | Some files =>
      let app1 :=
        MkApp (sortTranscriptionFiles localeCompare files)
          (mergeBtnDisabled app) (clearAllBtnDisabled app) (messages app) in
      let app2 := displayTranscriptionFiles app1 in
      MkApp (transcriptionFiles app2) false (clearAllBtnDisabled app2)
        (messages app2)
  | None => app
  end.

(** The ways the page changes the file list without a move: files are
    dropped, the file dialog answers, one entry is removed, the list is
    cleared. *)
Inductive listEvent : Type :=
| Received (filePaths : list jsstring)
| Selected (selected : option (list jsstring))
| Removed (index : Z)
| Cleared.

Definition handleEvent (localeCompare : collation) (app : App)
    (e : listEvent) : App :=
  match e with
  | Received filePaths => handleTranscriptionFiles localeCompare filePaths app
  | Selected selected => selectTranscriptionFiles localeCompare selected app
  | Removed index => removeTranscriptionFile index app
  | Cleared => clearAllTranscriptions app
  end.

(** The page after a sequence of events, from the state [app]. *)
Definition handleEvents (localeCompare : collation) (events : list listEvent)
    (app : App) : App :=
  fold_left (handleEvent localeCompare) events app.

(** The events that write the list and the buttons: all but a drop of no
    file and a dialog without an array. *)
Definition writesTheList (e : listEvent) : bool :=
  match e with
  | Received [] => false
  | Received (_ :: _) => true
  | Selected None => false
  | Selected (Some _) => true
  | Removed _ => true
  | Cleared => true
  end.

(** What the file dialog is expected to keep to: an array it answers with
    holds at least one path. *)
Definition holdsAFile (e : listEvent) : Prop :=
  match e with
  | Selected (Some []) => False
  | _ => True
  end.

(** The merge and the clear button are disabled together, and exactly when
    the list is empty. *)
Definition buttonsFollowTheList (app : App) : Prop :=
  mergeBtnDisabled app = clearAllBtnDisabled app
  /\ (mergeBtnDisabled app = true <-> transcriptionFiles app = []).

Section StringMethods.
Open Scope Z_scope.

(** [s.lastIndexOf(c)] for a search string of one code unit: the index of
    its last occurrence, [-1] without one. *)
Fixpoint lastIndexOf (c : codeUnit) (s : jsstring) : Z :=
  match s with
  | [] => -1
  | x :: s' =>
      let later := lastIndexOf c s' in
      if later =? -1 then (if N.eqb x c then 0 else -1) else later + 1
  end.

(** [s.substring(start, finish)]: both ends are clamped to the string, and
    swapped when they come in the wrong order. *)
Definition substring (s : jsstring) (start finish : Z) : jsstring :=
  let len := Z.of_nat (List.length s) in
  let finalStart := Z.min (Z.max start 0) len in
  let finalEnd := Z.min (Z.max finish 0) len in
  let from := Z.min finalStart finalEnd in
  let to := Z.max finalStart finalEnd in
  firstn (Z.to_nat (to - from)) (skipn (Z.to_nat from) s).

(** [s.slice(start)]: a negative start counts from the end. *)
Definition slice (s : jsstring) (start : Z) : jsstring :=
  let len := Z.of_nat (List.length s) in
  let from := if start <? 0 then Z.max (len + start) 0 else Z.min start len in
  skipn (Z.to_nat from) s.

(** [getParentFolder], without its console output. *)
Definition getParentFolder (filePath : jsstring) : jsstring :=
  let lastBackslash := lastIndexOf 92%N filePath in
  let lastForwardSlash := lastIndexOf 47%N filePath in
  let lastSlashIndex := Z.max lastBackslash lastForwardSlash in
  if lastSlashIndex =? -1 then filePath
  else substring filePath 0 lastSlashIndex.

(** [truncatePath]; [None] is a call without the second argument, which
    then takes its default. *)
Definition truncatePath (path : jsstring) (maxLength : option Z) : jsstring :=
  let maxLength := match maxLength with Some m => m | None => 50 end in
  if Z.of_nat (List.length path) <=? maxLength then path
  else js "..." ++ slice path (- (maxLength - 3)).

(** The output folder remembered from the folder dialog ([null] before the
    first choice) and the text of the output-path input. *)
Record OutputPath : Type := MkOutputPath {
  lastOutputPath : option jsstring;
  outputPathValue : jsstring
}.

(** Whether [value] counts as true in a condition: neither [null] nor the
    empty string. *)
Definition truthy (value : option jsstring) : bool :=
  match value with
  | Some (_ :: _) => true
  | Some [] => false
  | None => false
  end.

(** Line feed and carriage return. *)
Definition lineBreak (c : codeUnit) : bool := N.eqb c 10 || N.eqb c 13.

(** What a text input holds after [input.value = text]: the value
    sanitization of the input strips the line breaks. *)
Definition stripNewlines (text : jsstring) : jsstring :=
  filter (fun c => negb (lineBreak c)) text.

(** [setDefaultOutputPath], for the file list [files]; the output-path
    input is taken for a text input, the markup of the page being no part
    of the sources. *)
Definition setDefaultOutputPath (files : list jsstring) (out : OutputPath)
  : OutputPath :=
  match files with
  | firstFilePath :: _ =>
      let directory :=
        substring firstFilePath 0 (lastIndexOf 47%N firstFilePath) in
      if negb (truthy (lastOutputPath out))
      then MkOutputPath (lastOutputPath out) (stripNewlines directory)
      else out
  | [] => out
  end.
End StringMethods.

(** [file.split('/').pop() || ''], the name shown in a row of the list. *)
Definition shownName (file : jsstring) : jsstring :=
  orEmpty (pop (split (fun c => N.eqb c 47) file)).

(** An entry of the file array as the run time holds it: a string, or
    [undefined] ([None]). *)
Definition entry : Type := option jsstring.

(** A row of the list built by [displayTranscriptionFiles]: the order number
    and the name shown, and for each of the three buttons the index its
    handler was created with and whether it is disabled. *)
Record Row : Type := MkRow {
  rowOrder : Z;
  rowName : jsstring;
  upIndex : Z;
  upDisabled : bool;
  downIndex : Z;
  downDisabled : bool;
  deleteIndex : Z
}.

(** The loop of [displayTranscriptionFiles] from entry [index] on; [len] is
    [this.transcriptionFiles.length].  Calling [split] on [undefined]
    throws. *)
Fixpoint rowsFrom (index len : Z) (files : list entry)
  : completion (list Row) :=
  match files with
  | [] => Returns []
  | None :: _ => Throws (js "TypeError")
  | Some file :: rest =>
      match rowsFrom (index + 1) len rest with
      | Returns rows =>
          Returns (MkRow (index + 1) (shownName file)
                     index (Z.eqb index 0)
                     index (Z.eqb index (len - 1))
                     index :: rows)
      | Throws error => Throws error
      end
  end.

Definition displayRows (files : list entry) : completion (list Row) :=
  rowsFrom 0 (Z.of_nat (List.length files)) files.

(** A click on a button of a row, and whether the button takes it. *)
Inductive click : Type :=
| ClickUp (row : Row)
| ClickDown (row : Row)
| ClickDelete (row : Row).

Definition clickedRow (c : click) : Row :=
  match c with
  | ClickUp row => row
  | ClickDown row => row
  | ClickDelete row => row
  end.

Definition enabled (c : click) : bool :=
  match c with
  | ClickUp row => negb (upDisabled row)
  | ClickDown row => negb (downDisabled row)
  | ClickDelete _ => true
  end.

(** What the handler of the button does to the array. *)
Definition onclick (c : click) (files : list entry) : list entry :=
  match c with
  | ClickUp row => moveFileUp None (upIndex row) files
  | ClickDown row => moveFileDown None (downIndex row) files
  | ClickDelete row => splice files (deleteIndex row) 1 []
  end.

(** The arrays the user can reach from [start] by clicking enabled buttons
    of the rows on display. *)
Inductive afterClicks (start : list entry) : list entry -> Prop :=
| NoClick : afterClicks start start
| Clicked files rows c :
    afterClicks start files ->
    displayRows files = Returns rows ->
    In (clickedRow c) rows ->
    enabled c = true ->
    afterClicks start (onclick c files).

(** [s.toLowerCase()], on the code units whose lower case holds an ASCII
    letter: the capital letters, the Kelvin sign, and the dotted capital I,
    which becomes [i] followed by a combining dot.  Other letters change in
    the host too, never into ASCII letters. *)
Definition lowerUnit (c : codeUnit) : jsstring :=
  if (N.leb 65 c && N.leb c 90)%bool then [(c + 32)%N]
  else if N.eqb c 304 then [105%N; 775%N]
  else if N.eqb c 8490 then [107%N]
  else [c].

Definition toLowerCase (s : jsstring) : jsstring := flat_map lowerUnit s.

Definition sameString (a b : jsstring) : bool :=
  if list_eq_dec N.eq_dec a b then true else false.

(** [arr.includes(x)] *)
Definition includes (arr : list jsstring) (x : jsstring) : bool :=
  existsb (sameString x) arr.

Definition mediaExtensions : list jsstring :=
  List.map js
    ["mp4"; "avi"; "mov"; "mkv"; "webm"; "flv"; "wmv"; "mp3"; "wav"; "aac";
     "flac"; "ogg"; "m4a"; "wma"; "opus"]%string.

Definition transcriptionExtensions : list jsstring :=
  List.map js ["txt"; "srt"; "md"]%string.

(** [filePath.split('.').pop()?.toLowerCase()], then [extension || '']. *)
Definition extensionOf (filePath : jsstring) : jsstring :=
  orEmpty (option_map toLowerCase (pop (split CharClass.dot filePath))).

(** The body of the loop over the dropped files: the path is pushed onto one
    of the two arrays, or onto none. *)
Definition classifyFile (arrays : list jsstring * list jsstring)
    (filePath : jsstring) : list jsstring * list jsstring :=
  let '(mediaFiles, transcriptionFiles) := arrays in
  let extension := extensionOf filePath in
  if includes mediaExtensions extension
  then (mediaFiles ++ [filePath], transcriptionFiles)
  else if includes transcriptionExtensions extension
  then (mediaFiles, transcriptionFiles ++ [filePath])
  else (mediaFiles, transcriptionFiles).

(** The calls the handler of the file-drop event makes. *)
Inductive call : Type :=
| HandleMediaFiles (filePaths : list jsstring)
| HandleTranscriptionFiles (filePaths : list jsstring)
| ShowFileErrorState.

(** The handler of the file-drop event, as the calls it makes in order;
    [None] is a missing payload. *)
Definition onFileDrop (payload : option (list jsstring)) : list call :=
  match payload with
  | Some files =>
      if negb (Nat.eqb (List.length files) 0) then
        let '(mediaFiles, transcriptionFiles) :=
          fold_left classifyFile files ([], []) in
        (if negb (Nat.eqb (List.length mediaFiles) 0)
         then [HandleMediaFiles mediaFiles] else [])
        ++ (if negb (Nat.eqb (List.length transcriptionFiles) 0)
            then [HandleTranscriptionFiles transcriptionFiles] else [])
        ++ (if (Nat.eqb (List.length mediaFiles) 0
                && Nat.eqb (List.length transcriptionFiles) 0)%bool
            then [ShowFileErrorState] else [])
      else []
  | None => []
  end.

(** [handleMediaFiles], on the selected file: the first path is taken. *)
Definition handleMediaFiles (filePaths : list jsstring)
    (selectedFile : option jsstring) : option jsstring :=
  match filePaths with
  | filePath :: _ => Some filePath
  | [] => selectedFile
  end.

(** Whether the extension test of the drop handler takes a path for a media
    file, and for a transcription. *)
Definition isMedia (filePath : jsstring) : bool :=
  includes mediaExtensions (extensionOf filePath).

Definition isTranscription (filePath : jsstring) : bool :=
  negb (includes mediaExtensions (extensionOf filePath))
  && includes transcriptionExtensions (extensionOf filePath).

(** No code unit of the text is in the class. *)
Definition without (p : codeUnit -> bool) (s : jsstring) : Prop :=
  Forall (fun x => p x = false) s.

(** A run of the digit zero. *)
Definition zeros (s : jsstring) : Prop := Forall (fun x => x = 48%N) s.

(** A collation that is an order: any two names are comparable, and
    comparisons chain. *)
Definition consistentCollation (localeCompare : collation) : Prop :=
  (forall a b,
     (localeCompare a b "ru"%string (CollatorOptions true) <= 0
      \/ localeCompare b a "ru"%string (CollatorOptions true) <= 0)%Z)
  /\ (forall a b c,
        (localeCompare a b "ru"%string (CollatorOptions true) <= 0 ->
         localeCompare b c "ru"%string (CollatorOptions true) <= 0 ->
         localeCompare a c "ru"%string (CollatorOptions true) <= 0)%Z).

(** The collation that compares code units, shorter first. *)
Fixpoint codeUnitOrder (a b : jsstring) : Z :=
  match a, b with
  | [], [] => 0
  | [], _ :: _ => -1
  | _ :: _, [] => 1
  | x :: a', y :: b' =>
      match N.compare x y with
      | Lt => -1
      | Gt => 1
      | Eq => codeUnitOrder a' b'
      end
  end.

Definition codeUnitCollation : collation :=
  fun a b _ _ => codeUnitOrder a b.

(* ================================================================== *)
(** * The matcher *)

Section MatcherFacts.

Lemma starLoop_sound (r : regex)
    (IH : forall s c k m, exec r s c k = Some m ->
          exists s' c', Match r s c s' c' /\ k s' c' = Some m) :
  forall fuel s c k m,
    starLoop (exec r) k fuel s c = Some m ->
    exists s' c', Match (Star r) s c s' c' /\ k s' c' = Some m.
Proof.
  induction fuel as [|fuel IHfuel]; intros s c k m H; simpl in H.
  - exists s, c. split; [apply MStarStop | exact H].
  - destruct (exec r s c _) as [m'|] eqn:E.
    + injection H as ->.
      apply IH in E. destruct E as (s1 & c1 & M1 & K1).
      destruct (List.length s1 <? List.length s)%nat eqn:L; [|discriminate].
      apply Nat.ltb_lt in L.
      apply IHfuel in K1. destruct K1 as (s2 & c2 & M2 & K2).
      exists s2, c2. split; [|exact K2].
      eapply MStarStep; eauto.
    + exists s, c. split; [apply MStarStop | exact H].
Qed.

(** Whatever the matcher returns comes from a match of the pattern that
    its continuation accepted. *)
Lemma exec_sound (r : regex) :
  forall s c k m, exec r s c k = Some m ->
  exists s' c', Match r s c s' c' /\ k s' c' = Some m.
Proof.
  induction r as [p| |r1 IH1 r2 IH2|r1 IH1 r2 IH2|r IH|r IH|];
    intros s c k m H; simpl in H.
  - destruct s as [|x s']; [discriminate|].
    destruct (p x) eqn:P; [|discriminate].
    exists s', c. split; [apply MChr; exact P | exact H].
  - exists s, c. split; [apply MEps | exact H].
  - apply IH1 in H. destruct H as (s1 & c1 & M1 & H).
    apply IH2 in H. destruct H as (s2 & c2 & M2 & H).
    exists s2, c2. split; [eapply MSeq; eauto | exact H].
  - destruct (exec r1 s c k) as [m'|] eqn:E.
    + injection H as ->. apply IH1 in E. destruct E as (s1 & c1 & M1 & K1).
      exists s1, c1. split; [apply MAltL; exact M1 | exact K1].
    + apply IH2 in H. destruct H as (s1 & c1 & M1 & K1).
      exists s1, c1. split; [apply MAltR; exact M1 | exact K1].
  - eapply starLoop_sound; eauto.
  - apply IH in H. destruct H as (s1 & c1 & M1 & K1).
    eexists s1, _. split; [exact (MGroup M1) | exact K1].
  - destruct s; [|discriminate].
    exists [], c. split; [apply MEoi | exact H].
Qed.

(** A match reads a prefix of the input. *)
Lemma Match_prefix r s c s' c' :
  Match r s c s' c' -> exists u, s = u ++ s'.
Proof.
  induction 1.
  - exists [x]. reflexivity.
  - exists []. reflexivity.
  - destruct IHMatch1 as [u1 ->]. destruct IHMatch2 as [u2 ->].
    exists (u1 ++ u2). now rewrite app_assoc.
  - assumption.
  - assumption.
  - exists []. reflexivity.
  - destruct IHMatch1 as [u1 ->]. destruct IHMatch2 as [u2 ->].
    exists (u1 ++ u2). now rewrite app_assoc.
  - assumption.
  - exists []. reflexivity.
Qed.

Lemma firstn_consumed (u s' : jsstring) :
  firstn (List.length (u ++ s') - List.length s') (u ++ s') = u.
Proof.
  rewrite length_app, Nat.add_sub.
  rewrite firstn_app, Nat.sub_diag, firstn_all. simpl.
  apply app_nil_r.
Qed.

Lemma Match_Seq_inv r1 r2 s c s2 c2 :
  Match (Seq r1 r2) s c s2 c2 ->
  exists s1 c1, Match r1 s c s1 c1 /\ Match r2 s1 c1 s2 c2.
Proof.
  inversion 1; subst. eauto.
Qed.

Lemma Match_Chr_inv p s c s' c' :
  Match (Chr p) s c s' c' -> c' = c /\ exists x, s = x :: s' /\ p x = true.
Proof.
  inversion 1; subst. split; [reflexivity|]. eauto.
Qed.

Lemma Match_Star_Chr p s c s' c' :
  Match (Star (Chr p)) s c s' c' ->
  c' = c /\ exists u, s = u ++ s' /\ Forall (fun x => p x = true) u.
Proof.
  intros M. remember (Star (Chr p)) as r eqn:R.
  induction M; try discriminate.
  - split; [reflexivity|]. exists []. split; [reflexivity | constructor].
  - injection R as ->.
    apply Match_Chr_inv in M1. destruct M1 as (-> & x & -> & P).
    destruct (IHM2 eq_refl) as (-> & u & -> & F).
    split; [reflexivity|]. exists (x :: u). split; [reflexivity|].
    constructor; assumption.
Qed.

Lemma Match_Plus_Chr p s c s' c' :
  Match (Plus (Chr p)) s c s' c' ->
  c' = c /\ exists u, u <> [] /\ s = u ++ s' /\ Forall (fun x => p x = true) u.
Proof.
  unfold Plus. inversion 1; subst.
  match goal with M : Match (Chr _) _ _ _ _ |- _ =>
    apply Match_Chr_inv in M; destruct M as (-> & x & -> & P) end.
  match goal with M : Match (Star _) _ _ _ _ |- _ =>
    apply Match_Star_Chr in M; destruct M as (-> & u & -> & F) end.
  split; [reflexivity|]. exists (x :: u).
  split; [discriminate|]. split; [reflexivity|]. constructor; assumption.
Qed.

(** [(\d+)] reads a run of digits and captures it. *)
Lemma Match_Group_digits s c s' c' :
  Match (Group (Plus (Chr CharClass.digit))) s c s' c' ->
  exists ds, digitRun ds /\ s = ds ++ s' /\ c' = Some ds.
Proof.
  inversion 1; subst.
  match goal with M : Match (Plus _) _ _ _ _ |- _ =>
    apply Match_Plus_Chr in M; destruct M as (_ & u & N & -> & F) end.
  exists u. split; [split; assumption|]. split; [reflexivity|].
  now rewrite firstn_consumed.
Qed.

(** [(\d+)$] reads a run of digits up to the end of the input. *)
Lemma Match_digits_Eoi s c s' c' :
  Match (Seq (Group (Plus (Chr CharClass.digit))) Eoi) s c s' c' ->
  digitRun s /\ s' = [] /\ c' = Some s.
Proof.
  inversion 1; subst.
  match goal with M : Match (Group _) _ _ _ _ |- _ =>
    apply Match_Group_digits in M; destruct M as (ds & D & -> & ->) end.
  match goal with M : Match Eoi _ _ _ _ |- _ => inversion M; subst end.
  rewrite app_nil_r. auto.
Qed.

End MatcherFacts.

Section CharFacts.
Import CharClass.
Open Scope N_scope.

Lemma digit_range c : digit c = true <-> 48 <= c <= 57.
Proof.
  unfold digit. rewrite andb_true_iff, !N.leb_le. tauto.
Qed.

Lemma digit_dec c : {digit c = true} + {digit c = false}.
Proof. destruct (digit c); auto. Qed.

Lemma space_not_digit c : space c = true -> digit c = false.
Proof.
  intros S. destruct (digit c) eqn:D; [|reflexivity].
  apply digit_range in D. unfold space in S. to_arith; lia.
Qed.

Lemma separator_not_digit c : separator c = true -> digit c = false.
Proof.
  intros S. unfold separator in S. apply orb_true_iff in S.
  destruct S as [S|S]; [|now apply space_not_digit].
  destruct (digit c) eqn:D; [|reflexivity].
  apply digit_range in D. to_arith; lia.
Qed.

(** Canonicalization leaves the digits alone. *)
Lemma canonicalize_digit c : digit c = true -> canonicalize c = c.
Proof.
  intros D. apply digit_range in D. unfold canonicalize.
  repeat match goal with
    | |- context [if ?b then _ else _] =>
        let E := fresh "E" in destruct b eqn:E; [to_arith; try lia|]
    end; reflexivity.
Qed.

(** A code unit that matches a letter under the [i] flag is no digit. *)
Lemma letter_not_digit k x :
  digit (canonicalize k) = false ->
  (canonicalize x =? canonicalize k) = true -> digit x = false.
Proof.
  intros K E. apply N.eqb_eq in E.
  destruct (digit x) eqn:D; [|reflexivity].
  rewrite (canonicalize_digit _ D) in E. congruence.
Qed.

Lemma keywords_letters :
  Forall (fun w => w <> [] /\
                   Forall (fun k => digit (canonicalize k) = false) w)
    Pattern.keywords.
Proof.
  unfold Pattern.keywords.
  repeat (constructor; [split; [discriminate | repeat constructor]|]).
  constructor.
Qed.
End CharFacts.

Section NumberFacts.
Open Scope Z_scope.

(** Rounding a natural number gives a key value, positive when the number
    is. *)
Lemma roundNatural_spec n :
  0 <= n ->
  keyValue (roundNatural n) /\ number_pos (roundNatural n) = (0 <? n).
Proof.
  intros N. unfold roundNatural.
  destruct (n <? 2 ^ 53) eqn:S; [split; [exact N | reflexivity]|].
  apply Z.ltb_ge in S.
  assert (P53 : 0 < 2 ^ 53) by (apply Z.pow_pos_nonneg; lia).
  assert (Pn : 0 < n) by lia.
  assert (L : 53 <= Z.log2 n) by (apply Z.log2_le_pow2; assumption).
  set (e := Z.log2 n - 52).
  assert (Pe : 0 < 2 ^ e) by (apply Z.pow_pos_nonneg; unfold e; lia).
  assert (Le : 2 ^ e <= n).
  { apply Z.le_trans with (2 ^ Z.log2 n).
    - apply Z.pow_le_mono_r; unfold e; lia.
    - apply Z.log2_spec. exact Pn. }
  assert (Q : 1 <= n / 2 ^ e)
    by (apply Z.div_le_lower_bound; lia).
  set (q := n / 2 ^ e) in *.
  set (q' := if (2 ^ (e - 1) <? n mod 2 ^ e)
                || (n mod 2 ^ e =? 2 ^ (e - 1)) && Z.odd q
             then q + 1 else q).
  assert (Q' : 1 <= q').
  { unfold q'. destruct (_ || _)%bool; lia. }
  assert (V : 0 < q' * 2 ^ e) by (apply Z.mul_pos_pos; lia).
  assert (T : (0 <? n) = true) by (apply Z.ltb_lt; exact Pn).
  cbv zeta. fold e. fold q. fold q'.
  destruct (2 ^ 1024 <=? q' * 2 ^ e).
  - split; [exact I | symmetry; exact T].
  - split; [simpl; lia|]. simpl. rewrite T. apply Z.ltb_lt. exact V.
Qed.

Lemma toNumber_keyValue d : 0 <= d -> keyValue (toNumber d).
Proof.
  intros N. unfold toNumber.
  assert (S : (0 <=? d) = true) by (apply Z.leb_le; exact N).
  rewrite S. apply roundNatural_spec. exact N.
Qed.

(** The sign of a difference survives the rounding. *)
Lemma toNumber_pos d : number_pos (toNumber d) = (0 <? d).
Proof.
  unfold toNumber. destruct (0 <=? d) eqn:S.
  - apply Z.leb_le in S. apply roundNatural_spec. exact S.
  - apply Z.leb_gt in S.
    assert (F : (0 <? d) = false) by (apply Z.ltb_ge; lia).
    rewrite F.
    destruct (@roundNatural_spec (- d)) as [K _]; [lia|].
    destruct (roundNatural (- d)) as [v| | |]; simpl in *;
      try reflexivity; try contradiction.
    apply Z.ltb_ge. lia.
Qed.

Lemma number_eqb_eq a b : number_eqb a b = true <-> a = b.
Proof.
  destruct a, b; simpl; split; intros H;
    try discriminate; try reflexivity.
  - apply Z.eqb_eq in H. now subst.
  - injection H as ->. apply Z.eqb_refl.
Qed.

Lemma number_sub_diag k : number_pos (number_sub k k) = false.
Proof.
  destruct k; simpl; try reflexivity.
  rewrite toNumber_pos, Z.sub_diag. reflexivity.
Qed.

(** On key values the comparator's subtraction decides the order. *)
Lemma key_sub_pos m n :
  keyValue m -> keyValue n ->
  number_pos (number_sub m n) = negb (number_leb m n).
Proof.
  destruct m, n; simpl; intros Km Kn; try contradiction; try reflexivity.
  rewrite toNumber_pos.
  destruct (Z.leb_spec z z0); [apply Z.ltb_ge | apply Z.ltb_lt]; lia.
Qed.

Lemma number_leb_trans m n k :
  number_leb m n = true -> number_leb n k = true -> number_leb m k = true.
Proof.
  destruct m, n, k; simpl; intros A B;
    try discriminate; try reflexivity.
  apply Z.leb_le in A, B. apply Z.leb_le. lia.
Qed.

Lemma number_leb_antisym m n :
  keyValue m -> keyValue n ->
  number_leb m n = true -> number_leb n m = true -> m = n.
Proof.
  destruct m, n; simpl; intros Km Kn A B;
    try discriminate; try contradiction; try reflexivity.
  apply Z.leb_le in A, B. f_equal. lia.
Qed.

Lemma number_leb_total m n :
  keyValue m -> keyValue n ->
  number_leb m n = false -> number_leb n m = true.
Proof.
  destruct m, n; simpl; intros Km Kn A;
    try discriminate; try contradiction; try reflexivity.
  apply Z.leb_gt in A. apply Z.leb_le. lia.
Qed.
End NumberFacts.

Section WordFacts.
Import CharClass.

Lemma Match_Word w :
  Forall (fun k => digit (canonicalize k) = false) w ->
  forall s c s' c', Match (Word true w) s c s' c' ->
  c' = c /\ exists u, s = u ++ s' /\ List.length u = List.length w
                      /\ Forall notDigit u.
Proof.
  induction 1 as [|k w K F IH]; intros s c s' c' M; simpl in M.
  - inversion M; subst. split; [reflexivity|].
    exists []. repeat split. constructor.
  - inversion M; subst.
    match goal with M1 : Match (Lit _ _) _ _ _ _ |- _ =>
      apply Match_Chr_inv in M1; destruct M1 as (-> & x & -> & P) end.
    match goal with M2 : Match (Word _ _) _ _ _ _ |- _ =>
      apply IH in M2; destruct M2 as (-> & u & -> & L & N) end.
    split; [reflexivity|]. exists (x :: u).
    split; [reflexivity|]. split; [simpl; congruence|].
    constructor; [|exact N].
    eapply letter_not_digit; eauto.
Qed.

(** A keyword of the alternation reads a non-empty text without digits
    and leaves the capture alone. *)
Lemma Match_AnyWord ws :
  Forall (fun w => w <> [] /\
                   Forall (fun k => digit (canonicalize k) = false) w) ws ->
  forall s c s' c', Match (AnyWord true ws) s c s' c' ->
  c' = c /\ exists u, u <> [] /\ s = u ++ s' /\ Forall notDigit u.
Proof.
  assert (W : forall w, w <> [] ->
              Forall (fun k => digit (canonicalize k) = false) w ->
              forall s c s' c', Match (Word true w) s c s' c' ->
              c' = c /\ exists u, u <> [] /\ s = u ++ s'
                                  /\ Forall notDigit u).
  { intros w N F s c s' c' M.
    destruct (Match_Word F M) as (-> & u & -> & L & D).
    split; [reflexivity|]. exists u. repeat split; auto.
    intros ->. destruct w; [congruence | discriminate]. }
  induction 1 as [|w ws [N F] Fs IH]; intros s c s' c' M.
  - simpl in M. inversion M; discriminate.
  - destruct ws as [|w2 ws].
    + simpl in M. eapply W; eauto.
    + change (AnyWord true (w :: w2 :: ws))
        with (Alt (Word true w) (AnyWord true (w2 :: ws))) in M.
      inversion M; subst; [eapply W; eauto | eapply IH; eauto].
Qed.
End WordFacts.

Section SearchFacts.

Lemma searchFrom_here r s before rest c :
  exec r s None accept = Some (rest, c) ->
  searchFrom r before s
  = Some (MatchResult before
            (firstn (List.length s - List.length rest) s) rest c).
Proof.
  intros E. unfold accept in E.
  destruct s; simpl; rewrite E; reflexivity.
Qed.

Lemma searchFrom_skip r suf :
  forall pre before,
    (forall p1 p2, pre = p1 ++ p2 -> p2 <> [] ->
                   exec r (p2 ++ suf) None accept = None) ->
    searchFrom r before (pre ++ suf) = searchFrom r (before ++ pre) suf.
Proof.
  induction pre as [|x pre IH]; intros before F.
  - now rewrite app_nil_r.
  - simpl. pose proof (F [] (x :: pre) eq_refl) as E.
    unfold accept in E. simpl in E. rewrite E by discriminate.
    rewrite IH.
    + now rewrite <- app_assoc.
    + intros p1 p2 -> N. apply (F (x :: p1) p2); auto.
Qed.

(** Every result of a search is a match of the pattern at some index. *)
Lemma searchFrom_sound r :
  forall s before m,
    searchFrom r before s = Some m ->
    exists pre suf,
      s = pre ++ suf /\ m_before m = before ++ pre
      /\ suf = m_text m ++ m_after m
      /\ Match r suf None (m_after m) (m_group1 m).
Proof.
  assert (Here : forall s before m rest c,
    exec r s None (fun s' c' => Some (s', c')) = Some (rest, c) ->
    Some (MatchResult before
            (firstn (List.length s - List.length rest) s) rest c) = Some m ->
    exists pre suf,
      s = pre ++ suf /\ m_before m = before ++ pre
      /\ suf = m_text m ++ m_after m
      /\ Match r suf None (m_after m) (m_group1 m)).
  { intros s before m rest c E H. injection H as <-. simpl.
    apply exec_sound in E. destruct E as (s' & c' & M & A).
    injection A as -> ->.
    destruct (Match_prefix M) as [u ->].
    exists [], (u ++ rest). rewrite firstn_consumed, app_nil_r. auto. }
  induction s as [|x s IH]; intros before m H; simpl in H.
  - destruct (exec r [] None _) as [[rest c]|] eqn:E; [|discriminate].
    eapply Here; eauto.
  - destruct (exec r (x :: s) None _) as [[rest c]|] eqn:E.
    + eapply Here; eauto.
    + apply IH in H. destruct H as (pre & suf & -> & B & T & M).
      exists (x :: pre), suf. rewrite B, <- app_assoc. auto.
Qed.

Lemma search_sound r s m :
  search r s = Some m ->
  exists pre suf,
    s = pre ++ suf /\ m_before m = pre /\ suf = m_text m ++ m_after m
    /\ Match r suf None (m_after m) (m_group1 m).
Proof.
  intros H. apply searchFrom_sound in H. exact H.
Qed.

End SearchFacts.

Section GreedyFacts.
Variable p : codeUnit -> bool.

(** The star of a class reads the whole run when what follows accepts the
    rest. *)
Lemma starLoop_Chr_greedy k s' c m :
  stopsAt p s' -> k s' c = Some m ->
  forall u fuel,
    Forall (fun x => p x = true) u -> (List.length u <= fuel)%nat ->
    starLoop (exec (Chr p)) k fuel (u ++ s') c = Some m.
Proof.
  intros Stop K. induction u as [|x u IH]; intros fuel F L.
  - simpl. destruct fuel as [|fuel]; simpl; [exact K|].
    destruct s' as [|y s']; [exact K|].
    simpl in Stop. rewrite Stop. exact K.
  - destruct fuel as [|fuel]; [simpl in L; lia|].
    inversion F as [|? ? Px Fu]; subst.
    simpl. rewrite Px.
    assert (Lt : (List.length (u ++ s') <? S (List.length (u ++ s')))%nat
                 = true) by (apply Nat.ltb_lt; lia).
    rewrite Lt. rewrite IH; [reflexivity | exact Fu | simpl in L; lia].
Qed.

Lemma exec_Plus_Chr_greedy k ds s' c m :
  ds <> [] -> Forall (fun x => p x = true) ds ->
  stopsAt p s' -> k s' c = Some m ->
  exec (Plus (Chr p)) (ds ++ s') c k = Some m.
Proof.
  intros N F Stop K. destruct ds as [|x u]; [congruence|].
  inversion F as [|? ? Px Fu]; subst.
  simpl. rewrite Px.
  apply starLoop_Chr_greedy; auto.
  rewrite length_app. lia.
Qed.
End GreedyFacts.

Section DigitRuns.
Import CharClass.

Lemma digitRun_Forall ds :
  digitRun ds -> Forall (fun x => digit x = true) ds.
Proof. intros [_ F]. exact F. Qed.

Lemma takeWhile_dropWhile (q : codeUnit -> bool) s :
  s = takeWhile q s ++ dropWhile q s.
Proof.
  induction s as [|x s IH]; simpl; [reflexivity|].
  destruct (q x); simpl; congruence.
Qed.

Lemma takeWhile_Forall (q : codeUnit -> bool) s :
  Forall (fun x => q x = true) (takeWhile q s).
Proof.
  induction s as [|x s IH]; simpl; [constructor|].
  destruct (q x) eqn:Q; constructor; assumption.
Qed.

Lemma dropWhile_stops (q : codeUnit -> bool) s :
  stopsAt q (dropWhile q s).
Proof.
  induction s as [|x s IH]; simpl; [exact I|].
  destruct (q x) eqn:Q; [exact IH | exact Q].
Qed.

Lemma takeWhile_all (q : codeUnit -> bool) s :
  Forall (fun x => q x = true) s -> takeWhile q s = s.
Proof.
  induction 1 as [|x s Q F IH]; simpl; [reflexivity|].
  now rewrite Q, IH.
Qed.

Lemma takeWhile_app_stop (q : codeUnit -> bool) u s :
  Forall (fun x => q x = true) u -> stopsAt q s ->
  takeWhile q (u ++ s) = u.
Proof.
  intros F Stop. induction F as [|x u Q F IH]; simpl.
  - destruct s as [|y s]; [reflexivity|]. simpl in *. now rewrite Stop.
  - now rewrite Q, IH.
Qed.

Lemma dropWhile_app_stop (q : codeUnit -> bool) u s :
  Forall (fun x => q x = true) u -> stopsAt q s ->
  dropWhile q (u ++ s) = s.
Proof.
  intros F Stop. induction F as [|x u Q F IH]; simpl.
  - destruct s as [|y s]; [reflexivity|]. simpl in *. now rewrite Stop.
  - now rewrite Q, IH.
Qed.

(** A text with a digit splits at its first run of digits. *)
Lemma firstDigitRun_split s :
  hasDigit s ->
  exists pre rest,
    s = pre ++ firstDigitRun s ++ rest
    /\ Forall notDigit pre /\ digitRun (firstDigitRun s)
    /\ noDigitAhead rest.
Proof.
  intros (x & Hin & Hx).
  set (nd := fun y => negb (digit y)).
  exists (takeWhile nd s), (dropWhile digit (dropWhile nd s)).
  unfold firstDigitRun. fold nd.
  split; [|split; [|split]].
  - rewrite <- takeWhile_dropWhile. apply takeWhile_dropWhile.
  - eapply Forall_impl; [|apply takeWhile_Forall].
    intros y Y. unfold nd in Y. unfold notDigit.
    now apply negb_true_iff in Y.
  - split; [|apply takeWhile_Forall].
    assert (D : dropWhile nd s <> []).
    { intros E. pose proof (takeWhile_dropWhile nd s) as S.
      rewrite E, app_nil_r in S.
      pose proof (takeWhile_Forall nd s) as F. rewrite <- S in F.
      rewrite Forall_forall in F. specialize (F x Hin).
      unfold nd, isDigit in *. rewrite Hx in F. discriminate. }
    pose proof (dropWhile_stops nd s) as Stop.
    destruct (dropWhile nd s) as [|y t]; [congruence|].
    simpl in Stop. unfold nd in Stop. apply negb_false_iff in Stop.
    simpl. rewrite Stop. discriminate.
  - pose proof (dropWhile_stops digit (dropWhile nd s)) as Stop.
    unfold noDigitAhead, notDigit.
    destruct (dropWhile digit (dropWhile nd s)); [exact I | exact Stop].
Qed.

Lemma firstDigitRun_unique pre ds rest :
  Forall notDigit pre -> digitRun ds -> noDigitAhead rest ->
  firstDigitRun (pre ++ ds ++ rest) = ds.
Proof.
  intros P [N D] R. unfold firstDigitRun.
  rewrite dropWhile_app_stop.
  - apply takeWhile_app_stop; [exact D|].
    destruct rest; [exact I | exact R].
  - eapply Forall_impl; [|exact P].
    intros y Y. unfold notDigit in Y. now rewrite Y.
  - destruct ds as [|d ds]; [congruence|].
    inversion D; subst. simpl.
    match goal with H : isDigit d |- _ => unfold isDigit in H; now rewrite H end.
Qed.

(** A text that ends with a digit splits before its last run of digits. *)
Lemma trailingDigitRun_split s :
  ~ noDigitBehind s ->
  exists pre,
    s = pre ++ trailingDigitRun s
    /\ noDigitBehind pre /\ digitRun (trailingDigitRun s).
Proof.
  intros H. unfold noDigitBehind, trailingDigitRun in *.
  exists (rev (dropWhile digit (rev s))).
  split; [|split].
  - rewrite <- rev_app_distr, <- takeWhile_dropWhile. now rewrite rev_involutive.
  - rewrite rev_involutive.
    pose proof (dropWhile_stops digit (rev s)) as Stop.
    unfold noDigitAhead, notDigit.
    destruct (dropWhile digit (rev s)); [exact I | exact Stop].
  - split.
    + destruct (rev s) as [|y t]; simpl in *; [tauto|].
      unfold notDigit in H. destruct (digit y) eqn:D; [|congruence].
      simpl. intros E. apply app_eq_nil in E. destruct E; discriminate.
    + apply Forall_rev. apply takeWhile_Forall.
Qed.

Lemma noDigitBehind_dec s : {noDigitBehind s} + {~ noDigitBehind s}.
Proof.
  unfold noDigitBehind, noDigitAhead, notDigit.
  destruct (rev s) as [|x t]; [left; exact I|].
  destruct (digit x); [right; discriminate | left; reflexivity].
Qed.

(** A decimal literal reads as its value. *)
Lemma parseInt10_digits ds :
  digitRun ds -> parseInt10 (Some ds) = toNumber (digitsValue ds).
Proof.
  intros [N D]. destruct ds as [|d ds]; [congruence|].
  inversion D as [|? ? Dd Dds]; subst. unfold isDigit in Dd.
  unfold parseInt10.
  assert (Sp : space d = false).
  { destruct (space d) eqn:S; [|reflexivity].
    apply space_not_digit in S. congruence. }
  assert (R : (48 <= d <= 57)%N) by now apply digit_range.
  simpl dropWhile. rewrite Sp.
  destruct (N.eqb_spec d 45); [lia|].
  destruct (N.eqb_spec d 43); [lia|].
  rewrite takeWhile_all by exact D.
  f_equal. lia.
Qed.
End DigitRuns.

Section PatternFacts.
Import CharClass.

Lemma noDigitBehind_app pre u :
  u <> [] -> Forall notDigit u -> noDigitBehind (pre ++ u).
Proof.
  intros N F. unfold noDigitBehind. rewrite rev_app_distr.
  destruct (rev u) as [|y t] eqn:E.
  - apply (f_equal (@rev codeUnit)) in E. rewrite rev_involutive in E.
    simpl in E. congruence.
  - simpl. rewrite Forall_forall in F. apply F.
    apply in_rev. rewrite E. now left.
Qed.

Lemma digitRun_behind pre ds :
  digitRun ds -> ~ noDigitBehind (pre ++ ds).
Proof.
  intros [N F] H. unfold noDigitBehind in H. rewrite rev_app_distr in H.
  destruct (rev ds) as [|y t] eqn:E.
  - apply (f_equal (@rev codeUnit)) in E. rewrite rev_involutive in E.
    simpl in E. congruence.
  - simpl in H. rewrite Forall_forall in F.
    assert (D : isDigit y) by (apply F, in_rev; rewrite E; now left).
    unfold isDigit, notDigit in *. congruence.
Qed.

(** Pattern 1 at the start of a run of digits that closes the text. *)
Lemma exec_trailing ds :
  digitRun ds -> exec Pattern.trailing ds None accept = Some ([], Some ds).
Proof.
  intros [N F].
  set (k := fun (s' : jsstring) (_ : capture) =>
              exec Eoi s' (Some (firstn (List.length ds - List.length s') ds))
                accept).
  change (exec (Plus (Chr digit)) ds None k = Some ([], Some ds)).
  pose proof (@exec_Plus_Chr_greedy digit k ds [] None ([], Some ds) N F I)
    as G.
  rewrite app_nil_r in G. apply G.
  unfold k. simpl. now rewrite Nat.sub_0_r, firstn_all.
Qed.

(** Pattern 1 finds the run of digits the text ends with, and captures
    it. *)
Lemma search_trailing pre ds :
  noDigitBehind pre -> digitRun ds ->
  search Pattern.trailing (pre ++ ds)
  = Some (MatchResult pre ds [] (Some ds)).
Proof.
  intros B D. unfold search. rewrite searchFrom_skip.
  - erewrite searchFrom_here by (apply exec_trailing; exact D). simpl.
    now rewrite Nat.sub_0_r, firstn_all.
  - intros p1 p2 -> N.
    destruct (exec Pattern.trailing (p2 ++ ds) None accept) as [m|] eqn:E;
      [|reflexivity].
    exfalso. apply exec_sound in E. destruct E as (s' & c' & M & _).
    apply Match_digits_Eoi in M. destruct M as ([_ F] & _ & _).
    apply Forall_app in F. destruct F as [F _].
    unfold noDigitBehind in B. rewrite rev_app_distr in B.
    destruct (rev p2) as [|y t] eqn:R.
    + apply (f_equal (@rev codeUnit)) in R. rewrite rev_involutive in R.
      simpl in R. congruence.
    + simpl in B. rewrite Forall_forall in F.
      assert (Dy : isDigit y) by (apply F, in_rev; rewrite R; now left).
      unfold isDigit, notDigit in *. congruence.
Qed.

Lemma search_trailing_none name :
  noDigitBehind name -> search Pattern.trailing name = None.
Proof.
  intros B. destruct (search Pattern.trailing name) as [m|] eqn:E;
    [|reflexivity].
  exfalso. apply search_sound in E.
  destruct E as (pre & suf & -> & _ & _ & M).
  apply Match_digits_Eoi in M. destruct M as (D & _ & _).
  exact (digitRun_behind pre D B).
Qed.

(** Pattern 4 at the start of a run of digits. *)
Lemma exec_anywhere ds rest :
  digitRun ds -> noDigitAhead rest ->
  exec Pattern.anywhere (ds ++ rest) None accept = Some (rest, Some ds).
Proof.
  intros [N F] A.
  set (k := fun (s' : jsstring) (_ : capture) =>
              accept s'
                (Some (firstn (List.length (ds ++ rest) - List.length s')
                         (ds ++ rest)))).
  change (exec (Plus (Chr digit)) (ds ++ rest) None k
          = Some (rest, Some ds)).
  apply exec_Plus_Chr_greedy;
    [ exact N | exact F | destruct rest; [exact I | exact A]
    | unfold k, accept; now rewrite firstn_consumed ].
Qed.

(** Pattern 4 finds the first run of digits of the text, and captures
    it. *)
Lemma search_anywhere pre ds rest :
  Forall notDigit pre -> digitRun ds -> noDigitAhead rest ->
  search Pattern.anywhere (pre ++ ds ++ rest)
  = Some (MatchResult pre ds rest (Some ds)).
Proof.
  intros P D A. unfold search. rewrite searchFrom_skip.
  - erewrite searchFrom_here by (apply exec_anywhere; [exact D | exact A]). simpl.
    now rewrite firstn_consumed.
  - intros p1 p2 -> N.
    destruct (exec Pattern.anywhere (p2 ++ ds ++ rest) None accept)
      as [m|] eqn:E; [|reflexivity].
    exfalso. apply exec_sound in E. destruct E as (s' & c' & M & _).
    apply Match_Group_digits in M. destruct M as (ds' & [N' F'] & E & _).
    apply Forall_app in P. destruct P as [_ P].
    destruct p2 as [|y p2]; [congruence|].
    destruct ds' as [|d ds']; [congruence|].
    injection E as -> _.
    inversion P; subst. inversion F'; subst.
    unfold isDigit, notDigit in *. congruence.
Qed.

Lemma search_anywhere_none name :
  ~ hasDigit name -> search Pattern.anywhere name = None.
Proof.
  intros H. destruct (search Pattern.anywhere name) as [m|] eqn:E;
    [|reflexivity].
  exfalso. apply H. apply search_sound in E.
  destruct E as (pre & suf & -> & _ & _ & M).
  apply Match_Group_digits in M. destruct M as (ds & [N F] & -> & _).
  destruct ds as [|d ds]; [congruence|].
  exists d. split.
  - apply in_or_app. right. now left.
  - now inversion F.
Qed.

(** What a match of pattern 2 looks like. *)
Lemma search_separated_shape name m :
  search Pattern.separated name = Some m ->
  exists pre ds,
    name = pre ++ ds /\ noDigitBehind pre /\ digitRun ds
    /\ m_group1 m = Some ds.
Proof.
  intros E. apply search_sound in E.
  destruct E as (pre & suf & -> & _ & _ & M).
  unfold Pattern.separated in M. inversion M; subst.
  match goal with M1 : Match (Chr _) _ _ _ _ |- _ =>
    apply Match_Chr_inv in M1; destruct M1 as (-> & x & -> & S) end.
  match goal with M2 : Match (Seq _ _) _ _ _ _ |- _ =>
    apply Match_digits_Eoi in M2; destruct M2 as (D & _ & C) end.
  exists (pre ++ [x]), s1. split; [now rewrite <- app_assoc|].
  split; [|split; assumption].
  apply noDigitBehind_app; [discriminate|].
  constructor; [|constructor]. now apply separator_not_digit.
Qed.

(** What a match of pattern 3 looks like. *)
Lemma search_keyword_shape name m :
  search Pattern.keyword name = Some m ->
  exists pre ds,
    name = pre ++ ds /\ noDigitBehind pre /\ digitRun ds
    /\ m_group1 m = Some ds.
Proof.
  intros E. apply search_sound in E.
  destruct E as (pre & suf & -> & _ & _ & M).
  unfold Pattern.keyword in M.
  apply Match_Seq_inv in M. destruct M as (s1 & c1 & M1 & M).
  apply (Match_AnyWord keywords_letters) in M1.
  destruct M1 as (-> & w & Nw & -> & Fw).
  apply Match_Seq_inv in M. destruct M as (s2 & c2 & M2 & M).
  apply Match_Star_Chr in M2. destruct M2 as (-> & seps & -> & Fs).
  apply Match_digits_Eoi in M. destruct M as (D & _ & C).
  exists (pre ++ w ++ seps), s2.
  split; [now rewrite <- !app_assoc|].
  split; [|split; assumption].
  apply noDigitBehind_app.
  - destruct w; [congruence | discriminate].
  - apply Forall_app. split; [exact Fw|].
    eapply Forall_impl; [|exact Fs].
    intros y Y. now apply separator_not_digit.
Qed.

Lemma matchNumber_trailing pre ds :
  noDigitBehind pre -> digitRun ds ->
  matchNumber Pattern.trailing (pre ++ ds)
  = Some (toNumber (digitsValue ds)).
Proof.
  intros B D. unfold matchNumber. rewrite search_trailing by assumption. cbn [m_group1].
  now rewrite parseInt10_digits.
Qed.

Lemma matchNumber_none r name :
  search r name = None -> matchNumber r name = None.
Proof. unfold matchNumber. now intros ->. Qed.

(** Patterns 2 and 3 fail wherever pattern 1 fails. *)
Lemma search_separated_none name :
  noDigitBehind name -> search Pattern.separated name = None.
Proof.
  intros B. destruct (search Pattern.separated name) as [m|] eqn:E;
    [|reflexivity].
  apply search_separated_shape in E.
  destruct E as (pre & ds & -> & _ & D & _).
  destruct (digitRun_behind pre D B).
Qed.

Lemma search_keyword_none name :
  noDigitBehind name -> search Pattern.keyword name = None.
Proof.
  intros B. destruct (search Pattern.keyword name) as [m|] eqn:E;
    [|reflexivity].
  apply search_keyword_shape in E.
  destruct E as (pre & ds & -> & _ & D & _).
  destruct (digitRun_behind pre D B).
Qed.

Lemma hasDigit_of_behind name : ~ noDigitBehind name -> hasDigit name.
Proof.
  intros H. destruct (trailingDigitRun_split _ H) as (pre & E & _ & [N F]).
  destruct (trailingDigitRun name) as [|d ds]; [congruence|].
  exists d. split.
  - rewrite E. apply in_or_app. right. now left.
  - now inversion F.
Qed.

(** The key, by the shape of the name: the run of digits it ends with,
    else its first run of digits, else none. *)
Lemma extractSequenceNumber_ends filename :
  ~ noDigitBehind (nameWithoutExt filename) ->
  extractSequenceNumber filename
  = Some (toNumber
            (digitsValue (trailingDigitRun (nameWithoutExt filename)))).
Proof.
  intros H. unfold extractSequenceNumber.
  destruct (trailingDigitRun_split _ H) as (pre & E & B & D).
  rewrite E at 1. now rewrite matchNumber_trailing by assumption.
Qed.

Lemma extractSequenceNumber_inside filename :
  noDigitBehind (nameWithoutExt filename) ->
  hasDigit (nameWithoutExt filename) ->
  extractSequenceNumber filename
  = Some (toNumber
            (digitsValue (firstDigitRun (nameWithoutExt filename)))).
Proof.
  intros B H. unfold extractSequenceNumber.
  rewrite (matchNumber_none _ _ (search_trailing_none _ B)).
  rewrite (matchNumber_none _ _ (search_separated_none _ B)).
  rewrite (matchNumber_none _ _ (search_keyword_none _ B)).
  destruct (firstDigitRun_split H) as (pre & rest & E & P & D & A).
  unfold matchNumber. rewrite E at 1.
  rewrite search_anywhere by assumption. cbn [m_group1].
  now rewrite parseInt10_digits.
Qed.

Lemma hasDigit_dec name : {hasDigit name} + {~ hasDigit name}.
Proof.
  induction name as [|x name IH].
  - right. intros (y & [] & _).
  - destruct (digit_dec x) as [D|D].
    + left. exists x. split; [now left | exact D].
    + destruct IH as [H|H].
      * left. destruct H as (y & I1 & D1). exists y. split; [now right | exact D1].
      * right. intros (y & [<-|I1] & D1).
        -- unfold isDigit in D1. congruence.
        -- apply H. now exists y.
Qed.

Lemma extractSequenceNumber_nodigit filename :
  ~ hasDigit (nameWithoutExt filename) ->
  extractSequenceNumber filename = None.
Proof.
  intros H. unfold extractSequenceNumber.
  assert (B : noDigitBehind (nameWithoutExt filename)).
  { destruct (noDigitBehind_dec (nameWithoutExt filename)) as [B|B];
      [exact B|]. destruct (H (hasDigit_of_behind _ B)). }
  rewrite (matchNumber_none _ _ (search_trailing_none _ B)).
  rewrite (matchNumber_none _ _ (search_separated_none _ B)).
  rewrite (matchNumber_none _ _ (search_keyword_none _ B)).
  now rewrite (matchNumber_none _ _ (search_anywhere_none H)).
Qed.

Lemma digitsValue_nonneg ds :
  Forall isDigit ds -> (0 <= digitsValue ds)%Z.
Proof.
  unfold digitsValue.
  assert (G : forall acc, (0 <= acc)%Z -> Forall isDigit ds ->
              (0 <= fold_left
                      (fun acc d => (10 * acc + (Z.of_N d - 48))%Z) ds acc)%Z).
  { induction ds as [|d ds IH]; intros acc A F; cbn [fold_left];
      [exact A|].
    inversion F as [|? ? D F']; subst.
    apply IH; [|exact F']. unfold isDigit in D.
    apply digit_range in D. lia. }
  apply G. lia.
Qed.

(** A key is the double of a natural number: never [NaN], never
    negative. *)
Lemma extractSequenceNumber_key filename n :
  extractSequenceNumber filename = Some n -> keyValue n.
Proof.
  intros E.
  destruct (noDigitBehind_dec (nameWithoutExt filename)) as [B|B].
  - destruct (hasDigit_dec (nameWithoutExt filename)) as [H|H].
    + rewrite (extractSequenceNumber_inside _ B H) in E.
      injection E as <-. apply toNumber_keyValue, digitsValue_nonneg.
      destruct (firstDigitRun_split H) as (_ & _ & _ & _ & [_ F] & _).
      exact F.
    + rewrite (extractSequenceNumber_nodigit _ H) in E. discriminate.
  - rewrite (extractSequenceNumber_ends _ B) in E.
    injection E as <-. apply toNumber_keyValue, digitsValue_nonneg.
    destruct (trailingDigitRun_split _ B) as (_ & _ & _ & [_ F]).
    exact F.
Qed.
End PatternFacts.

(* ================================================================== *)
(** * The sort *)

Unset Implicit Arguments.

Section ArraySortFacts.
Variable A : Type.
Variable comparefn : A -> A -> number.

Lemma sortInsert_perm x l :
  Permutation (x :: l) (sortInsert comparefn x l).
Proof.
  induction l as [|y l IH]; simpl.
  - apply Permutation_refl.
  - destruct (number_pos (comparefn x y)).
    + eapply perm_trans; [apply perm_swap|].
      apply perm_skip. exact IH.
    + apply Permutation_refl.
Qed.

(** The sort rearranges the array and loses nothing. *)
Lemma arraySort_perm l : Permutation l (arraySort comparefn l).
Proof.
  induction l as [|x l IH]; simpl.
  - apply perm_nil.
  - eapply perm_trans; [|apply sortInsert_perm].
    apply perm_skip. exact IH.
Qed.

Lemma arraySort_In x l : In x (arraySort comparefn l) <-> In x l.
Proof.
  split; apply Permutation_in;
    [apply Permutation_sym|]; apply arraySort_perm.
Qed.

(** Entries that never compare greater than one another keep their
    relative order: the sort is stable. *)
Lemma sortInsert_filter (P : A -> bool) x l :
  (P x = true -> forall y, In y l -> P y = true ->
                 number_pos (comparefn x y) = false) ->
  filter P (sortInsert comparefn x l) = filter P (x :: l).
Proof.
  induction l as [|y l IH]; intros H; [reflexivity|].
  simpl. destruct (number_pos (comparefn x y)) eqn:C; [|reflexivity].
  simpl. rewrite IH.
  - simpl. destruct (P x) eqn:Px; [|reflexivity].
    destruct (P y) eqn:Py; [|reflexivity].
    rewrite (H eq_refl y (or_introl eq_refl) Py) in C. discriminate.
  - intros Px z Hz Pz. apply H; auto. now right.
Qed.

Lemma arraySort_filter (P : A -> bool) l :
  (forall x y, In x l -> In y l -> P x = true -> P y = true ->
               number_pos (comparefn x y) = false) ->
  filter P (arraySort comparefn l) = filter P l.
Proof.
  induction l as [|x l IH]; intros H; [reflexivity|].
  simpl arraySort. rewrite sortInsert_filter.
  - simpl. rewrite IH; [reflexivity|].
    intros a b Ha Hb Pa Pb. apply H; simpl; auto.
  - intros Px y Hy Py. apply -> arraySort_In in Hy.
    apply H; simpl; auto.
Qed.
End ArraySortFacts.

Section ArraySortExt.
Variable A : Type.
Variables cmp1 cmp2 : A -> A -> number.

Lemma sortInsert_ext x l :
  (forall y, In y l -> cmp1 x y = cmp2 x y) ->
  sortInsert cmp1 x l = sortInsert cmp2 x l.
Proof.
  induction l as [|y l IH]; intros H; [reflexivity|].
  simpl. rewrite (H y (or_introl eq_refl)).
  destruct (number_pos (cmp2 x y)); [|reflexivity].
  f_equal. apply IH. intros z Hz. apply H. now right.
Qed.

(** The sort only looks at the comparator on the entries of the array. *)
Lemma arraySort_ext l :
  (forall x y, In x l -> In y l -> cmp1 x y = cmp2 x y) ->
  arraySort cmp1 l = arraySort cmp2 l.
Proof.
  induction l as [|x l IH]; intros H; [reflexivity|].
  simpl. rewrite IH by (intros a b Ha Hb; apply H; now right).
  apply sortInsert_ext. intros y Hy. apply -> arraySort_In in Hy.
  apply H; [now left | now right].
Qed.
End ArraySortExt.

Section ArraySortUnique.
Variable A : Type.
Variable comparefn : A -> A -> number.

(** A consistent comparator: a total preorder. *)
Hypothesis consistent_trans :
  forall x y z,
    notGreater comparefn x y -> notGreater comparefn y z ->
    notGreater comparefn x z.
Hypothesis consistent_total :
  forall x y, notGreater comparefn x y \/ notGreater comparefn y x.

Lemma notGreater_refl x : notGreater comparefn x x.
Proof. destruct (consistent_total x x); assumption. Qed.

Lemma sameRank_refl x : sameRank comparefn x x = true.
Proof.
  unfold sameRank. pose proof (notGreater_refl x) as R.
  unfold notGreater in R. now rewrite R.
Qed.

Lemma sameRank_iff x y :
  sameRank comparefn x y = true
  <-> notGreater comparefn x y /\ notGreater comparefn y x.
Proof.
  unfold sameRank, notGreater.
  rewrite andb_true_iff, !negb_true_iff. tauto.
Qed.

Lemma sortInsert_sorted x l :
  StronglySorted (notGreater comparefn) l ->
  StronglySorted (notGreater comparefn) (sortInsert comparefn x l).
Proof.
  induction 1 as [|y l S IH H]; simpl.
  - repeat constructor.
  - destruct (number_pos (comparefn x y)) eqn:C.
    + constructor; [exact IH|].
      rewrite Forall_forall in H |- *. intros z Hz.
      apply (Permutation_in _ (Permutation_sym (sortInsert_perm _ comparefn x l)))
        in Hz.
      destruct Hz as [<-|Hz]; [|now apply H].
      destruct (consistent_total y x) as [L|L]; [exact L|].
      unfold notGreater in L. congruence.
    + constructor; [constructor; assumption|].
      constructor; [exact C|].
      rewrite Forall_forall in H |- *. intros z Hz.
      apply (consistent_trans x y z); [exact C | now apply H].
Qed.

(** The result is sorted. *)
Lemma arraySort_sorted l :
  StronglySorted (notGreater comparefn) (arraySort comparefn l).
Proof.
  induction l as [|x l IH]; simpl; [constructor|].
  apply sortInsert_sorted. exact IH.
Qed.

(** The result is stable: entries of one rank keep their order. *)
Lemma arraySort_stable z l :
  filter (sameRank comparefn z) (arraySort comparefn l)
  = filter (sameRank comparefn z) l.
Proof.
  apply arraySort_filter. intros x y _ _ Hx Hy.
  apply sameRank_iff in Hx, Hy.
  apply (consistent_trans x z y); tauto.
Qed.

(** Two sorted lists in which the entries of each rank come in the same
    order are the same list. *)
Lemma sorted_stable_unique l1 :
  forall l2,
    StronglySorted (notGreater comparefn) l1 ->
    StronglySorted (notGreater comparefn) l2 ->
    (forall z, filter (sameRank comparefn z) l1
               = filter (sameRank comparefn z) l2) ->
    l1 = l2.
Proof.
  induction l1 as [|x l1 IH]; intros l2 S1 S2 F.
  - destruct l2 as [|y l2]; [reflexivity|].
    specialize (F y). simpl in F. rewrite sameRank_refl in F. discriminate.
  - destruct l2 as [|y l2].
    + specialize (F x). simpl in F. rewrite sameRank_refl in F. discriminate.
    + inversion S1 as [|? ? S1' H1]; subst.
      inversion S2 as [|? ? S2' H2]; subst.
      rewrite Forall_forall in H1, H2.
      assert (Lxy : notGreater comparefn x y).
      { pose proof (F y) as Fy. simpl in Fy. rewrite sameRank_refl in Fy.
        assert (Hy : In y (filter (sameRank comparefn y) (x :: l1)))
          by (simpl; rewrite Fy; now left).
        apply filter_In in Hy. destruct Hy as [[<-|Hy] _].
        - apply notGreater_refl.
        - now apply H1. }
      assert (Lyx : notGreater comparefn y x).
      { pose proof (F x) as Fx. simpl in Fx. rewrite sameRank_refl in Fx.
        assert (Hx : In x (filter (sameRank comparefn x) (y :: l2)))
          by (simpl in *; rewrite <- Fx; now left).
        apply filter_In in Hx. destruct Hx as [[<-|Hx] _].
        - apply notGreater_refl.
        - now apply H2. }
      assert (E : x = y).
      { pose proof (F x) as Fx. simpl in Fx. rewrite sameRank_refl in Fx.
        assert (R : sameRank comparefn x y = true)
          by (apply sameRank_iff; split; assumption).
        rewrite R in Fx. now injection Fx. }
      subst y. f_equal. apply IH; auto.
      intros z. specialize (F z). simpl in F.
      destruct (sameRank comparefn z x); [now injection F | exact F].
Qed.

(** For a consistent comparator the result of the sort is determined: any
    sorted list that keeps the entries of each rank in the order of the
    input is the one [arraySort] returns. *)
Lemma arraySort_unique l l' :
  StronglySorted (notGreater comparefn) l' ->
  (forall z, filter (sameRank comparefn z) l'
             = filter (sameRank comparefn z) l) ->
  l' = arraySort comparefn l.
Proof.
  intros S F. apply sorted_stable_unique.
  - exact S.
  - apply arraySort_sorted.
  - intros z. rewrite F. symmetry. apply arraySort_stable.
Qed.
End ArraySortUnique.

Section DetectorFacts.
Variable localeCompare : collation.

Local Abbreviation compare := (compareFiles localeCompare).
Local Abbreviation sort := (sortTranscriptionFiles localeCompare).

Lemma keyedBy_value path n : keyedBy path n -> keyValue n.
Proof. apply extractSequenceNumber_key. Qed.

Lemma compare_keyed a b x y :
  keyedBy a x -> keyedBy b y -> compare a b = number_sub x y.
Proof.
  unfold keyedBy, sequenceKey, compareFiles. now intros -> ->.
Qed.

(** Between keyed files the comparator is positive exactly when the first
    key is the greater. *)
Lemma compare_keyed_pos a b x y :
  keyedBy a x -> keyedBy b y ->
  number_pos (compare a b) = negb (number_leb x y).
Proof.
  intros Ka Kb. rewrite (compare_keyed a b x y Ka Kb).
  apply key_sub_pos; eapply keyedBy_value; eassumption.
Qed.

Lemma compare_keyed_unkeyed a b x :
  keyedBy a x -> sequenceKey b = None -> compare a b = Num (-1).
Proof.
  unfold keyedBy, sequenceKey, compareFiles. now intros -> ->.
Qed.

Lemma compare_unkeyed_keyed a b y :
  sequenceKey a = None -> keyedBy b y -> compare a b = Num 1.
Proof.
  unfold keyedBy, sequenceKey, compareFiles. now intros -> ->.
Qed.

Lemma compare_unkeyed a b :
  sequenceKey a = None -> sequenceKey b = None ->
  compare a b = collate localeCompare a b.
Proof.
  unfold sequenceKey, compareFiles, collate. now intros -> ->.
Qed.

Lemma keyed_or_not path :
  (exists k, keyedBy path k) \/ sequenceKey path = None.
Proof.
  unfold keyedBy. destruct (sequenceKey path) as [n|] eqn:E; [|now right].
  left. now exists n.
Qed.

Lemma sortInsert_keyed_front a x front :
  keyedBy a x -> Forall keyed front -> StronglySorted keyLe front ->
  Forall keyed (sortInsert compare a front)
  /\ StronglySorted keyLe (sortInsert compare a front).
Proof.
  intros Ka. induction front as [|b front IH]; intros F S.
  - simpl. split; repeat constructor. now exists x.
  - inversion F as [|? ? [y Kb] F']; subst.
    inversion S as [|? ? S' Hb]; subst.
    simpl. rewrite (compare_keyed_pos _ _ _ _ Ka Kb).
    destruct (number_leb x y) eqn:C; simpl.
    + split; [constructor; [now exists x | exact F]|].
      constructor; [exact S|].
      constructor.
      * exists x, y. repeat split; auto.
      * rewrite Forall_forall in Hb |- *. intros c Hc.
        destruct (Hb c Hc) as (y' & z & Kb' & Kc & L).
        unfold keyedBy in *. assert (y' = y) by congruence. subst y'.
        exists x, z. repeat split; auto.
        eapply number_leb_trans; eassumption.
    + destruct (IH F' S') as [IF IS].
      split; [constructor; [now exists y | exact IF]|].
      constructor; [exact IS|].
      rewrite Forall_forall. intros c Hc.
      apply (Permutation_in _ (Permutation_sym (sortInsert_perm _ compare a front)))
        in Hc.
      destruct Hc as [<-|Hc].
      * exists y, x. repeat split; auto.
        apply number_leb_total; [| |exact C]; eapply keyedBy_value;
          eassumption.
      * rewrite Forall_forall in Hb. now apply Hb.
Qed.

Lemma sortInsert_keyed_app a x front back :
  keyedBy a x -> Forall keyed front -> Forall unkeyed back ->
  sortInsert compare a (front ++ back)
  = sortInsert compare a front ++ back.
Proof.
  intros Ka F U. induction F as [|b front [y Kb] F IH]; simpl.
  - destruct back as [|u back]; [reflexivity|].
    inversion U; subst. simpl.
    now rewrite (compare_keyed_unkeyed _ _ _ Ka) by assumption.
  - destruct (number_pos (compare a b)); [|reflexivity].
    now rewrite IH.
Qed.

Lemma sortInsert_unkeyed_app a front back :
  unkeyed a -> Forall keyed front ->
  sortInsert compare a (front ++ back)
  = front ++ sortInsert compare a back.
Proof.
  intros Ua F. induction F as [|b front [y Kb] F IH]; simpl.
  - reflexivity.
  - rewrite (compare_unkeyed_keyed _ _ _ Ua Kb). simpl. now rewrite IH.
Qed.

Lemma sortInsert_keyOrdered a l :
  keyOrdered l -> keyOrdered (sortInsert compare a l).
Proof.
  intros (front & back & -> & F & S & U).
  destruct (keyed_or_not a) as [[x Ka]|Ua].
  - rewrite (sortInsert_keyed_app _ _ _ _ Ka F U).
    destruct (sortInsert_keyed_front _ _ _ Ka F S) as [IF IS].
    exists (sortInsert compare a front), back. auto.
  - rewrite (sortInsert_unkeyed_app _ _ _ Ua F).
    exists front, (sortInsert compare a back). repeat split; auto.
    rewrite Forall_forall in U |- *. intros c Hc.
    apply (Permutation_in _ (Permutation_sym (sortInsert_perm _ compare a back)))
      in Hc.
    destruct Hc as [<-|Hc]; [exact Ua | now apply U].
Qed.

(** The sorted list: keyed files by ascending key, then the others. *)
Lemma sort_keyOrdered l : keyOrdered (sort l).
Proof.
  induction l as [|a l IH].
  - exists [], []. repeat split; constructor.
  - apply sortInsert_keyOrdered. exact IH.
Qed.

Lemma sort_perm l : Permutation l (sort l).
Proof. apply arraySort_perm. Qed.

(** Files with the same key stay in the order of the input. *)
Lemma sort_stable k l :
  filter (hasKey k) (sort l) = filter (hasKey k) l.
Proof.
  apply arraySort_filter. intros a b _ _ Ha Hb.
  unfold hasKey in *.
  destruct (sequenceKey a) as [x|] eqn:Ka; [|discriminate].
  destruct (sequenceKey b) as [y|] eqn:Kb; [|discriminate].
  apply number_eqb_eq in Ha, Hb. subst.
  rewrite (compare_keyed _ _ _ _ Ka Kb). apply number_sub_diag.
Qed.
End DetectorFacts.

Section OrderFacts.
Variable localeCompare : collation.

Local Abbreviation sort := (sortTranscriptionFiles localeCompare).

Lemma keyLe_keys a b x y :
  keyLe a b -> keyedBy a x -> keyedBy b y -> number_leb x y = true.
Proof.
  intros (x' & y' & Ka & Kb & L) Ka' Kb'. unfold keyedBy in *.
  assert (x' = x) by congruence. assert (y' = y) by congruence.
  subst. exact L.
Qed.

Lemma keyed_not_unkeyed a : keyed a -> unkeyed a -> False.
Proof.
  intros [k K] U. unfold keyedBy, unkeyed in *. congruence.
Qed.

(** When every file has a key, the sorted list is by ascending key. *)
Lemma sort_all_keyed l :
  Forall keyed l -> StronglySorted keyLe (sort l).
Proof.
  intros F. destruct (sort_keyOrdered localeCompare l)
    as (front & back & E & _ & S & U).
  destruct back as [|u back].
  - rewrite E, app_nil_r. exact S.
  - exfalso. inversion U as [|? ? Uu _]; subst.
    apply (keyed_not_unkeyed u); [|exact Uu].
    rewrite Forall_forall in F. apply F.
    apply (Permutation_in _ (Permutation_sym (sort_perm localeCompare l))).
    rewrite E. apply in_or_app. right. now left.
Qed.

(** Two lists by ascending key with the same entries are the same list,
    when different entries have different keys. *)
Lemma ascending_unique l1 :
  forall l2,
    Forall keyed l1 ->
    StronglySorted keyLe l1 -> StronglySorted keyLe l2 ->
    Permutation l1 l2 ->
    (forall a b, In a l1 -> In b l1 ->
                 sequenceKey a = sequenceKey b -> a = b) ->
    l1 = l2.
Proof.
  induction l1 as [|a l1 IH]; intros l2 F S1 S2 P Inj.
  - apply Permutation_nil in P. now subst.
  - destruct l2 as [|b l2].
    + apply Permutation_sym, Permutation_nil in P. discriminate.
    + inversion S1 as [|? ? S1' H1]; subst.
      inversion S2 as [|? ? S2' H2]; subst.
      inversion F as [|? ? [x Ka] F']; subst.
      assert (Hb : In b (a :: l1)).
      { apply (Permutation_in _ (Permutation_sym P)). now left. }
      assert (Ha : In a (b :: l2)).
      { apply (Permutation_in _ P). now left. }
      assert (E : a = b).
      { destruct Hb as [E|Hb]; [exact E|].
        destruct Ha as [E|Ha]; [now symmetry|].
        rewrite Forall_forall in H1, H2, F'.
        destruct (F' b Hb) as [y Kb].
        pose proof (keyLe_keys _ _ _ _ (H1 b Hb) Ka Kb).
        pose proof (keyLe_keys _ _ _ _ (H2 a Ha) Kb Ka).
        apply Inj; [now left | now right|].
        assert (E : x = y)
          by (apply number_leb_antisym; auto; eapply keyedBy_value;
              eassumption).
        unfold keyedBy in *. rewrite Ka, Kb. now rewrite E. }
      subst b. f_equal.
      apply IH; auto.
      * eapply Permutation_cons_inv; exact P.
      * intros c d Hc Hd. apply Inj; now right.
Qed.

Lemma StronglySorted_nth_error (R : jsstring -> jsstring -> Prop) l :
  StronglySorted R l ->
  forall i j x y,
    (i < j)%nat -> nth_error l i = Some x -> nth_error l j = Some y ->
    R x y.
Proof.
  induction 1 as [|a l S IH H]; intros i j x y L Hi Hj.
  - destruct i; discriminate.
  - destruct j as [|j]; [lia|]. simpl in Hj.
    destruct i as [|i].
    + simpl in Hi. injection Hi as <-.
      rewrite Forall_forall in H. apply H.
      eapply nth_error_In; exact Hj.
    + simpl in Hi. apply (IH i j); auto. lia.
Qed.

(** In the sorted list a file with a greater key stands after a file with
    a smaller key. *)
Lemma sort_numeric_order l a b x y i j :
  keyedBy a x -> keyedBy b y -> number_leb x y = false ->
  nth_error (sort l) i = Some a -> nth_error (sort l) j = Some b ->
  (j < i)%nat.
Proof.
  intros Ka Kb L Hi Hj.
  destruct (sort_keyOrdered localeCompare l)
    as (front & back & E & F & S & U).
  rewrite E in Hi, Hj.
  assert (In_front : forall c k n,
    keyedBy c k -> nth_error (front ++ back) n = Some c ->
    nth_error front n = Some c).
  { intros c k n Kc Hn.
    destruct (Nat.lt_ge_cases n (List.length front)) as [Lt|Ge].
    - now rewrite nth_error_app1 in Hn.
    - rewrite nth_error_app2 in Hn by exact Ge.
      apply nth_error_In in Hn. rewrite Forall_forall in U.
      destruct (keyed_not_unkeyed c); [now exists k | now apply U]. }
  apply (In_front a x) in Hi; [|exact Ka].
  apply (In_front b y) in Hj; [|exact Kb].
  destruct (Nat.lt_trichotomy i j) as [Lt|[Eq|Gt]]; [| |exact Gt].
  - pose proof (StronglySorted_nth_error keyLe front S i j a b Lt Hi Hj)
      as Le.
    pose proof (keyLe_keys _ _ _ _ Le Ka Kb). congruence.
  - subst j. rewrite Hi in Hj. injection Hj as ->.
    pose proof (keyedBy_value _ _ Kb) as V.
    unfold keyedBy in *. rewrite Ka in Kb. injection Kb as ->.
    destruct y; simpl in L, V; try discriminate; try contradiction.
    apply Z.leb_gt in L. lia.
Qed.

(** With only files without a digit in their name, the sort is the sort
    by collation of the file names. *)
Lemma sort_unkeyed l :
  Forall unkeyed l ->
  sort l = arraySort (collate localeCompare) l.
Proof.
  intros U. apply arraySort_ext. intros a b Ha Hb.
  rewrite Forall_forall in U.
  apply compare_unkeyed; now apply U.
Qed.
End OrderFacts.

(* ================================================================== *)
(** * Moving an entry *)

Section MoveFacts.
Variable A : Type.
Variable undefined : A.

Open Scope Z_scope.

(** Splicing in range: the entries after [pre] that [mid] holds are
    replaced by [items]. *)
Lemma splice_at (pre mid post items : list A) :
  splice (pre ++ mid ++ post) (Z.of_nat (List.length pre))
    (Z.of_nat (List.length mid)) items
  = pre ++ items ++ post.
Proof.
  unfold splice.
  rewrite !length_app, !Nat2Z.inj_add.
  assert (S0 : (Z.of_nat (List.length pre) <? 0) = false)
    by (apply Z.ltb_ge; lia).
  rewrite S0.
  rewrite Z.min_l by lia.
  rewrite Z.max_l by lia.
  rewrite Z.min_l by lia.
  rewrite <- Nat2Z.inj_add, !Nat2Z.id.
  rewrite firstn_app, Nat.sub_diag, firstn_all. simpl firstn.
  rewrite app_nil_r.
  do 2 f_equal.
  rewrite <- length_app, (app_assoc pre mid post).
  rewrite skipn_app, Nat.sub_diag, skipn_all. reflexivity.
Qed.

Lemma arrayGet_at (pre post : list A) (x : A) :
  arrayGet undefined (pre ++ x :: post) (Z.of_nat (List.length pre)) = x.
Proof.
  unfold arrayGet.
  assert (S0 : (Z.of_nat (List.length pre) <? 0) = false)
    by (apply Z.ltb_ge; lia).
  rewrite S0, Nat2Z.id. now rewrite nth_middle.
Qed.

(** [moveFileUp] on an entry that has a predecessor swaps the two. *)
Lemma moveFileUp_swap (pre post : list A) (p x : A) :
  moveFileUp undefined (Z.of_nat (List.length pre) + 1)
    (pre ++ p :: x :: post)
  = pre ++ x :: p :: post.
Proof.
  unfold moveFileUp.
  assert (P : (0 <? Z.of_nat (List.length pre) + 1) = true)
    by (apply Z.ltb_lt; lia).
  rewrite P.
  assert (E : pre ++ p :: x :: post = (pre ++ [p]) ++ [x] ++ post)
    by (rewrite <- app_assoc; reflexivity).
  assert (I : Z.of_nat (List.length pre) + 1
              = Z.of_nat (List.length (pre ++ [p])))
    by (rewrite length_app; simpl; lia).
  assert (G : arrayGet undefined (pre ++ p :: x :: post)
                (Z.of_nat (List.length pre) + 1) = x)
    by (rewrite E, I; apply arrayGet_at).
  assert (S1 : splice (pre ++ p :: x :: post)
                 (Z.of_nat (List.length pre) + 1) 1 []
               = pre ++ p :: post).
  { rewrite E, I.
    etransitivity; [exact (splice_at (pre ++ [p]) [x] post [])|].
    rewrite <- app_assoc. reflexivity. }
  rewrite G, S1.
  replace (Z.of_nat (List.length pre) + 1 - 1)
    with (Z.of_nat (List.length pre)) by lia.
  exact (splice_at pre [] (p :: post) [x]).
Qed.

(** [moveFileDown] on an entry that has a successor swaps the two. *)
Lemma moveFileDown_swap (pre post : list A) (x n : A) :
  moveFileDown undefined (Z.of_nat (List.length pre))
    (pre ++ x :: n :: post)
  = pre ++ n :: x :: post.
Proof.
  unfold moveFileDown.
  assert (P : (Z.of_nat (List.length pre)
               <? Z.of_nat (List.length (pre ++ x :: n :: post)) - 1)
              = true)
    by (apply Z.ltb_lt; rewrite length_app; simpl; lia).
  rewrite P, arrayGet_at.
  assert (S1 : splice (pre ++ x :: n :: post)
                 (Z.of_nat (List.length pre)) 1 []
               = (pre ++ [n]) ++ [] ++ post).
  { etransitivity; [exact (splice_at pre [x] (n :: post) [])|].
    rewrite <- app_assoc. reflexivity. }
  rewrite S1.
  replace (Z.of_nat (List.length pre) + 1)
    with (Z.of_nat (List.length (pre ++ [n])))
    by (rewrite length_app; simpl; lia).
  etransitivity; [exact (splice_at (pre ++ [n]) [] post [x])|].
  rewrite <- app_assoc. reflexivity.
Qed.

Lemma moveFileUp_first (files : list A) :
  moveFileUp undefined 0 files = files.
Proof. reflexivity. Qed.

Lemma moveFileDown_last (files : list A) :
  moveFileDown undefined (Z.of_nat (List.length files) - 1) files = files.
Proof.
  unfold moveFileDown. now rewrite Z.ltb_irrefl.
Qed.

(** An index in range splits the list around its entry. *)
Lemma split_at_index (files : list A) (index : Z) :
  0 <= index < Z.of_nat (List.length files) ->
  exists pre x post,
    files = pre ++ x :: post /\ Z.of_nat (List.length pre) = index.
Proof.
  intros R.
  destruct (nth_split files undefined (n:=Z.to_nat index)) as (l1 & l2 & E & L);
    [lia|].
  exists l1, (nth (Z.to_nat index) files undefined), l2.
  split; [exact E | lia].
Qed.
End MoveFacts.

(* ================================================================== *)
(** * The offsets of the merge engine *)

Section OffsetFacts.
Import MergeEngine.
Open Scope Z_scope.

Lemma sum_app (l1 l2 : list Z) :
  fold_right Z.add 0 (l1 ++ l2)
  = fold_right Z.add 0 l1 + fold_right Z.add 0 l2.
Proof.
  induction l1 as [|x l1 IH]; simpl; [reflexivity|]. rewrite IH. lia.
Qed.

Lemma firstn_succ (l : list Z) :
  forall i, (i < List.length l)%nat ->
  firstn (S i) l = firstn i l ++ [nth i l 0].
Proof.
  induction l as [|x l IH]; intros i L; simpl in L; [lia|].
  destruct i as [|i]; [reflexivity|].
  simpl. f_equal. apply IH. lia.
Qed.

Lemma computedOffset_first (durations : list Z) :
  computedOffset durations 0 = 0.
Proof. reflexivity. Qed.

(** The computed offsets are a running sum. *)
Lemma computedOffset_next (durations : list Z) (i : nat) :
  (i < List.length durations)%nat ->
  computedOffset durations (S i)
  = computedOffset durations i + nth i durations 0.
Proof.
  intros L. unfold computedOffset.
  rewrite firstn_succ by exact L. rewrite sum_app. simpl. lia.
Qed.

Lemma fileOffset_computed (durations : list Z)
    (overrides : list (option Z)) (i : nat) :
  nth i overrides None = None ->
  fileOffset durations overrides i = computedOffset durations i.
Proof. unfold fileOffset. now intros ->. Qed.

Lemma fileOffset_manual (durations : list Z)
    (overrides : list (option Z)) (i : nat) (manual : Z) :
  nth i overrides None = Some manual ->
  fileOffset durations overrides i = manual.
Proof. unfold fileOffset. now intros ->. Qed.
End OffsetFacts.

(* ================================================================== *)
(** * Key extraction *)

(** C8: a filename whose name without the extension holds a digit always
    gets a number for a key, never [null]: the value of a run of digits of
    the name; and when that name does not end with a digit, the key is the
    value of the first run of digits found anywhere in it. *)
Theorem C8_digit_names_have_keys (filename : jsstring) :
  hasDigit (nameWithoutExt filename) ->
  (exists n, extractSequenceNumber filename = Some n
             /\ keyValue n
             /\ exists pre ds rest,
                  nameWithoutExt filename = pre ++ ds ++ rest
                  /\ digitRun ds /\ n = toNumber (digitsValue ds))
  /\ (noDigitBehind (nameWithoutExt filename) ->
      extractSequenceNumber filename
      = Some (toNumber
                (digitsValue (firstDigitRun (nameWithoutExt filename))))).
Proof.
  intros H. split.
  - destruct (noDigitBehind_dec (nameWithoutExt filename)) as [B|B].
    + exists (toNumber
                (digitsValue (firstDigitRun (nameWithoutExt filename)))).
      split; [now apply extractSequenceNumber_inside|].
      destruct (firstDigitRun_split H) as (pre & rest & E & _ & D & _).
      split.
      * apply toNumber_keyValue, digitsValue_nonneg. apply D.
      * exists pre, (firstDigitRun (nameWithoutExt filename)), rest. auto.
    + exists (toNumber
                (digitsValue (trailingDigitRun (nameWithoutExt filename)))).
      split; [now apply extractSequenceNumber_ends|].
      destruct (trailingDigitRun_split _ B) as (pre & E & _ & D).
      split.
      * apply toNumber_keyValue, digitsValue_nonneg. apply D.
      * exists pre, (trailingDigitRun (nameWithoutExt filename)), [].
        rewrite app_nil_r. auto.
  - intros B. now apply extractSequenceNumber_inside.
Qed.

(** [2023_recording.txt] is keyed by 2023. *)
Lemma C8_recording_2023 :
  hasDigit (nameWithoutExt (js "2023_recording.txt"))
  /\ noDigitBehind (nameWithoutExt (js "2023_recording.txt"))
  /\ extractSequenceNumber (js "2023_recording.txt") = Some (Num 2023).
Proof.
  assert (H : hasDigit (nameWithoutExt (js "2023_recording.txt"))).
  { exists 50%N. split; [vm_compute; auto | reflexivity]. }
  assert (B : noDigitBehind (nameWithoutExt (js "2023_recording.txt")))
    by reflexivity.
  split; [exact H|]. split; [exact B|].
  exact (proj2 (C8_digit_names_have_keys (js "2023_recording.txt") H) B).
Defined.

(** C9: [extractSequenceNumber] is the function that tries pattern 1 and
    pattern 4 only; whatever pattern 2 or pattern 3 matches, pattern 1
    matches too, with the same capture. *)
Theorem C9_patterns_2_and_3_redundant :
  (forall filename,
     extractSequenceNumber filename = extractSequenceNumberShort filename)
  /\ (forall name m,
        search Pattern.separated name = Some m ->
        exists m1, search Pattern.trailing name = Some m1
                   /\ m_group1 m1 = m_group1 m)
  /\ (forall name m,
        search Pattern.keyword name = Some m ->
        exists m1, search Pattern.trailing name = Some m1
                   /\ m_group1 m1 = m_group1 m).
Proof.
  split; [|split].
  - intros filename.
    unfold extractSequenceNumber, extractSequenceNumberShort.
    destruct (noDigitBehind_dec (nameWithoutExt filename)) as [B|B].
    + rewrite (matchNumber_none _ _ (search_trailing_none _ B)).
      rewrite (matchNumber_none _ _ (search_separated_none _ B)).
      rewrite (matchNumber_none _ _ (search_keyword_none _ B)).
      reflexivity.
    + destruct (trailingDigitRun_split _ B) as (pre & E & Bp & D).
      rewrite E. now rewrite matchNumber_trailing by assumption.
  - intros name m E. apply search_separated_shape in E.
    destruct E as (pre & ds & -> & B & D & C).
    exists (MatchResult pre ds [] (Some ds)).
    split; [now apply search_trailing | now rewrite C].
  - intros name m E. apply search_keyword_shape in E.
    destruct E as (pre & ds & -> & B & D & C).
    exists (MatchResult pre ds [] (Some ds)).
    split; [now apply search_trailing | now rewrite C].
Qed.

(** On [chapter-07] pattern 3 and pattern 1 capture the same digits. *)
Lemma C9_chapter_07 :
  search Pattern.keyword (js "chapter-07")
  = Some (MatchResult [] (js "chapter-07") [] (Some (js "07")))
  /\ exists m1, search Pattern.trailing (js "chapter-07") = Some m1
                /\ m_group1 m1 = Some (js "07").
Proof.
  split; [reflexivity|].
  exact (proj2 (proj2 C9_patterns_2_and_3_redundant) (js "chapter-07")
           (MatchResult [] (js "chapter-07") [] (Some (js "07"))) eq_refl).
Defined.

(* ================================================================== *)
(** * Sequence detection *)

Lemma matches_matchNumber (r : regex) (name : jsstring) :
  matchNumber r name = None -> matches r name = false.
Proof.
  unfold matchNumber, matches. destruct (search r name); [discriminate|].
  reflexivity.
Qed.

(** A file whose name matches one of the patterns has a key. *)
Lemma keyed_of_matching (path : jsstring) :
  matchingPatterns (fileName path) <> [] -> keyed path.
Proof.
  intros M. destruct (keyed_or_not path) as [K|U]; [exact K|].
  exfalso. apply M. unfold sequenceKey, extractSequenceNumber in U.
  unfold matchingPatterns, patterns. simpl.
  destruct (matchNumber Pattern.trailing _) eqn:E1; [discriminate|].
  destruct (matchNumber Pattern.separated _) eqn:E2; [discriminate|].
  destruct (matchNumber Pattern.keyword _) eqn:E3; [discriminate|].
  destruct (matchNumber Pattern.anywhere _) eqn:E4; [discriminate|].
  rewrite (matches_matchNumber _ _ E1), (matches_matchNumber _ _ E2),
    (matches_matchNumber _ _ E3), (matches_matchNumber _ _ E4).
  reflexivity.
Qed.

(** The claim C1 as stated fails: [a_1.txt] and [b_1.txt] both resolve to
    key 1, and the call returns the list. *)
Lemma C1_tie_does_not_abort :
  tie [js "a_1.txt"; js "b_1.txt"]
  /\ (forall localeCompare,
        callSortTranscriptionFiles localeCompare [js "a_1.txt"; js "b_1.txt"]
        = Returns [js "a_1.txt"; js "b_1.txt"])
  /\ (forall localeCompare,
        ~ tieAborts localeCompare [js "a_1.txt"; js "b_1.txt"]).
Proof.
  assert (T : tie [js "a_1.txt"; js "b_1.txt"]).
  { exists (js "a_1.txt"), (js "b_1.txt"), (Num 1).
    repeat split; simpl; auto. discriminate. }
  split; [exact T|]. split; [reflexivity|].
  intros localeCompare H. destruct (H T) as [error E]. discriminate E.
Qed.

(** C1, amended: sequence detection never aborts.  For every list of
    paths, ties included, the call returns; what it returns is a
    rearrangement of the input, in which the files that resolve to one key
    keep the order they had in the input. *)
Theorem C1_detection_never_aborts (localeCompare : collation)
    (files : list jsstring) :
  exists order,
    callSortTranscriptionFiles localeCompare files = Returns order
    /\ Permutation files order
    /\ forall k, filter (hasKey k) order = filter (hasKey k) files.
Proof.
  exists (sortTranscriptionFiles localeCompare files).
  split; [reflexivity|]. split; [apply sort_perm|].
  intros k. apply sort_stable.
Qed.

(** The claim C2 as stated fails: of [3a_1.txt] and [2b.txt] pattern 1
    matches the first only, and pattern 4 is the first pattern to match
    both; the code orders by the keys 1 and 2, the first full rule by the
    keys 3 and 2. *)
Lemma C2_partial_rule_decides :
  matchesAll Pattern.trailing [js "3a_1.txt"; js "2b.txt"] = false
  /\ sequenceKey (js "3a_1.txt")
     = matchNumber Pattern.trailing (nameWithoutExt (js "3a_1.txt"))
  /\ sequenceKey (js "3a_1.txt") = Some (Num 1)
  /\ option_map fst (firstFullRule [js "3a_1.txt"; js "2b.txt"])
     = Some 3%nat
  /\ (forall localeCompare,
        sortTranscriptionFiles localeCompare [js "3a_1.txt"; js "2b.txt"]
        = [js "3a_1.txt"; js "2b.txt"]
        /\ orderByFirstFullRule localeCompare [js "3a_1.txt"; js "2b.txt"]
           = [js "2b.txt"; js "3a_1.txt"])
  /\ (forall localeCompare,
        ~ firstFullRuleDecides localeCompare [js "3a_1.txt"; js "2b.txt"]).
Proof.
  split; [reflexivity|]. split; [reflexivity|].
  split; [reflexivity|]. split; [reflexivity|].
  split; [intros localeCompare; split; reflexivity|].
  intros localeCompare H. unfold firstFullRuleDecides in H.
  vm_compute in H. discriminate H.
Qed.

(** C2, amended: the patterns are tried in strict priority order file by
    file.  The key of a file is the number captured by the first pattern
    that matches its own name, whatever the other names are; the detector
    returns the files in a rearrangement with the keyed files first, by
    ascending key, and the files without a key after them. *)
Theorem C2_first_matching_pattern_per_file (localeCompare : collation)
    (files : list jsstring) :
  (forall path,
     sequenceKey path
     = firstMatching patterns (nameWithoutExt (fileName path)))
  /\ Permutation files (sortTranscriptionFiles localeCompare files)
  /\ keyOrdered (sortTranscriptionFiles localeCompare files).
Proof.
  split; [|split].
  - intros path. unfold sequenceKey, extractSequenceNumber. simpl.
    repeat match goal with
      | |- context [match matchNumber ?r ?n with _ => _ end] =>
          destruct (matchNumber r n)
      end; reflexivity.
  - apply sort_perm.
  - apply sort_keyOrdered.
Qed.

(** The claim C3 as stated fails: [1a.txt] and [1b.txt] match pattern 4
    and no other, and come out in the order they came in. *)
Lemma C3_order_follows_discovery :
  oneRuleOnly [js "1a.txt"; js "1b.txt"]
  /\ Permutation [js "1a.txt"; js "1b.txt"] [js "1b.txt"; js "1a.txt"]
  /\ (forall localeCompare,
        sortTranscriptionFiles localeCompare [js "1a.txt"; js "1b.txt"]
        = [js "1a.txt"; js "1b.txt"]
        /\ sortTranscriptionFiles localeCompare [js "1b.txt"; js "1a.txt"]
           = [js "1b.txt"; js "1a.txt"])
  /\ (forall localeCompare,
        ~ discoveryOrderIrrelevant localeCompare [js "1a.txt"; js "1b.txt"]).
Proof.
  assert (O : oneRuleOnly [js "1a.txt"; js "1b.txt"]).
  { exists 3%nat. repeat constructor. }
  split; [exact O|]. split; [apply perm_swap|].
  split; [intros localeCompare; split; reflexivity|].
  intros localeCompare H.
  specialize (H O [js "1b.txt"; js "1a.txt"] (perm_swap _ _ _)).
  vm_compute in H. discriminate H.
Qed.

(** C3, amended: for every list of filenames that each match a pattern and
    of which no two different ones resolve to the same key, the detector
    returns the same order for every permutation of the list. *)
Theorem C3_permutation_invariance (localeCompare : collation)
    (files files' : list jsstring) :
  Forall (fun f => matchingPatterns (fileName f) <> []) files ->
  (forall a b, In a files -> In b files ->
               sequenceKey a = sequenceKey b -> a = b) ->
  Permutation files files' ->
  sortTranscriptionFiles localeCompare files
  = sortTranscriptionFiles localeCompare files'.
Proof.
  intros M Inj P.
  assert (K : Forall keyed files).
  { eapply Forall_impl; [|exact M]. intros f. apply keyed_of_matching. }
  assert (K' : Forall keyed files').
  { rewrite Forall_forall in K |- *. intros f Hf. apply K.
    apply (Permutation_in _ (Permutation_sym P)). exact Hf. }
  apply ascending_unique.
  - rewrite Forall_forall in K |- *. intros f Hf. apply K.
    apply (Permutation_in _ (Permutation_sym (sort_perm localeCompare files))).
    exact Hf.
  - apply sort_all_keyed. exact K.
  - apply sort_all_keyed. exact K'.
  - eapply perm_trans; [apply Permutation_sym, sort_perm|].
    eapply perm_trans; [exact P | apply sort_perm].
  - intros a b Ha Hb.
    apply Inj;
      apply (Permutation_in _ (Permutation_sym (sort_perm localeCompare files)));
      assumption.
Qed.

(** [a_2.txt], [a_1.txt] and the list the other way round sort alike. *)
Lemma C3_two_parts :
  Forall (fun f => matchingPatterns (fileName f) <> [])
    [js "a_2.txt"; js "a_1.txt"]
  /\ sequenceKey (js "a_2.txt") = Some (Num 2)
  /\ sequenceKey (js "a_1.txt") = Some (Num 1)
  /\ Permutation [js "a_2.txt"; js "a_1.txt"] [js "a_1.txt"; js "a_2.txt"]
  /\ forall localeCompare,
       sortTranscriptionFiles localeCompare [js "a_2.txt"; js "a_1.txt"]
       = sortTranscriptionFiles localeCompare [js "a_1.txt"; js "a_2.txt"].
Proof.
  assert (M : Forall (fun f => matchingPatterns (fileName f) <> [])
                [js "a_2.txt"; js "a_1.txt"])
    by (repeat constructor; discriminate).
  split; [exact M|]. split; [reflexivity|]. split; [reflexivity|].
  split; [apply perm_swap|]. intros localeCompare.
  apply (C3_permutation_invariance localeCompare
           [js "a_2.txt"; js "a_1.txt"] [js "a_1.txt"; js "a_2.txt"] M).
  - intros a b [<-|[<-|[]]] [<-|[<-|[]]] E;
      try reflexivity; vm_compute in E; discriminate E.
  - apply perm_swap.
Defined.

Lemma unkeyed_of_nodigit (path : jsstring) :
  ~ hasDigit (nameWithoutExt (fileName path)) -> unkeyed path.
Proof.
  intros H. unfold unkeyed, sequenceKey.
  now apply extractSequenceNumber_nodigit.
Qed.

(** The claim C4 as stated fails in its warning: receiving [x.txt] and
    [y.txt] puts no message in front of the user, and the call that orders
    them returns the list of paths and nothing else. *)
Lemma C4_no_warning_reported :
  Forall unkeyed [js "x.txt"; js "y.txt"]
  /\ (forall localeCompare,
        messages
          (handleTranscriptionFiles localeCompare [js "x.txt"; js "y.txt"]
             initialApp)
        = [])
  /\ (forall localeCompare,
        ~ lowConfidenceReported localeCompare [js "x.txt"; js "y.txt"]).
Proof.
  split; [repeat constructor|]. split; [reflexivity|].
  intros localeCompare [warning H]. exact H.
Qed.

(** C4, amended: for every input whose names hold no digit before the
    extension, sequence detection does not fail: the call returns the paths
    sorted by the host's collation of the file names for the locale [ru]
    with numeric collation, and no message is reported; when the input is
    not empty the sorted list is stored and the merge button is enabled. *)
Theorem C4_fallback_is_collation (localeCompare : collation)
    (files : list jsstring) (app : App) :
  Forall (fun f => ~ hasDigit (nameWithoutExt (fileName f))) files ->
  callSortTranscriptionFiles localeCompare files
  = Returns (arraySort (collate localeCompare) files)
  /\ messages (handleTranscriptionFiles localeCompare files app)
     = messages app
  /\ (files <> [] ->
      transcriptionFiles (handleTranscriptionFiles localeCompare files app)
      = arraySort (collate localeCompare) files
      /\ mergeBtnDisabled (handleTranscriptionFiles localeCompare files app)
         = false).
Proof.
  intros D.
  assert (U : Forall unkeyed files).
  { eapply Forall_impl; [|exact D]. intros f. apply unkeyed_of_nodigit. }
  assert (E : sortTranscriptionFiles localeCompare files
              = arraySort (collate localeCompare) files)
    by (apply sort_unkeyed; exact U).
  unfold callSortTranscriptionFiles, handleTranscriptionFiles.
  rewrite E. split; [reflexivity|].
  destruct files as [|f files].
  - split; [reflexivity|]. intros N. congruence.
  - split; [reflexivity|]. intros _. split; reflexivity.
Qed.

(** [x.txt] and [y.txt] are ordered by collation. *)
Lemma C4_x_and_y :
  Forall (fun f => ~ hasDigit (nameWithoutExt (fileName f)))
    [js "x.txt"; js "y.txt"]
  /\ forall localeCompare,
       callSortTranscriptionFiles localeCompare [js "x.txt"; js "y.txt"]
       = Returns (arraySort (collate localeCompare) [js "x.txt"; js "y.txt"])
       /\ messages
            (handleTranscriptionFiles localeCompare
               [js "x.txt"; js "y.txt"] initialApp) = []
       /\ mergeBtnDisabled
            (handleTranscriptionFiles localeCompare
               [js "x.txt"; js "y.txt"] initialApp) = false.
Proof.
  assert (D : Forall (fun f => ~ hasDigit (nameWithoutExt (fileName f)))
                [js "x.txt"; js "y.txt"])
    by (repeat constructor; no_digit).
  split; [exact D|]. intros localeCompare.
  destruct (C4_fallback_is_collation localeCompare
              [js "x.txt"; js "y.txt"] initialApp D) as (R & M & B).
  split; [exact R|]. split; [exact M|].
  exact (proj2 (B ltac:(discriminate))).
Defined.

(** C5: keys are compared as numbers.  Whenever the list holds a file
    keyed 10 and a file keyed 2, both are in the sorted list and the file
    keyed 10 stands after the file keyed 2. *)
Theorem C5_numeric_comparison (localeCompare : collation)
    (files : list jsstring) (a b : jsstring) :
  In a files -> In b files -> keyedBy a (Num 10) -> keyedBy b (Num 2) ->
  In a (sortTranscriptionFiles localeCompare files)
  /\ In b (sortTranscriptionFiles localeCompare files)
  /\ forall i j,
       nth_error (sortTranscriptionFiles localeCompare files) i = Some a ->
       nth_error (sortTranscriptionFiles localeCompare files) j = Some b ->
       (j < i)%nat.
Proof.
  intros Ha Hb Ka Kb.
  split; [|split].
  - apply (Permutation_in _ (sort_perm localeCompare files)). exact Ha.
  - apply (Permutation_in _ (sort_perm localeCompare files)). exact Hb.
  - intros i j Hi Hj.
    apply (sort_numeric_order localeCompare files a b (Num 10) (Num 2) i j);
      auto.
Qed.

(** [10.txt] comes after [2.txt]. *)
Lemma C5_ten_after_two :
  keyedBy (js "10.txt") (Num 10) /\ keyedBy (js "2.txt") (Num 2)
  /\ forall localeCompare,
       sortTranscriptionFiles localeCompare [js "10.txt"; js "2.txt"]
       = [js "2.txt"; js "10.txt"]
       /\ forall i j,
            nth_error
              (sortTranscriptionFiles localeCompare [js "10.txt"; js "2.txt"])
              i = Some (js "10.txt") ->
            nth_error
              (sortTranscriptionFiles localeCompare [js "10.txt"; js "2.txt"])
              j = Some (js "2.txt") ->
            (j < i)%nat.
Proof.
  split; [reflexivity|]. split; [reflexivity|].
  intros localeCompare. split; [reflexivity|].
  exact (proj2 (proj2
           (C5_numeric_comparison localeCompare
              [js "10.txt"; js "2.txt"] (js "10.txt") (js "2.txt")
              (or_introl eq_refl) (or_intror (or_introl eq_refl))
              eq_refl eq_refl))).
Defined.

(* ================================================================== *)
(** * Moving an entry: the claim *)

(** Outside the claim: an index that addresses no entry.  [moveFileUp]
    with index 2 on a list of two entries reads [undefined] there and
    inserts it; the rows of the list never call it so. *)
Lemma moveFileUp_past_the_end :
  moveFileUp None 2 [Some (js "a.txt"); Some (js "b.txt")]
  = [Some (js "a.txt"); None; Some (js "b.txt")]
  /\ ~ movesKeepEntries None 2 [Some (js "a.txt"); Some (js "b.txt")].
Proof.
  split; [reflexivity|].
  intros (L & _). vm_compute in L. discriminate L.
Qed.

(** C10: for every list and every index that chooses an entry of the list
    (0 <= index < length), each move keeps the length and the entries of
    the list; [moveFileUp] swaps the chosen entry with the one before it
    and leaves the list as it is at index 0; [moveFileDown] swaps the chosen
    entry with the one after it and leaves the list as it is at the last
    index. *)
Theorem C10_moves_swap_neighbours (A : Type) (undefined : A)
    (files : list A) (index : Z) :
  (0 <= index < Z.of_nat (List.length files))%Z ->
  movesKeepEntries undefined index files
  /\ (index = 0%Z -> moveFileUp undefined index files = files)
  /\ ((0 < index)%Z ->
      exists pre p x post,
        files = pre ++ p :: x :: post
        /\ (Z.of_nat (List.length pre) + 1)%Z = index
        /\ moveFileUp undefined index files = pre ++ x :: p :: post)
  /\ (index = (Z.of_nat (List.length files) - 1)%Z ->
      moveFileDown undefined index files = files)
  /\ ((index < Z.of_nat (List.length files) - 1)%Z ->
      exists pre x n post,
        files = pre ++ x :: n :: post
        /\ Z.of_nat (List.length pre) = index
        /\ moveFileDown undefined index files = pre ++ n :: x :: post).
Proof.
  intros R.
  assert (Up : (0 < index)%Z ->
      exists pre p x post,
        files = pre ++ p :: x :: post
        /\ (Z.of_nat (List.length pre) + 1)%Z = index
        /\ moveFileUp undefined index files = pre ++ x :: p :: post).
  { intros P.
    destruct (split_at_index A undefined files index R)
      as (pre & x & post & E & L).
    destruct (exists_last (l:=pre)) as (pre' & p & Ep).
    { intros ->. simpl in L. lia. }
    subst pre. rewrite length_app in L. simpl in L.
    exists pre', p, x, post.
    assert (E' : files = pre' ++ p :: x :: post)
      by (rewrite E, <- app_assoc; reflexivity).
    split; [exact E'|]. split; [lia|].
    rewrite E'. replace index with (Z.of_nat (List.length pre') + 1)%Z by lia.
    apply moveFileUp_swap. }
  assert (Down : (index < Z.of_nat (List.length files) - 1)%Z ->
      exists pre x n post,
        files = pre ++ x :: n :: post
        /\ Z.of_nat (List.length pre) = index
        /\ moveFileDown undefined index files = pre ++ n :: x :: post).
  { intros P.
    destruct (split_at_index A undefined files index R)
      as (pre & x & post & E & L).
    destruct post as [|n post].
    { rewrite E, length_app in P. simpl in P. lia. }
    exists pre, x, n, post. split; [exact E|]. split; [exact L|].
    rewrite E, <- L. apply moveFileDown_swap. }
  assert (First : index = 0%Z -> moveFileUp undefined index files = files)
    by (intros ->; reflexivity).
  assert (Last : index = (Z.of_nat (List.length files) - 1)%Z ->
                 moveFileDown undefined index files = files)
    by (intros ->; apply moveFileDown_last).
  split; [|repeat split; assumption].
  unfold movesKeepEntries.
  assert (PU : Permutation files (moveFileUp undefined index files)).
  { destruct (Z.eq_dec index 0) as [Z0|NZ].
    - rewrite First by exact Z0. apply Permutation_refl.
    - destruct Up as (pre & p & x & post & E & _ & ->); [lia|].
      rewrite E. apply Permutation_app_head. apply perm_swap. }
  assert (PD : Permutation files (moveFileDown undefined index files)).
  { destruct (Z.eq_dec index (Z.of_nat (List.length files) - 1)) as [Z0|NZ].
    - rewrite Last by exact Z0. apply Permutation_refl.
    - destruct Down as (pre & x & n & post & E & _ & ->); [lia|].
      rewrite E. apply Permutation_app_head. apply perm_swap. }
  repeat split; try assumption;
    symmetry; apply Permutation_length; assumption.
Qed.

(** The second of three entries moves up to the front and down to the
    back. *)
Lemma C10_second_of_three :
  (0 <= 1 < Z.of_nat (List.length
                        [Some (js "a.txt"); Some (js "b.txt");
                         Some (js "c.txt")]))%Z
  /\ moveFileUp None 1 [Some (js "a.txt"); Some (js "b.txt"); Some (js "c.txt")]
  = [Some (js "b.txt"); Some (js "a.txt"); Some (js "c.txt")]
  /\ moveFileDown None 1
       [Some (js "a.txt"); Some (js "b.txt"); Some (js "c.txt")]
     = [Some (js "a.txt"); Some (js "c.txt"); Some (js "b.txt")]
  /\ movesKeepEntries None 1
       [Some (js "a.txt"); Some (js "b.txt"); Some (js "c.txt")].
Proof.
  split; [simpl; lia|]. split; [reflexivity|]. split; [reflexivity|].
  exact (proj1 (C10_moves_swap_neighbours (option jsstring) None
                  [Some (js "a.txt"); Some (js "b.txt"); Some (js "c.txt")] 1
                  ltac:(simpl; lia))).
Defined.

(* ================================================================== *)
(** * The merge engine: offsets and the two-file scenario *)

(** C6: in every merge run, whatever manual overrides it carries, the
    offsets the Offset Accumulator computes form the running sum of the
    resolved durations in sequence order: the offset of file 0 is 0 and the
    offset of every later file is the offset of the file before it plus
    that file's resolved duration; and this is the offset assigned to every
    file that has no manual override. *)
Theorem C6_offsets_are_running_sums (files : list MergeEngine.SourceFile)
    (overrides : list (option Z)) :
  offsetsChain files
  /\ forall i,
       nth i overrides None = None ->
       MergeEngine.fileOffset
         (List.map MergeEngine.resolveDuration files) overrides i
       = MergeEngine.computedOffset
           (List.map MergeEngine.resolveDuration files) i.
Proof.
  split.
  - unfold offsetsChain. cbv zeta. split.
    + apply computedOffset_first.
    + intros i [L U].
      replace i with (S (i - 1)) at 1 by lia.
      apply computedOffset_next. rewrite length_map. lia.
  - intros i N. now apply fileOffset_computed.
Qed.

(** The computed offsets of the two scenario files are 0 and 4000, also in
    a run that overrides the offset of the first file. *)
Lemma C6_two_files :
  offsetsChain [scenarioPart1; scenarioPart2]
  /\ List.map MergeEngine.resolveDuration [scenarioPart1; scenarioPart2]
     = [4000; 3000]%Z
  /\ MergeEngine.computedOffset [4000; 3000]%Z 0 = 0%Z
  /\ MergeEngine.computedOffset [4000; 3000]%Z 1 = 4000%Z
  /\ MergeEngine.fileOffset [4000; 3000]%Z [Some 1000%Z] 1 = 4000%Z.
Proof.
  split; [|repeat split; reflexivity].
  exact (proj1 (C6_offsets_are_running_sums [scenarioPart1; scenarioPart2]
                  [Some 1000%Z])).
Defined.

(** C7: merging [a_1.srt] (one block from 00:00:00,000 to 00:00:04,000,
    "Hello") and [a_2.srt] (one block from 00:00:00,000 to 00:00:03,000,
    "World") without hints gives two blocks: the first from 00:00:00,000 to
    00:00:04,000 with the text "Hello", the second from 00:00:04,000 to
    00:00:07,000 with the text "World"; in whichever order the two files
    were discovered. *)
Theorem C7_two_srt_files (localeCompare : collation) :
  MergeEngine.detectAndMerge localeCompare [] [scenarioPart1; scenarioPart2]
  = [ MergeEngine.Block 0 (Some 4000%Z) ["Hello"%string] 0;
      MergeEngine.Block 4000 (Some 7000%Z) ["World"%string] 1 ]
  /\ MergeEngine.detectAndMerge localeCompare []
       [scenarioPart2; scenarioPart1]
     = MergeEngine.detectAndMerge localeCompare []
         [scenarioPart1; scenarioPart2]
  /\ List.map MergeEngine.formatSrtLine
       (MergeEngine.detectAndMerge localeCompare []
          [scenarioPart1; scenarioPart2])
     = [ Some "00:00:00,000 --> 00:00:04,000"%string;
         Some "00:00:04,000 --> 00:00:07,000"%string ].
Proof.
  repeat split; reflexivity.
Qed.

(* ================================================================== *)
(** * Removing an entry *)

Section RemoveFacts.
Variable A : Type.

Open Scope Z_scope.

(** Removing the entry after [pre], addressed from the front. *)
Lemma splice_remove_at (pre post : list A) (x : A) :
  splice (pre ++ x :: post) (Z.of_nat (List.length pre)) 1 [] = pre ++ post.
Proof. exact (splice_at A pre [x] post []). Qed.

(** A negative start counts from the end of the array. *)
Lemma splice_negative (arr : list A) (start deleteCount : Z)
    (items : list A) :
  - Z.of_nat (List.length arr) <= start < 0 ->
  splice arr start deleteCount items
  = splice arr (Z.of_nat (List.length arr) + start) deleteCount items.
Proof.
  intros R. unfold splice.
  assert (N0 : (start <? 0) = true) by (apply Z.ltb_lt; lia).
  assert (P0 : (Z.of_nat (List.length arr) + start <? 0) = false)
    by (apply Z.ltb_ge; lia).
  rewrite N0, P0.
  rewrite Z.max_l by lia.
  rewrite (Z.min_l (Z.of_nat (List.length arr) + start)) by lia.
  reflexivity.
Qed.

(** Past the end nothing is removed; before the start the first entry
    is. *)
Lemma splice_past_end (arr : list A) (start : Z) :
  Z.of_nat (List.length arr) <= start -> splice arr start 1 [] = arr.
Proof.
  intros R. unfold splice.
  assert (P0 : (start <? 0) = false) by (apply Z.ltb_ge; lia).
  rewrite P0.
  rewrite (Z.min_r start) by lia.
  rewrite Z.sub_diag, (Z.min_r (Z.max 1 0) 0) by lia.
  rewrite Z.add_0_r, Nat2Z.id.
  simpl app. apply firstn_skipn.
Qed.

Lemma splice_before_start (arr : list A) (start : Z) :
  start < - Z.of_nat (List.length arr) -> splice arr start 1 [] = tl arr.
Proof.
  intros R. unfold splice.
  assert (N0 : (start <? 0) = true) by (apply Z.ltb_lt; lia).
  rewrite N0.
  rewrite Z.max_r by lia.
  destruct arr as [|x arr]; [reflexivity|].
  rewrite Z.sub_0_r.
  rewrite Z.min_l by (simpl List.length; lia).
  reflexivity.
Qed.
End RemoveFacts.

(** The buttons after the list was shown. *)
Lemma display_buttons (files : list jsstring) (m c : bool)
    (shown : list jsstring) :
  let app := displayTranscriptionFiles (MkApp files m c shown) in
  transcriptionFiles app = files
  /\ mergeBtnDisabled app = clearAllBtnDisabled app
  /\ (mergeBtnDisabled app = true <-> files = [])
  /\ messages app = shown.
Proof.
  destruct files; cbn; repeat split; intros; congruence.
Qed.

(** Receiving files leaves a list of their number. *)
Lemma sort_length (localeCompare : collation) (l : list jsstring) :
  List.length (sortTranscriptionFiles localeCompare l) = List.length l.
Proof.
  symmetry. apply Permutation_length. apply arraySort_perm.
Qed.

(** An event that writes the list leaves the merge and the clear button
    disabled exactly when the list is empty, whatever they were before,
    unless it is an empty array from the dialog. *)
Lemma handleEvent_writes (localeCompare : collation) (app : App)
    (e : listEvent) :
  writesTheList e = true -> holdsAFile e ->
  buttonsFollowTheList (handleEvent localeCompare app e).
Proof.
  assert (Sorted : forall f l,
    buttonsFollowTheList
      (let app2 :=
         displayTranscriptionFiles
           (MkApp (sortTranscriptionFiles localeCompare (f :: l))
              (mergeBtnDisabled app) (clearAllBtnDisabled app)
              (messages app)) in
       MkApp (transcriptionFiles app2) false (clearAllBtnDisabled app2)
         (messages app2))).
  { intros f l. pose proof (sort_length localeCompare (f :: l)) as L.
    unfold buttonsFollowTheList.
    cbn [displayTranscriptionFiles transcriptionFiles mergeBtnDisabled
         clearAllBtnDisabled messages].
    destruct (sortTranscriptionFiles localeCompare (f :: l));
      [discriminate L|].
    cbn. split; [reflexivity|]. split; intros; discriminate. }
  intros W H. destruct e as [[|f l]|[[|f l]|]|index|];
    cbn [handleEvent]; try discriminate W; try contradiction.
  - apply Sorted.
  - apply Sorted.
  - unfold removeTranscriptionFile, buttonsFollowTheList.
    destruct (display_buttons
                (splice (transcriptionFiles app) index 1 [])
                (mergeBtnDisabled app) (clearAllBtnDisabled app)
                (messages app)) as (F & B & E & _).
    rewrite F in *. split; [exact B | exact E].
  - unfold clearAllTranscriptions, buttonsFollowTheList. cbn.
    split; [reflexivity|]. split; reflexivity.
Qed.

(** The other events change nothing. *)
Lemma handleEvent_idle (localeCompare : collation) (app : App)
    (e : listEvent) :
  writesTheList e = false -> handleEvent localeCompare app e = app.
Proof.
  destruct e as [[|f l]|[l|]|index|]; intros W;
    try discriminate W; reflexivity.
Qed.

(* ================================================================== *)
(** * The rows of the list and their buttons *)

Section RowFacts.
Open Scope Z_scope.

(** The rows of a list that displays: there is one for each entry, every
    entry is a string, and row [k] carries the indices [k] from the first
    index on. *)
Lemma rowsFrom_rows (len : Z) (files : list entry) :
  forall (index : Z) (rows : list Row),
    rowsFrom index len files = Returns rows ->
    exists names,
      files = List.map Some names
      /\ List.length rows = List.length names
      /\ forall k row,
           nth_error rows k = Some row ->
           exists name,
             nth_error names k = Some name
             /\ row = MkRow (index + Z.of_nat k + 1) (shownName name)
                        (index + Z.of_nat k)
                        (Z.eqb (index + Z.of_nat k) 0)
                        (index + Z.of_nat k)
                        (Z.eqb (index + Z.of_nat k) (len - 1))
                        (index + Z.of_nat k).
Proof.
  induction files as [|[file|] rest IH]; intros index rows E.
  - injection E as <-. exists []. repeat split.
    intros [|k] row H; discriminate H.
  - cbn [rowsFrom] in E.
    destruct (rowsFrom (index + 1) len rest) as [rows'|] eqn:R;
      [|discriminate E].
    injection E as <-.
    destruct (IH _ _ R) as (names & F & L & N).
    exists (file :: names). split; [now rewrite F|].
    split; [simpl; now rewrite L|].
    intros [|k] row H.
    + injection H as <-. exists file. split; [reflexivity|].
      now rewrite Z.add_0_r.
    + destruct (N k row H) as (name & Hn & Hr).
      exists name. split; [exact Hn|].
      rewrite Hr. rewrite Nat2Z.inj_succ.
      replace (index + Z.succ (Z.of_nat k)) with (index + 1 + Z.of_nat k)
        by lia.
      reflexivity.
  - discriminate E.
Qed.

(** A list of strings always displays. *)
Lemma rowsFrom_strings (len : Z) (names : list jsstring) :
  forall index, exists rows, rowsFrom index len (List.map Some names)
                             = Returns rows.
Proof.
  induction names as [|name names IH]; intros index.
  - exists []. reflexivity.
  - destruct (IH (index + 1)) as (rows & R).
    eexists. cbn [List.map rowsFrom]. rewrite R. reflexivity.
Qed.

(** The row of a button on display: its position [k] in the list. *)
Lemma displayed_row (names : list jsstring) (rows : list Row) (row : Row) :
  displayRows (List.map Some names) = Returns rows ->
  In row rows ->
  exists k name,
    nth_error names k = Some name
    /\ row = MkRow (Z.of_nat k + 1) (shownName name)
               (Z.of_nat k) (Z.eqb (Z.of_nat k) 0)
               (Z.of_nat k)
               (Z.eqb (Z.of_nat k) (Z.of_nat (List.length names) - 1))
               (Z.of_nat k).
Proof.
  intros D Hin. unfold displayRows in D.
  rewrite length_map in D.
  destruct (rowsFrom_rows _ _ _ _ D) as (names' & F & L & N).
  assert (names' = names) as ->.
  { clear - F. revert names' F.
    induction names as [|n names IH]; intros [|n' names'] F;
      try discriminate F; [reflexivity|].
    injection F as -> F. f_equal. now apply IH. }
  apply In_nth_error in Hin. destruct Hin as (k & Hk).
  destruct (N k row Hk) as (name & Hn & Hr).
  exists k, name. split; [exact Hn|]. exact Hr.
Qed.

(** An entry at position [k] splits the list. *)
Lemma nth_error_split_at (A : Type) (l : list A) (k : nat) (x : A) :
  nth_error l k = Some x ->
  exists pre post, l = pre ++ x :: post /\ List.length pre = k.
Proof.
  intros H. apply nth_error_split in H.
  destruct H as (pre & post & E & L). now exists pre, post.
Qed.

(** What a click on an enabled button does to a list of strings: two
    neighbours change places, or one entry goes. *)
Lemma click_effect (names : list jsstring) (rows : list Row) (c : click) :
  displayRows (List.map Some names) = Returns rows ->
  In (clickedRow c) rows ->
  enabled c = true ->
  exists kept gone,
    onclick c (List.map Some names) = List.map Some kept
    /\ Permutation names (kept ++ gone).
Proof.
  intros D Hin En.
  destruct (displayed_row _ _ _ D Hin) as (k & name & Hn & Hr).
  destruct (nth_error_split_at _ _ _ _ Hn) as (pre & post & E & L).
  destruct c as [row|row|row]; cbn [clickedRow] in Hr; subst row;
    cbn [onclick enabled upIndex upDisabled downIndex downDisabled
         deleteIndex] in *.
  - (* up *)
    apply negb_true_iff, Z.eqb_neq in En.
    destruct pre as [|q pre _] using rev_ind; [simpl in L; lia|].
    exists (pre ++ name :: q :: post), [].
    rewrite app_nil_r. split.
    + subst names. rewrite <- L, length_app. simpl List.length.
      rewrite <- app_assoc. cbn [app].
      rewrite !map_app. cbn [List.map].
      replace (Z.of_nat (List.length pre + 1))
        with (Z.of_nat (List.length (List.map Some pre)) + 1)
        by (rewrite length_map; lia).
      apply moveFileUp_swap.
    + subst names. rewrite <- app_assoc. cbn [app].
      apply Permutation_app_head. apply perm_swap.
  - (* down *)
    apply negb_true_iff, Z.eqb_neq in En.
    destruct post as [|n post].
    { subst names. rewrite length_app in En. simpl in En. lia. }
    exists (pre ++ n :: name :: post), [].
    rewrite app_nil_r. split.
    + subst names. rewrite <- L.
      rewrite !map_app. cbn [List.map].
      replace (Z.of_nat (List.length pre))
        with (Z.of_nat (List.length (List.map Some pre)))
        by (now rewrite length_map).
      apply moveFileDown_swap.
    + subst names. apply Permutation_app_head. apply perm_swap.
  - (* delete *)
    exists (pre ++ post), [name]. split.
    + subst names. rewrite <- L.
      rewrite !map_app. cbn [List.map].
      replace (Z.of_nat (List.length pre))
        with (Z.of_nat (List.length (List.map Some pre)))
        by (now rewrite length_map).
      apply splice_remove_at.
    + subst names. rewrite <- app_assoc.
      apply Permutation_app_head.
      change (name :: post) with ([name] ++ post).
      apply Permutation_app_comm.
Qed.
End RowFacts.

(* ================================================================== *)
(** * Removing, clearing and clicking: the properties *)

(** X1. [removeTranscriptionFile] called with the index of an entry, counted
    from the front or (negative) from the end, removes that entry and no
    other: the entries before and after it stay in their order; afterwards
    the merge and the clear button are disabled together, exactly when the
    list has become empty, and no message is shown. *)
Theorem remove_takes_the_addressed_entry (pre post : list jsstring)
    (x : jsstring) (index : Z) (app : App) :
  transcriptionFiles app = pre ++ x :: post ->
  (index = Z.of_nat (List.length pre)
   \/ index = (- 1 - Z.of_nat (List.length post))%Z) ->
  transcriptionFiles (removeTranscriptionFile index app) = pre ++ post
  /\ mergeBtnDisabled (removeTranscriptionFile index app)
     = clearAllBtnDisabled (removeTranscriptionFile index app)
  /\ (mergeBtnDisabled (removeTranscriptionFile index app) = true
      <-> pre ++ post = [])
  /\ messages (removeTranscriptionFile index app) = messages app.
Proof.
  intros E I. unfold removeTranscriptionFile.
  assert (S : splice (transcriptionFiles app) index 1 [] = pre ++ post).
  { rewrite E. destruct I as [->| ->].
    - apply splice_remove_at.
    - rewrite splice_negative
        by (rewrite length_app; simpl List.length; lia).
      replace (Z.of_nat (List.length (pre ++ x :: post))
               + (-1 - Z.of_nat (List.length post)))%Z
        with (Z.of_nat (List.length pre))
        by (rewrite length_app; simpl List.length; lia).
      apply splice_remove_at. }
  rewrite S. apply display_buttons.
Qed.

Lemma remove_second_of_three :
  transcriptionFiles
    (removeTranscriptionFile 1
       (MkApp [js "a.txt"; js "b.txt"; js "c.txt"] false false []))
  = [js "a.txt"; js "c.txt"]
  /\ transcriptionFiles
       (removeTranscriptionFile (-2)
          (MkApp [js "a.txt"; js "b.txt"; js "c.txt"] false false []))
     = [js "a.txt"; js "c.txt"].
Proof.
  split.
  - apply (remove_takes_the_addressed_entry
             [js "a.txt"] [js "c.txt"] (js "b.txt") 1
             (MkApp [js "a.txt"; js "b.txt"; js "c.txt"] false false []));
      [reflexivity | left; reflexivity].
  - apply (remove_takes_the_addressed_entry
             [js "a.txt"] [js "c.txt"] (js "b.txt") (-2)
             (MkApp [js "a.txt"; js "b.txt"; js "c.txt"] false false []));
      [reflexivity | right; reflexivity].
Defined.

(** X2. [removeTranscriptionFile] with an index that addresses no entry: an
    index at or past the length leaves the list as it is, and an index below
    minus the length removes the first entry. *)
Theorem remove_outside_the_list (index : Z) (app : App) :
  ((Z.of_nat (List.length (transcriptionFiles app)) <= index)%Z ->
   transcriptionFiles (removeTranscriptionFile index app)
   = transcriptionFiles app)
  /\ ((index < - Z.of_nat (List.length (transcriptionFiles app)))%Z ->
      transcriptionFiles (removeTranscriptionFile index app)
      = tl (transcriptionFiles app)).
Proof.
  unfold removeTranscriptionFile. split; intros R.
  - destruct (display_buttons
                (splice (transcriptionFiles app) index 1 [])
                (mergeBtnDisabled app) (clearAllBtnDisabled app)
                (messages app)) as (F & _).
    rewrite F. now apply splice_past_end.
  - destruct (display_buttons
                (splice (transcriptionFiles app) index 1 [])
                (mergeBtnDisabled app) (clearAllBtnDisabled app)
                (messages app)) as (F & _).
    rewrite F. now apply splice_before_start.
Qed.

(** X3. From any state of the page, whatever its buttons were: after a
    sequence of drops, answers of the file dialog, removals (with any index)
    and clearings of which at least one writes the list, and in which every
    array the dialog answers with holds a path, the merge button and the
    clear button are disabled together, and exactly when the list of
    transcription files is empty; where that was so before, it stays so
    after any such sequence.  The condition on the dialog is needed:
    [selectTranscriptionFiles] does not look at the length, and an empty
    array from the dialog leaves the merge button enabled over an empty
    list. *)
Theorem buttons_follow_the_list (localeCompare : collation)
    (events : list listEvent) (app : App) :
  (Forall holdsAFile events ->
   existsb writesTheList events = true ->
   buttonsFollowTheList (handleEvents localeCompare events app))
  /\ (Forall holdsAFile events ->
      buttonsFollowTheList app ->
      buttonsFollowTheList (handleEvents localeCompare events app))
  /\ (mergeBtnDisabled
        (handleEvent localeCompare app (Selected (Some []))) = false
      /\ transcriptionFiles
           (handleEvent localeCompare app (Selected (Some []))) = []).
Proof.
  unfold handleEvents. split; [|split].
  - induction events as [|e events IH] using rev_ind;
      intros H W; [discriminate W|].
    apply Forall_app in H. destruct H as (H & He).
    inversion He as [|? ? Oe _]; subst.
    rewrite fold_left_app. cbn [fold_left].
    destruct (writesTheList e) eqn:We.
    + now apply handleEvent_writes.
    + rewrite handleEvent_idle by exact We.
      apply IH; [exact H|].
      rewrite existsb_app in W. cbn [existsb] in W.
      rewrite We in W. cbn in W. now rewrite orb_false_r in W.
  - induction events as [|e events IH] using rev_ind;
      intros H B; [exact B|].
    apply Forall_app in H. destruct H as (H & He).
    inversion He as [|? ? Oe _]; subst.
    rewrite fold_left_app. cbn [fold_left].
    destruct (writesTheList e) eqn:We.
    + now apply handleEvent_writes.
    + rewrite handleEvent_idle by exact We. now apply IH.
  - split; reflexivity.
Qed.

Lemma drop_two_then_remove_both :
  buttonsFollowTheList
    (handleEvents codeUnitCollation
       [Received [js "b.txt"; js "a.txt"]; Removed 0; Selected None;
        Removed 0]
       (MkApp [js "old.txt"] true false []))
  /\ transcriptionFiles
       (handleEvents codeUnitCollation
          [Received [js "b.txt"; js "a.txt"]; Removed 0; Selected None;
           Removed 0]
          (MkApp [js "old.txt"] true false []))
     = [].
Proof.
  split; [|reflexivity].
  apply (proj1 (buttons_follow_the_list codeUnitCollation
                  [Received [js "b.txt"; js "a.txt"]; Removed 0;
                   Selected None; Removed 0]
                  (MkApp [js "old.txt"] true false []))).
  - repeat constructor.
  - reflexivity.
Defined.

(** X4. [displayTranscriptionFiles] on a list of strings never throws and
    builds one row for each file, in the order of the list; row [k] (from 0)
    shows the number [k + 1] and the text of the path after its last [/],
    its three buttons call the handlers with the index [k], its up button is
    disabled exactly in the first row and its down button exactly in the
    last. *)
Theorem rows_of_the_list (names : list jsstring) :
  exists rows,
    displayRows (List.map Some names) = Returns rows
    /\ List.length rows = List.length names
    /\ forall k row,
         nth_error rows k = Some row ->
         rowOrder row = (Z.of_nat k + 1)%Z
         /\ upIndex row = Z.of_nat k
         /\ downIndex row = Z.of_nat k
         /\ deleteIndex row = Z.of_nat k
         /\ (upDisabled row = true <-> k = 0%nat)
         /\ (downDisabled row = true <-> S k = List.length names)
         /\ exists name,
              nth_error names k = Some name /\ rowName row = shownName name.
Proof.
  destruct (rowsFrom_strings (Z.of_nat (List.length (List.map Some names)))
              names 0%Z) as (rows & R).
  exists rows. split; [exact R|].
  assert (D : displayRows (List.map Some names) = Returns rows) by exact R.
  split.
  - destruct (rowsFrom_rows _ _ _ _ R) as (names' & F & L & _).
    rewrite L. rewrite <- (length_map Some names'), <- F.
    apply length_map.
  - intros k row Hk.
    destruct (rowsFrom_rows _ _ _ _ R) as (names' & F & L & N).
    assert (names' = names) as ->.
    { clear - F. revert names' F.
      induction names as [|n names IH]; intros [|n' names'] F;
        try discriminate F; [reflexivity|].
      injection F as -> F. f_equal. now apply IH. }
    destruct (N k row Hk) as (name & Hn & ->).
    cbn [rowOrder upIndex downIndex deleteIndex upDisabled downDisabled
         rowName].
    rewrite length_map.
    split; [lia|]. split; [lia|]. split; [lia|]. split; [lia|].
    split; [|split].
    + split; intros H; [apply Z.eqb_eq in H; lia|].
      subst k. reflexivity.
    + split; intros H; [apply Z.eqb_eq in H; lia|].
      apply Z.eqb_eq. lia.
    + exists name. split; [exact Hn | reflexivity].
Qed.

(** X5. The buttons of a displayed row agree with the handlers they call: a
    disabled up or down button is one whose handler would leave the list as
    it is, and an enabled one always addresses an entry that has the
    neighbour in question, so that the click makes the row's file and that
    neighbour change places and touches nothing else. *)
Theorem enabled_buttons_swap_neighbours (names : list jsstring)
    (rows : list Row) (row : Row) :
  displayRows (List.map Some names) = Returns rows ->
  In row rows ->
  (upDisabled row = true ->
   moveFileUp None (upIndex row) (List.map Some names)
   = List.map Some names)
  /\ (upDisabled row = false ->
      exists pre p x post,
        names = pre ++ p :: x :: post
        /\ upIndex row = (Z.of_nat (List.length pre) + 1)%Z
        /\ rowName row = shownName x
        /\ moveFileUp None (upIndex row) (List.map Some names)
           = List.map Some (pre ++ x :: p :: post))
  /\ (downDisabled row = true ->
      moveFileDown None (downIndex row) (List.map Some names)
      = List.map Some names)
  /\ (downDisabled row = false ->
      exists pre x n post,
        names = pre ++ x :: n :: post
        /\ downIndex row = Z.of_nat (List.length pre)
        /\ rowName row = shownName x
        /\ moveFileDown None (downIndex row) (List.map Some names)
           = List.map Some (pre ++ n :: x :: post)).
Proof.
  intros D Hin.
  destruct (displayed_row _ _ _ D Hin) as (k & name & Hn & ->).
  destruct (nth_error_split_at _ _ _ _ Hn) as (pre & post & E & L).
  cbn [upIndex upDisabled downIndex downDisabled rowName].
  split; [|split; [|split]].
  - intros H. apply Z.eqb_eq in H. rewrite H. reflexivity.
  - intros H. apply Z.eqb_neq in H.
    destruct pre as [|q pre _] using rev_ind; [simpl in L; lia|].
    exists pre, q, name, post.
    rewrite length_app in L. simpl List.length in L.
    split; [subst names; rewrite <- app_assoc; reflexivity|].
    split; [lia|]. split; [reflexivity|].
    subst names. rewrite <- L.
    rewrite <- app_assoc. cbn [app].
    rewrite !map_app. cbn [List.map].
    replace (Z.of_nat (List.length pre + 1))
      with (Z.of_nat (List.length (List.map Some pre)) + 1)%Z
      by (rewrite length_map; lia).
    apply moveFileUp_swap.
  - intros H. apply Z.eqb_eq in H. rewrite H.
    rewrite <- (length_map Some names).
    apply moveFileDown_last.
  - intros H. apply Z.eqb_neq in H.
    destruct post as [|n post].
    { subst names. rewrite length_app in H. simpl in H. lia. }
    exists pre, name, n, post.
    split; [exact E|]. split; [lia|]. split; [reflexivity|].
    subst names. rewrite <- L.
    rewrite !map_app. cbn [List.map].
    replace (Z.of_nat (List.length pre))
      with (Z.of_nat (List.length (List.map Some pre)))
      by (now rewrite length_map).
    apply moveFileDown_swap.
Qed.

Lemma second_row_of_two :
  (exists pre p x post,
     [js "a/1.txt"; js "a/2.txt"] = pre ++ p :: x :: post
     /\ 1%Z = (Z.of_nat (List.length pre) + 1)%Z
     /\ js "2.txt" = shownName x
     /\ moveFileUp None 1 [Some (js "a/1.txt"); Some (js "a/2.txt")]
        = List.map Some (pre ++ x :: p :: post))
  /\ moveFileDown None 1 [Some (js "a/1.txt"); Some (js "a/2.txt")]
     = [Some (js "a/1.txt"); Some (js "a/2.txt")].
Proof.
  destruct (enabled_buttons_swap_neighbours
              [js "a/1.txt"; js "a/2.txt"]
              [MkRow 1 (js "1.txt") 0 true 0 false 0;
               MkRow 2 (js "2.txt") 1 false 1 true 1]
              (MkRow 2 (js "2.txt") 1 false 1 true 1)
              eq_refl (or_intror (or_introl eq_refl)))
    as (_ & U & D & _).
  split; [exact (U eq_refl) | exact (D eq_refl)].
Defined.

(** X6. However the user clicks the enabled buttons of the rows on display,
    starting from a list of files: the array always holds strings only
    (never [undefined]), it always displays, and it holds the files of the
    start without those removed, each as often as at the start; no click
    brings in an entry or doubles one. *)
Theorem clicks_reorder_or_remove (names : list jsstring)
    (files : list entry) :
  afterClicks (List.map Some names) files ->
  exists kept gone,
    files = List.map Some kept
    /\ Permutation names (kept ++ gone)
    /\ exists rows, displayRows files = Returns rows.
Proof.
  intros R.
  induction R as [|files rows c R IH D Hin En].
  - exists names, []. rewrite app_nil_r.
    split; [reflexivity|]. split; [apply Permutation_refl|].
    apply rowsFrom_strings.
  - destruct IH as (kept & gone & -> & P & _).
    destruct (click_effect _ _ _ D Hin En) as (kept' & gone' & O & P').
    exists kept', (gone' ++ gone).
    split; [exact O|]. split.
    + rewrite app_assoc.
      eapply Permutation_trans; [exact P|].
      apply Permutation_app_tail. exact P'.
    + rewrite O. apply rowsFrom_strings.
Qed.

Lemma down_then_delete :
  exists kept gone,
    [Some (js "2.txt")] = List.map Some kept
    /\ Permutation [js "1.txt"; js "2.txt"] (kept ++ gone)
    /\ exists rows, displayRows [Some (js "2.txt")] = Returns rows.
Proof.
  apply (clicks_reorder_or_remove [js "1.txt"; js "2.txt"]
           [Some (js "2.txt")]).
  apply (Clicked (start := [Some (js "1.txt"); Some (js "2.txt")])
           (files := [Some (js "2.txt"); Some (js "1.txt")])
           (rows := [MkRow 1 (js "2.txt") 0 true 0 false 0;
                     MkRow 2 (js "1.txt") 1 false 1 true 1])
           (ClickDelete (MkRow 2 (js "1.txt") 1 false 1 true 1)));
    [|reflexivity | right; left; reflexivity | reflexivity].
  apply (Clicked (start := [Some (js "1.txt"); Some (js "2.txt")])
           (files := [Some (js "1.txt"); Some (js "2.txt")])
           (rows := [MkRow 1 (js "1.txt") 0 true 0 false 0;
                     MkRow 2 (js "2.txt") 1 false 1 true 1])
           (ClickDown (MkRow 1 (js "1.txt") 0 true 0 false 0)));
    [|reflexivity | left; reflexivity | reflexivity].
  apply NoClick.
Defined.

(** X7. Moving an entry up and then down again, or down and then up again,
    gives back the list: for every index [index] of an entry that has a
    predecessor, [moveFileDown (index - 1)] undoes [moveFileUp index] and
    [moveFileUp index] undoes [moveFileDown (index - 1)]. *)
Theorem move_up_then_down (A : Type) (undefined : A) (index : Z)
    (files : list A) :
  (0 < index < Z.of_nat (List.length files))%Z ->
  moveFileDown undefined (index - 1) (moveFileUp undefined index files)
  = files
  /\ moveFileUp undefined index (moveFileDown undefined (index - 1) files)
     = files.
Proof.
  intros R.
  destruct (split_at_index A undefined files (index - 1)%Z)
    as (pre & p & rest & E & L); [lia|].
  destruct rest as [|x post].
  { subst files. rewrite length_app in R. simpl in R. lia. }
  subst files.
  replace index with (Z.of_nat (List.length pre) + 1)%Z by lia.
  replace (Z.of_nat (List.length pre) + 1 - 1)%Z
    with (Z.of_nat (List.length pre)) by lia.
  split.
  - rewrite moveFileUp_swap. apply moveFileDown_swap.
  - rewrite moveFileDown_swap. apply moveFileUp_swap.
Qed.

Lemma move_second_of_three_and_back :
  moveFileDown 0%nat 0 (moveFileUp 0%nat 1 [1; 2; 3]%nat) = [1; 2; 3]%nat
  /\ moveFileUp 0%nat 1 (moveFileDown 0%nat 0 [1; 2; 3]%nat) = [1; 2; 3]%nat.
Proof.
  apply (move_up_then_down nat 0%nat 1 [1; 2; 3]%nat).
  simpl. lia.
Defined.

(* ================================================================== *)
(** * Paths *)

Section LastPiece.
Variable p : codeUnit -> bool.

Lemma split_nonempty (s : jsstring) : split p s <> [].
Proof.
  destruct s as [|x s]; [discriminate|].
  simpl. destruct (p x); [discriminate|].
  destruct (split p s); discriminate.
Qed.

Lemma pop_cons (x : jsstring) (l : list jsstring) :
  l <> [] -> pop (x :: l) = pop l.
Proof.
  intros N. unfold pop. simpl rev.
  destruct (rev l) as [|y r] eqn:E.
  - apply (f_equal (@rev jsstring)) in E. rewrite rev_involutive in E.
    now elim N.
  - reflexivity.
Qed.

(** Without a separator the text is the only piece. *)
Lemma split_without (s : jsstring) : without p s -> split p s = [s].
Proof.
  induction 1 as [|x s Hx _ IH]; [reflexivity|].
  simpl. now rewrite Hx, IH.
Qed.

(** The pieces after a separator are the pieces of the text behind it. *)
Lemma split_separator (a t : jsstring) (x : codeUnit) :
  p x = true ->
  exists piece pieces,
    split p (a ++ x :: t) = piece :: pieces
    /\ pieces <> []
    /\ pop pieces = pop (split p t).
Proof.
  intros Hx. induction a as [|y a IH].
  - exists [], (split p t). simpl. rewrite Hx.
    split; [reflexivity|]. split; [apply split_nonempty | reflexivity].
  - destruct IH as (piece & pieces & E & N & P).
    simpl. rewrite E. destruct (p y).
    + exists [], (piece :: pieces).
      split; [reflexivity|]. split; [discriminate|].
      rewrite pop_cons by exact N. exact P.
    + exists (y :: piece), pieces. now repeat split.
Qed.

(** The last piece is the text behind the last separator. *)
Lemma last_piece (a t : jsstring) (x : codeUnit) :
  p x = true -> without p t ->
  orEmpty (pop (split p (a ++ x :: t))) = t.
Proof.
  intros Hx Ht.
  destruct (split_separator a t x Hx) as (piece & pieces & E & N & P).
  rewrite E, pop_cons by exact N.
  rewrite P, split_without by exact Ht.
  now destruct t.
Qed.

Lemma whole_piece (s : jsstring) :
  without p s -> orEmpty (pop (split p s)) = s.
Proof.
  intros Hs. rewrite split_without by exact Hs. now destruct s.
Qed.

(** A text holds no separator, or has a last one. *)
Lemma last_separator (s : jsstring) :
  without p s
  \/ exists a x t, s = a ++ x :: t /\ p x = true /\ without p t.
Proof.
  induction s as [|y s [W|(a & x & t & -> & Hx & Ht)]].
  - left. constructor.
  - destruct (p y) eqn:Hy.
    + right. exists [], y, s. now repeat split.
    + left. now constructor.
  - right. exists (y :: a), x, t. now repeat split.
Qed.
End LastPiece.

Section PathFacts.
Open Scope Z_scope.

Lemma lastIndexOf_without (c : codeUnit) (s : jsstring) :
  without (fun x => N.eqb x c) s -> lastIndexOf c s = -1.
Proof.
  induction 1 as [|x s Hx _ IH]; [reflexivity|].
  cbn [lastIndexOf]. rewrite IH, Hx. reflexivity.
Qed.

Lemma lastIndexOf_range (c : codeUnit) (s : jsstring) :
  -1 <= lastIndexOf c s < Z.of_nat (List.length s).
Proof.
  induction s as [|x s IH]; [simpl; lia|].
  cbn [lastIndexOf]. simpl List.length. rewrite Nat2Z.inj_succ.
  destruct (lastIndexOf c s =? -1) eqn:E.
  - destruct (N.eqb x c); lia.
  - apply Z.eqb_neq in E. lia.
Qed.

(** Text without the unit, added behind, does not move the last
    occurrence. *)
Lemma lastIndexOf_app (c : codeUnit) (a t : jsstring) :
  without (fun x => N.eqb x c) t ->
  lastIndexOf c (a ++ t) = lastIndexOf c a.
Proof.
  intros Ht. induction a as [|y a IH].
  - simpl app. now rewrite lastIndexOf_without.
  - cbn [app lastIndexOf]. now rewrite IH.
Qed.

Lemma lastIndexOf_last (c : codeUnit) (a t : jsstring) :
  without (fun x => N.eqb x c) t ->
  lastIndexOf c (a ++ c :: t) = Z.of_nat (List.length a).
Proof.
  intros Ht. induction a as [|y a IH].
  - cbn [app lastIndexOf]. rewrite lastIndexOf_without by exact Ht.
    now rewrite N.eqb_refl.
  - cbn [app lastIndexOf]. rewrite IH.
    assert (E : (Z.of_nat (List.length a) =? -1) = false)
      by (apply Z.eqb_neq; lia).
    rewrite E. simpl List.length. lia.
Qed.

(** The text before an index. *)
Lemma substring_prefix (a b : jsstring) :
  substring (a ++ b) 0 (Z.of_nat (List.length a)) = a.
Proof.
  unfold substring. rewrite length_app, Nat2Z.inj_add.
  rewrite (Z.max_l 0 0) by lia.
  rewrite (Z.min_l 0) by lia.
  rewrite (Z.max_l (Z.of_nat (List.length a)) 0) by lia.
  rewrite (Z.min_l (Z.of_nat (List.length a))) by lia.
  rewrite Z.min_l, Z.max_r by lia.
  rewrite Z.sub_0_r, Nat2Z.id. simpl skipn.
  rewrite firstn_app, Nat.sub_diag, firstn_all. simpl.
  apply app_nil_r.
Qed.

(** An end of [-1] gives the empty text. *)
Lemma substring_none (s : jsstring) : substring s 0 (-1) = [].
Proof.
  unfold substring.
  rewrite (Z.max_l 0 0), (Z.max_r (-1) 0) by lia.
  rewrite !(Z.min_l 0) by lia.
  reflexivity.
Qed.

(** A text without either separator holds neither. *)
Lemma without_slash (s : jsstring) :
  without CharClass.slash s
  <-> without (fun x => N.eqb x 92) s /\ without (fun x => N.eqb x 47) s.
Proof.
  unfold without, CharClass.slash. rewrite !Forall_forall. split.
  - intros H. split; intros x Hx; specialize (H x Hx);
      apply orb_false_iff in H; tauto.
  - intros (H1 & H2) x Hx. apply orb_false_iff. auto.
Qed.

Lemma getParentFolder_none (path : jsstring) :
  without CharClass.slash path -> getParentFolder path = path.
Proof.
  intros W. apply without_slash in W. destruct W as (W1 & W2).
  unfold getParentFolder.
  now rewrite !lastIndexOf_without.
Qed.

Lemma getParentFolder_last (folder name : jsstring) (x : codeUnit) :
  CharClass.slash x = true -> without CharClass.slash name ->
  getParentFolder (folder ++ x :: name) = folder.
Proof.
  intros Hx W. apply without_slash in W. destruct W as (W1 & W2).
  unfold getParentFolder.
  pose proof (lastIndexOf_range 92%N folder) as R1.
  pose proof (lastIndexOf_range 47%N folder) as R2.
  unfold CharClass.slash in Hx. apply orb_true_iff in Hx.
  destruct Hx as [Hx|Hx]; apply N.eqb_eq in Hx; subst x.
  - rewrite (lastIndexOf_last 92%N folder name W1).
    rewrite (lastIndexOf_app 47%N folder)
      by (constructor; [reflexivity | exact W2]).
    rewrite Z.max_l by lia.
    assert (E : (Z.of_nat (List.length folder) =? -1) = false)
      by (apply Z.eqb_neq; lia).
    rewrite E. apply substring_prefix.
  - rewrite (lastIndexOf_last 47%N folder name W2).
    rewrite (lastIndexOf_app 92%N folder)
      by (constructor; [reflexivity | exact W1]).
    rewrite Z.max_r by lia.
    assert (E : (Z.of_nat (List.length folder) =? -1) = false)
      by (apply Z.eqb_neq; lia).
    rewrite E. apply substring_prefix.
Qed.

Lemma fileName_last (folder name : jsstring) (x : codeUnit) :
  CharClass.slash x = true -> without CharClass.slash name ->
  fileName (folder ++ x :: name) = name.
Proof. intros Hx W. now apply last_piece. Qed.

Lemma fileName_none (path : jsstring) :
  without CharClass.slash path -> fileName path = path.
Proof. intros W. now apply whole_piece. Qed.

(** A text without a line break is held as it is. *)
Lemma stripNewlines_plain (text : jsstring) :
  without lineBreak text -> stripNewlines text = text.
Proof.
  unfold stripNewlines. induction 1 as [|x text Hx _ IH]; [reflexivity|].
  simpl. now rewrite Hx, IH.
Qed.
End PathFacts.

(* ================================================================== *)
(** * Paths: the properties *)

(** X8. [getParentFolder] and the file name the sort works on cut a path at
    the same place, its last [/] or backslash: a path with a separator is
    its parent folder, that separator, and its file name, and the file name
    holds no separator; a path without one is its own parent folder and its
    own file name. *)
Theorem path_is_folder_and_name (path : jsstring) :
  (without CharClass.slash path
   /\ getParentFolder path = path /\ fileName path = path)
  \/ (exists x,
        CharClass.slash x = true
        /\ path = getParentFolder path ++ x :: fileName path
        /\ without CharClass.slash (fileName path)).
Proof.
  destruct (last_separator CharClass.slash path)
    as [W|(folder & x & name & -> & Hx & W)].
  - left. split; [exact W|].
    split; [now apply getParentFolder_none | now apply fileName_none].
  - right. exists x.
    rewrite getParentFolder_last, fileName_last by assumption.
    now repeat split.
Qed.

(** X9. The folders of a path play no part in the order of the files: the
    sequence key of a path is the key of its file name alone, digits in
    folder names are never read, and the comparator of the sort answers for
    a path as for its bare file name, on either side. *)
Theorem key_ignores_the_folder (folder name : jsstring) (x : codeUnit) :
  CharClass.slash x = true -> without CharClass.slash name ->
  sequenceKey (folder ++ x :: name) = extractSequenceNumber name
  /\ forall (localeCompare : collation) (other : jsstring),
       compareFiles localeCompare (folder ++ x :: name) other
       = compareFiles localeCompare name other
       /\ compareFiles localeCompare other (folder ++ x :: name)
          = compareFiles localeCompare other name.
Proof.
  intros Hx W.
  pose proof (fileName_last folder name x Hx W) as F.
  pose proof (fileName_none name W) as N.
  split.
  - unfold sequenceKey. now rewrite F.
  - intros localeCompare other. unfold compareFiles.
    rewrite F, N. split; reflexivity.
Qed.

Lemma take2_part_1 :
  sequenceKey (js "take2/part_1.txt") = extractSequenceNumber (js "part_1.txt")
  /\ extractSequenceNumber (js "part_1.txt") = Some (Num 1).
Proof.
  split; [|reflexivity].
  apply (key_ignores_the_folder (js "take2") (js "part_1.txt") 47%N);
    [reflexivity|].
  repeat constructor.
Defined.

(** X10. The name a row of the list shows is cut at the last [/] only, the
    name the sort reads the key from at the last [/] or backslash: the
    sort's name is what follows the last backslash of the shown name, and
    the two are the same for every path without a backslash. *)
Theorem shown_name_and_sorted_name (file : jsstring) :
  fileName (shownName file) = fileName file
  /\ (without (fun c => N.eqb c 92) file -> shownName file = fileName file).
Proof.
  unfold shownName.
  destruct (last_separator (fun c => N.eqb c 47) file)
    as [W|(a & x & t & -> & Hx & W)].
  - rewrite whole_piece by exact W. split; [reflexivity|].
    intros B. symmetry. apply fileName_none.
    apply without_slash. now split.
  - rewrite last_piece by assumption.
    apply N.eqb_eq in Hx. subst x. split.
    + destruct (last_separator CharClass.slash t)
        as [Wt|(a' & y & t' & -> & Hy & Wt)].
      * rewrite fileName_none by exact Wt.
        symmetry. now apply fileName_last.
      * rewrite fileName_last by assumption.
        change (a ++ 47%N :: a' ++ y :: t')
          with (a ++ (47%N :: a') ++ y :: t').
        rewrite app_assoc. symmetry. now apply fileName_last.
    + intros B. symmetry. apply fileName_last; [reflexivity|].
      apply without_slash. split; [|exact W].
      apply Forall_app in B. destruct B as (_ & B).
      now inversion B.
Qed.

(** X11. [truncatePath] on a path longer than the limit keeps within the
    limit only for a limit above 3: then the result is three dots and the
    last [maxLength - 3] code units of the path, of length [maxLength]
    exactly; for a limit of 3 or less the result is longer than the
    limit. *)
Theorem truncatePath_keeps_the_limit (path : jsstring) (maxLength : Z) :
  (maxLength < Z.of_nat (List.length path))%Z ->
  ((Z.of_nat (List.length (truncatePath path (Some maxLength))) <= maxLength
    <-> 3 < maxLength)%Z)
  /\ ((3 < maxLength)%Z ->
      truncatePath path (Some maxLength)
      = js "..." ++ skipn (List.length path - Z.to_nat (maxLength - 3)) path
      /\ Z.of_nat (List.length (truncatePath path (Some maxLength)))
         = maxLength).
Proof.
  intros L. unfold truncatePath.
  assert (F : (Z.of_nat (List.length path) <=? maxLength)%Z = false)
    by (apply Z.leb_gt; exact L).
  rewrite F. unfold slice.
  rewrite length_app, length_skipn.
  change (List.length (js "...")) with 3%nat.
  destruct (- (maxLength - 3) <? 0)%Z eqn:S.
  - apply Z.ltb_lt in S. rewrite Z.max_l by lia.
    split; [split; intros; lia|].
    intros _. split; [|lia].
    do 2 f_equal. lia.
  - apply Z.ltb_ge in S.
    split; [split; intros; lia|]. intros G. lia.
Qed.

Lemma ten_units_cut_to_seven :
  truncatePath (js "abcdefghij") (Some 7%Z) = js "...ghij".
Proof.
  apply (truncatePath_keeps_the_limit (js "abcdefghij") 7);
    [simpl; lia | lia].
Defined.

(** X12. [truncatePath] as the page calls it, without a limit: the result
    is never longer than 50 code units; a path of at most 50 code units is
    returned as it is, and a longer one as three dots and its last 47 code
    units. *)
Theorem truncatePath_default (path : jsstring) :
  (List.length (truncatePath path None) <= 50)%nat
  /\ ((List.length path <= 50)%nat -> truncatePath path None = path)
  /\ ((50 < List.length path)%nat ->
      truncatePath path None
      = js "..." ++ skipn (List.length path - 47) path).
Proof.
  unfold truncatePath.
  destruct (Z.of_nat (List.length path) <=? 50)%Z eqn:F.
  - apply Z.leb_le in F.
    split; [lia|]. split; [reflexivity|]. intros G. lia.
  - apply Z.leb_gt in F. unfold slice.
    assert (S : (- (50 - 3) <? 0)%Z = true) by reflexivity.
    rewrite S. rewrite Z.max_l by lia.
    split; [|split].
    + rewrite length_app, length_skipn.
      change (List.length (js "...")) with 3%nat. lia.
    + intros G. lia.
    + intros _. do 2 f_equal. lia.
Qed.

(** X13. While no output folder was chosen, [setDefaultOutputPath] puts
    into the output-path input the text of the first file's path before its
    last [/], which the input holds without its line breaks: for a folder
    text without a line break the input holds exactly that text.
    Backslashes are not taken for separators, so for a first path without
    a [/] the input is set to the empty text.  The remembered folder is
    left as it is. *)
Theorem default_output_folder (first : jsstring) (rest : list jsstring)
    (out : OutputPath) :
  truthy (lastOutputPath out) = false ->
  lastOutputPath (setDefaultOutputPath (first :: rest) out)
  = lastOutputPath out
  /\ ((without (fun c => N.eqb c 47) first
       /\ outputPathValue (setDefaultOutputPath (first :: rest) out) = [])
      \/ (exists folder name,
            first = folder ++ 47%N :: name
            /\ without (fun c => N.eqb c 47) name
            /\ outputPathValue (setDefaultOutputPath (first :: rest) out)
               = stripNewlines folder
            /\ (without lineBreak folder ->
                outputPathValue (setDefaultOutputPath (first :: rest) out)
                = folder))).
Proof.
  intros T. unfold setDefaultOutputPath. rewrite T.
  cbn [negb lastOutputPath outputPathValue].
  split; [reflexivity|].
  destruct (last_separator (fun c => N.eqb c 47) first)
    as [W|(a & x & t & -> & Hx & W)].
  - left. split; [exact W|].
    rewrite lastIndexOf_without by exact W.
    now rewrite substring_none.
  - right. apply N.eqb_eq in Hx. subst x. exists a, t.
    rewrite lastIndexOf_last by exact W.
    rewrite substring_prefix.
    split; [reflexivity|]. split; [exact W|]. split; [reflexivity|].
    apply stripNewlines_plain.
Qed.

Lemma windows_path_gives_no_folder :
  outputPathValue
    (setDefaultOutputPath [js "C:\rec\part_1.txt"; js "C:\rec\part_2.txt"]
       (MkOutputPath None (js "old")))
  = []
  /\ getParentFolder (js "C:\rec\part_1.txt") = js "C:\rec"
  /\ outputPathValue
       (setDefaultOutputPath
          [[47; 97; 10; 98; 47; 99; 46; 116; 120; 116]%N]
          (MkOutputPath None []))
     = js "/ab".
Proof.
  split; [|split; reflexivity].
  destruct (default_output_folder (js "C:\rec\part_1.txt")
              [js "C:\rec\part_2.txt"] (MkOutputPath None (js "old"))
              eq_refl) as (_ & [(_ & E)|(folder & name & _ & _ & E & _)]).
  - exact E.
  - reflexivity.
Defined.

(* ================================================================== *)
(** * The extension *)

Section ExtensionFacts.
Import CharClass.

Lemma without_dot (s : jsstring) :
  without dot s -> Forall (fun x => notDot x = true) s.
Proof.
  unfold without, dot, notDot. apply Forall_impl.
  intros x H. now rewrite H.
Qed.

(** Where the extension pattern matches, a dot stands, and no dot follows
    it. *)
Lemma Match_extension (s s' : jsstring) (c c' : capture) :
  Match Pattern.extension s c s' c' ->
  exists ext, s = 46%N :: ext /\ without dot ext /\ s' = [].
Proof.
  intros M. apply Match_Seq_inv in M. destruct M as (s1 & c1 & M1 & M2).
  apply Match_Chr_inv in M1. destruct M1 as (-> & x & -> & Hx).
  apply Match_Seq_inv in M2. destruct M2 as (s2 & c2 & M2 & M3).
  apply Match_Star_Chr in M2. destruct M2 as (-> & u & -> & F).
  inversion M3; subst.
  apply N.eqb_eq in Hx. subst x.
  exists u. rewrite app_nil_r. split; [reflexivity|]. split; [|reflexivity].
  revert F. unfold without, dot, notDot. apply Forall_impl.
  intros y H. now apply negb_true_iff in H.
Qed.

Lemma exec_extension (ext : jsstring) :
  without dot ext ->
  exec Pattern.extension (46%N :: ext) None accept = Some ([], None).
Proof.
  intros W. apply without_dot in W.
  cbn [Pattern.extension exec]. change (dot 46) with true. cbv iota.
  pose proof (@starLoop_Chr_greedy notDot
                (fun s' c' => exec Eoi s' c' accept) [] None ([], None)
                I eq_refl ext (List.length ext) W (le_n _)) as G.
  rewrite app_nil_r in G. exact G.
Qed.

(** The text from the last dot on is removed. *)
Lemma nameWithoutExt_last (stem ext : jsstring) :
  without dot ext -> nameWithoutExt (stem ++ 46%N :: ext) = stem.
Proof.
  intros W. unfold nameWithoutExt, replaceEmpty, search.
  rewrite searchFrom_skip.
  - erewrite searchFrom_here by (apply exec_extension; exact W).
    cbn [m_before m_after app]. now rewrite app_nil_r.
  - intros p1 p2 -> N.
    destruct (exec Pattern.extension (p2 ++ 46%N :: ext) None accept)
      as [m|] eqn:E; [|reflexivity].
    exfalso. apply exec_sound in E. destruct E as (s' & c' & M & _).
    apply Match_extension in M. destruct M as (u & E & Wu & _).
    destruct p2 as [|y p2]; [congruence|].
    injection E as _ <-.
    apply Forall_app in Wu. destruct Wu as (_ & Wu).
    inversion Wu as [|? ? D _]. discriminate D.
Qed.

(** A name without a dot is left as it is. *)
Lemma nameWithoutExt_none (name : jsstring) :
  without dot name -> nameWithoutExt name = name.
Proof.
  intros W. unfold nameWithoutExt, replaceEmpty.
  destruct (search Pattern.extension name) as [m|] eqn:E; [|reflexivity].
  exfalso. apply search_sound in E.
  destruct E as (pre & suf & -> & _ & _ & M).
  apply Match_extension in M. destruct M as (u & -> & _ & _).
  apply Forall_app in W. destruct W as (_ & W).
  inversion W as [|? ? D _]. discriminate D.
Qed.

(** Zeros before a run of digits do not change its value. *)
Lemma digitsValue_zeros (zs ds : jsstring) :
  zeros zs -> digitsValue (zs ++ ds) = digitsValue ds.
Proof.
  unfold digitsValue. induction 1 as [|z zs -> _ IH]; [reflexivity|].
  cbn [app fold_left]. exact IH.
Qed.

Lemma zeros_digits (zs : jsstring) : zeros zs -> Forall isDigit zs.
Proof.
  apply Forall_impl. intros x ->. reflexivity.
Qed.
End ExtensionFacts.

(* ================================================================== *)
(** * The extension and the key: the properties *)

(** X14. The key of a file name does not depend on its extension: only the
    text from the last dot on is taken off before the patterns are tried,
    so two names that differ in that text alone have the same key (or both
    none), and digits of the extension, as in [.mp3], are never read. *)
Theorem key_ignores_the_extension (stem ext1 ext2 : jsstring) :
  without CharClass.dot ext1 -> without CharClass.dot ext2 ->
  extractSequenceNumber (stem ++ 46%N :: ext1)
  = extractSequenceNumber (stem ++ 46%N :: ext2)
  /\ nameWithoutExt (stem ++ 46%N :: ext1) = stem.
Proof.
  intros W1 W2. unfold extractSequenceNumber.
  now rewrite !nameWithoutExt_last by assumption.
Qed.

Lemma intro_txt_and_mp3 :
  extractSequenceNumber (js "intro.txt") = extractSequenceNumber (js "intro.mp3")
  /\ nameWithoutExt (js "intro.txt") = js "intro".
Proof.
  apply (key_ignores_the_extension (js "intro") (js "txt") (js "mp3"));
    repeat constructor.
Defined.

(** X15. Zero padding does not change a key: when the name before the
    extension ends with a run of digits, zeros put in front of that run
    leave the key as it is, the number the run denotes; [part_007.txt] and
    [part_7.txt] have the same key. *)
Theorem key_ignores_leading_zeros (pre zs ds ext : jsstring) :
  noDigitBehind pre -> zeros zs -> digitRun ds ->
  without CharClass.dot ext ->
  extractSequenceNumber (pre ++ zs ++ ds ++ 46%N :: ext)
  = extractSequenceNumber (pre ++ ds ++ 46%N :: ext)
  /\ extractSequenceNumber (pre ++ ds ++ 46%N :: ext)
     = Some (toNumber (digitsValue ds)).
Proof.
  intros B Z D W.
  assert (K : forall run, digitRun run ->
    extractSequenceNumber (pre ++ run ++ 46%N :: ext)
    = Some (toNumber (digitsValue run))).
  { intros run R. unfold extractSequenceNumber.
    rewrite (app_assoc pre run), nameWithoutExt_last by exact W.
    now rewrite matchNumber_trailing by assumption. }
  split; [|now apply K].
  rewrite (K ds D). rewrite (app_assoc zs ds).
  rewrite K.
  - now rewrite digitsValue_zeros.
  - destruct D as (N & F). split.
    + destruct zs; [exact N | discriminate].
    + apply Forall_app. split; [now apply zeros_digits | exact F].
Qed.

Lemma part_007_and_part_7 :
  extractSequenceNumber (js "part_007.txt")
  = extractSequenceNumber (js "part_7.txt")
  /\ extractSequenceNumber (js "part_7.txt") = Some (Num 7).
Proof.
  apply (key_ignores_leading_zeros (js "part_") (js "00") (js "7")
           (js "txt")).
  - reflexivity.
  - repeat constructor.
  - split; [discriminate | repeat constructor].
  - repeat constructor.
Defined.

(* ================================================================== *)
(** * Dropped files *)

Section DropFacts.

(** The last piece itself, before [|| '']. *)
Lemma pop_last_piece (p : codeUnit -> bool) (a t : jsstring)
    (x : codeUnit) :
  p x = true -> without p t -> pop (split p (a ++ x :: t)) = Some t.
Proof.
  intros Hx Ht.
  destruct (split_separator p a t x Hx) as (piece & pieces & E & N & P).
  rewrite E, pop_cons by exact N.
  now rewrite P, split_without by exact Ht.
Qed.

Lemma pop_whole_piece (p : codeUnit -> bool) (s : jsstring) :
  without p s -> pop (split p s) = Some s.
Proof.
  intros Hs. now rewrite split_without by exact Hs.
Qed.

Lemma orEmpty_Some (s : jsstring) : orEmpty (Some s) = s.
Proof. now destruct s. Qed.

(** The extension of a path: the lower case of what follows its last dot,
    or of the whole path when it holds no dot. *)
Lemma extensionOf_last (stem ext : jsstring) :
  without CharClass.dot ext ->
  extensionOf (stem ++ 46%N :: ext) = toLowerCase ext.
Proof.
  intros W. unfold extensionOf.
  rewrite pop_last_piece by (reflexivity || exact W).
  apply orEmpty_Some.
Qed.

Lemma extensionOf_none (path : jsstring) :
  without CharClass.dot path -> extensionOf path = toLowerCase path.
Proof.
  intros W. unfold extensionOf.
  rewrite pop_whole_piece by exact W.
  apply orEmpty_Some.
Qed.

Lemma sameString_eq (a b : jsstring) : sameString a b = true <-> a = b.
Proof.
  unfold sameString. destruct (list_eq_dec N.eq_dec a b); split;
    congruence.
Qed.

Lemma includes_In (arr : list jsstring) (x : jsstring) :
  includes arr x = true <-> In x arr.
Proof.
  unfold includes. rewrite existsb_exists. split.
  - intros (y & Hy & E). apply sameString_eq in E. now subst y.
  - intros H. exists x. split; [exact H | now apply sameString_eq].
Qed.

(** No extension is on both lists. *)
Lemma transcription_not_media (e : jsstring) :
  includes transcriptionExtensions e = true ->
  includes mediaExtensions e = false.
Proof.
  intros H. apply includes_In in H.
  repeat (destruct H as [<-|H]; [reflexivity|]).
  destruct H.
Qed.

Lemma isTranscription_extension (path : jsstring) :
  isTranscription path
  = includes transcriptionExtensions (extensionOf path).
Proof.
  unfold isTranscription.
  destruct (includes transcriptionExtensions (extensionOf path)) eqn:T.
  - now rewrite transcription_not_media.
  - apply andb_false_r.
Qed.

(** The loop over the dropped files keeps the media files and the
    transcriptions, each in the order of the drop. *)
Lemma classify_filter (files : list jsstring) :
  forall mediaFiles transcriptionFiles,
    fold_left classifyFile files (mediaFiles, transcriptionFiles)
    = (mediaFiles ++ filter isMedia files,
       transcriptionFiles ++ filter isTranscription files).
Proof.
  induction files as [|f files IH]; intros m t.
  - simpl. now rewrite !app_nil_r.
  - cbn [fold_left filter].
    assert (Step : classifyFile (m, t) f
                   = (m ++ (if isMedia f then [f] else []),
                      t ++ (if isTranscription f then [f] else []))).
    { unfold classifyFile, isMedia, isTranscription.
      destruct (includes mediaExtensions (extensionOf f)),
        (includes transcriptionExtensions (extensionOf f));
        cbn [negb andb]; now rewrite ?app_nil_r. }
    rewrite Step, IH.
    destruct (isMedia f), (isTranscription f);
      now rewrite <- ?app_assoc, ?app_nil_r.
Qed.

(** Lower case keeps the dot and the two separators. *)
Lemma toLowerCase_keeps (c : codeUnit) (s : jsstring) :
  In c s -> (c = 46 \/ c = 47 \/ c = 92)%N -> In c (toLowerCase s).
Proof.
  intros Hin Hc. unfold toLowerCase. apply in_flat_map.
  exists c. split; [exact Hin|].
  destruct Hc as [->|[->| ->]]; now left.
Qed.

(** An extension of the transcription list holds no separator. *)
Lemma transcription_extension_plain (ext : jsstring) :
  In (toLowerCase ext) transcriptionExtensions ->
  without CharClass.slash ext.
Proof.
  intros H. apply Forall_forall. intros c Hc.
  destruct (CharClass.slash c) eqn:S; [|reflexivity].
  exfalso. unfold CharClass.slash in S. apply orb_true_iff in S.
  assert (K : In c (toLowerCase ext)).
  { apply toLowerCase_keeps; [exact Hc|].
    destruct S as [S|S]; apply N.eqb_eq in S; auto. }
  assert (C : (c = 47 \/ c = 92)%N)
    by (destruct S as [S|S]; apply N.eqb_eq in S; auto).
  repeat (destruct H as [E|H];
          [rewrite <- E in K; vm_compute in K;
           repeat (destruct K as [K|K];
                   [rewrite <- K in C; destruct C; discriminate|]);
           exact K|]).
  destruct H.
Qed.

(** Text without a separator, added behind a path, is added to its file
    name. *)
Lemma fileName_app (path t : jsstring) :
  without CharClass.slash t -> fileName (path ++ t) = fileName path ++ t.
Proof.
  intros W.
  destruct (last_separator CharClass.slash path)
    as [Wp|(a & x & name & -> & Hx & Wn)].
  - rewrite (fileName_none path Wp). apply fileName_none.
    now apply Forall_app.
  - rewrite (fileName_last a name x Hx Wn).
    rewrite <- app_assoc. cbn [app].
    apply fileName_last; [exact Hx|]. now apply Forall_app.
Qed.
End DropFacts.

Section DropDispatch.

Lemma filter_none (A : Type) (f : A -> bool) (l : list A) :
  filter f l = [] <-> Forall (fun x => f x = false) l.
Proof.
  induction l as [|x l IH]; simpl.
  - split; [constructor | reflexivity].
  - destruct (f x) eqn:E.
    + split; [discriminate|]. intros H. inversion H; congruence.
    + rewrite IH. split; [now constructor | now inversion 1].
Qed.

(** The calls of the drop handler, by the two selections. *)
Lemma onFileDrop_calls (files : list jsstring) :
  onFileDrop (Some files)
  = match files with
    | [] => []
    | _ :: _ =>
        match filter isMedia files, filter isTranscription files with
        | [], [] => [ShowFileErrorState]
        | [], t :: ts => [HandleTranscriptionFiles (t :: ts)]
        | m :: ms, [] => [HandleMediaFiles (m :: ms)]
        | m :: ms, t :: ts =>
            [HandleMediaFiles (m :: ms); HandleTranscriptionFiles (t :: ts)]
        end
    end.
Proof.
  unfold onFileDrop. destruct files as [|f files]; [reflexivity|].
  cbn [List.length Nat.eqb negb].
  rewrite classify_filter. cbn [app].
  destruct (filter isMedia (f :: files)),
    (filter isTranscription (f :: files)); reflexivity.
Qed.

Lemma key_first_matching (name : jsstring) :
  extractSequenceNumber name
  = firstMatching patterns (nameWithoutExt name).
Proof.
  unfold extractSequenceNumber. simpl.
  repeat match goal with
    | |- context [match matchNumber ?r ?n with _ => _ end] =>
        destruct (matchNumber r n)
    end; reflexivity.
Qed.
End DropDispatch.

(* ================================================================== *)
(** * Dropped files: the properties *)

(** X16. The handler of a file drop sorts the dropped paths out by their
    extension: [handleMediaFiles] is called with the media files of the
    drop and [handleTranscriptionFiles] with its transcriptions, each in
    the order of the drop and only when there is one; the other paths are
    passed on to nobody; the unsupported-format message is shown exactly
    when files were dropped and none of them is of either kind. *)
Theorem drop_is_sorted_out (files : list jsstring) :
  (forall l,
     In (HandleMediaFiles l) (onFileDrop (Some files))
     <-> l = filter isMedia files /\ l <> [])
  /\ (forall l,
        In (HandleTranscriptionFiles l) (onFileDrop (Some files))
        <-> l = filter isTranscription files /\ l <> [])
  /\ (In ShowFileErrorState (onFileDrop (Some files))
      <-> files <> []
          /\ Forall (fun f => isMedia f = false /\ isTranscription f = false)
               files)
  /\ (forall f, isMedia f = true -> isTranscription f = false).
Proof.
  rewrite onFileDrop_calls.
  assert (N : Forall (fun f => isMedia f = false /\ isTranscription f = false)
                files
              <-> filter isMedia files = []
                  /\ filter isTranscription files = []).
  { rewrite !filter_none, !Forall_forall. firstorder. }
  split; [|split; [|split]].
  - intros l. destruct files as [|f files]; [simpl; intuition congruence|].
    destruct (filter isMedia (f :: files)),
      (filter isTranscription (f :: files)); simpl;
      intuition (try congruence).
  - intros l. destruct files as [|f files]; [simpl; intuition congruence|].
    destruct (filter isMedia (f :: files)),
      (filter isTranscription (f :: files)); simpl;
      intuition (try congruence).
  - rewrite N. destruct files as [|f files]; [simpl; intuition congruence|].
    destruct (filter isMedia (f :: files)),
      (filter isTranscription (f :: files)); simpl;
      intuition (try congruence).
  - intros f M. unfold isMedia in M. unfold isTranscription.
    now rewrite M.
Qed.

(** X17. The drop handler takes a path for a transcription exactly when
    the text after its last dot, or the whole path when it holds no dot, is
    [txt], [srt] or [md] once put in lower case: capitals in the extension
    make no difference, and a path that consists of such a word alone is
    taken too. *)
Theorem transcription_by_extension (path : jsstring) :
  isTranscription path = true
  <-> exists ext,
        In (toLowerCase ext) transcriptionExtensions
        /\ without CharClass.dot ext
        /\ (path = ext \/ exists stem, path = stem ++ 46%N :: ext).
Proof.
  rewrite isTranscription_extension, includes_In. split.
  - intros H.
    destruct (last_separator CharClass.dot path)
      as [W|(stem & x & ext & -> & Hx & W)].
    + exists path. rewrite extensionOf_none in H by exact W.
      split; [exact H|]. split; [exact W | now left].
    + apply N.eqb_eq in Hx. subst x.
      rewrite extensionOf_last in H by exact W.
      exists ext. split; [exact H|]. split; [exact W|].
      right. now exists stem.
  - intros (ext & H & W & [->|(stem & ->)]).
    + now rewrite extensionOf_none.
    + now rewrite extensionOf_last.
Qed.

(** X18. For a path the drop handler takes for a transcription by its
    extension, the name the key is read from is the file name with exactly
    that extension taken off: the filter of the drop and the sort agree on
    where the extension starts, and the key of the path is the key the
    patterns find in the file name before it. *)
Theorem dropped_transcription_key (stem ext : jsstring) :
  without CharClass.dot ext ->
  In (toLowerCase ext) transcriptionExtensions ->
  isTranscription (stem ++ 46%N :: ext) = true
  /\ nameWithoutExt (fileName (stem ++ 46%N :: ext)) = fileName stem
  /\ sequenceKey (stem ++ 46%N :: ext)
     = firstMatching patterns (fileName stem).
Proof.
  intros W H.
  assert (F : fileName (stem ++ 46%N :: ext)
              = fileName stem ++ 46%N :: ext).
  { apply fileName_app. constructor; [reflexivity|].
    now apply transcription_extension_plain. }
  split; [|split].
  - rewrite isTranscription_extension, includes_In.
    now rewrite extensionOf_last.
  - rewrite F. now apply nameWithoutExt_last.
  - unfold sequenceKey. rewrite key_first_matching, F.
    now rewrite nameWithoutExt_last.
Qed.

Lemma rec_v2_part_3_TXT :
  isTranscription (js "rec.v2/part_3.TXT") = true
  /\ nameWithoutExt (fileName (js "rec.v2/part_3.TXT")) = js "part_3"
  /\ sequenceKey (js "rec.v2/part_3.TXT")
     = firstMatching patterns (js "part_3").
Proof.
  apply (dropped_transcription_key (js "rec.v2/part_3") (js "TXT")).
  - repeat constructor.
  - left. reflexivity.
Defined.

(** X19. Of the media files of a drop only the first is taken: whatever was
    selected before, the selected file becomes the first dropped path with a
    media extension, and the media files dropped after it are ignored. *)
Theorem first_media_file_is_selected (before after : list jsstring)
    (m : jsstring) (selectedFile : option jsstring) :
  Forall (fun f => isMedia f = false) before ->
  isMedia m = true ->
  In (HandleMediaFiles (filter isMedia (before ++ m :: after)))
    (onFileDrop (Some (before ++ m :: after)))
  /\ handleMediaFiles (filter isMedia (before ++ m :: after)) selectedFile
     = Some m.
Proof.
  intros B M.
  assert (E : filter isMedia (before ++ m :: after)
              = m :: filter isMedia after).
  { rewrite filter_app. apply filter_none in B. rewrite B.
    simpl. now rewrite M. }
  split.
  - rewrite onFileDrop_calls, E.
    destruct (before ++ m :: after) eqn:L;
      [now destruct before|].
    destruct (filter isTranscription (j :: l)); now left.
  - now rewrite E.
Qed.

Lemma notes_then_two_recordings :
  In (HandleMediaFiles
        (filter isMedia [js "notes.txt"; js "a.mp3"; js "b.wav"]))
    (onFileDrop (Some [js "notes.txt"; js "a.mp3"; js "b.wav"]))
  /\ handleMediaFiles
       (filter isMedia [js "notes.txt"; js "a.mp3"; js "b.wav"]) None
     = Some (js "a.mp3").
Proof.
  apply (first_media_file_is_selected [js "notes.txt"] [js "b.wav"]
           (js "a.mp3") None).
  - repeat constructor.
  - reflexivity.
Defined.

(* ================================================================== *)
(** * Sorting what is sorted *)

Section ComparatorFacts.
Variable localeCompare : collation.
Hypothesis consistent : consistentCollation localeCompare.

(** What the comparator of the sort takes for "not greater". *)
Lemma notGreater_compareFiles (x y : jsstring) :
  notGreater (compareFiles localeCompare) x y
  <-> match sequenceKey x, sequenceKey y with
      | Some m, Some n => number_leb m n = true
      | Some _, None => True
      | None, Some _ => False
      | None, None =>
          (localeCompare (fileName x) (fileName y) "ru"%string
             (CollatorOptions true) <= 0)%Z
      end.
Proof.
  unfold notGreater, compareFiles, sequenceKey.
  destruct (extractSequenceNumber (fileName x)) as [m|] eqn:Kx,
    (extractSequenceNumber (fileName y)) as [n|] eqn:Ky.
  - rewrite key_sub_pos by (eapply extractSequenceNumber_key; eassumption).
    destruct (number_leb m n); simpl; split; congruence.
  - simpl. tauto.
  - simpl. split; [discriminate | tauto].
  - simpl. rewrite Z.ltb_ge. reflexivity.
Qed.

Lemma compareFiles_total (x y : jsstring) :
  notGreater (compareFiles localeCompare) x y
  \/ notGreater (compareFiles localeCompare) y x.
Proof.
  rewrite !notGreater_compareFiles.
  destruct (sequenceKey x) as [m|] eqn:Kx, (sequenceKey y) as [n|] eqn:Ky;
    try tauto.
  - destruct (number_leb m n) eqn:L; [now left | right].
    apply number_leb_total; [| |exact L];
      eapply extractSequenceNumber_key; eassumption.
  - apply consistent.
Qed.

Lemma compareFiles_trans (x y z : jsstring) :
  notGreater (compareFiles localeCompare) x y ->
  notGreater (compareFiles localeCompare) y z ->
  notGreater (compareFiles localeCompare) x z.
Proof.
  rewrite !notGreater_compareFiles.
  destruct (sequenceKey x), (sequenceKey y), (sequenceKey z);
    try tauto.
  - apply number_leb_trans.
  - apply consistent.
Qed.
End ComparatorFacts.

(** Comparing code units is a collation that is an order. *)
Lemma codeUnitOrder_total (a : jsstring) :
  forall b, (codeUnitOrder a b <= 0 \/ codeUnitOrder b a <= 0)%Z.
Proof.
  induction a as [|x a IH]; intros [|y b]; simpl; try lia.
  rewrite (N.compare_antisym x y).
  destruct (N.compare x y); simpl; try lia. apply IH.
Qed.

Lemma codeUnitOrder_trans (a : jsstring) :
  forall b c,
    (codeUnitOrder a b <= 0 -> codeUnitOrder b c <= 0 ->
     codeUnitOrder a c <= 0)%Z.
Proof.
  induction a as [|x a IH]; intros [|y b] [|z c]; simpl; try lia.
  destruct (N.compare_spec x y), (N.compare_spec y z),
    (N.compare_spec x z); try lia; subst; try lia.
  apply IH.
Qed.

Lemma codeUnitCollation_consistent : consistentCollation codeUnitCollation.
Proof.
  split.
  - intros a b. apply codeUnitOrder_total.
  - intros a b c. apply codeUnitOrder_trans.
Qed.

(** X20. Under a collation that is an order, sorting changes nothing that
    is in order already: a list in which no file compares greater than a
    later one is returned as it is, and so sorting the result of
    [sortTranscriptionFiles] again gives the same list. *)
Theorem sorting_keeps_a_sorted_list (localeCompare : collation)
    (files : list jsstring) :
  consistentCollation localeCompare ->
  (StronglySorted (notGreater (compareFiles localeCompare)) files ->
   sortTranscriptionFiles localeCompare files = files)
  /\ sortTranscriptionFiles localeCompare
       (sortTranscriptionFiles localeCompare files)
     = sortTranscriptionFiles localeCompare files.
Proof.
  intros C.
  assert (K : forall l,
    StronglySorted (notGreater (compareFiles localeCompare)) l ->
    sortTranscriptionFiles localeCompare l = l).
  { intros l S. symmetry. unfold sortTranscriptionFiles.
    apply (arraySort_unique jsstring (compareFiles localeCompare)
             (compareFiles_trans localeCompare C)
             (compareFiles_total localeCompare C)).
    - exact S.
    - reflexivity. }
  split; [apply K|]. apply K. unfold sortTranscriptionFiles.
  apply (arraySort_sorted jsstring (compareFiles localeCompare)
           (compareFiles_trans localeCompare C)
           (compareFiles_total localeCompare C)).
Qed.

Lemma three_files_sorted_twice :
  sortTranscriptionFiles codeUnitCollation
    (sortTranscriptionFiles codeUnitCollation
       [js "b.txt"; js "part_2.txt"; js "a.txt"; js "part_1.txt"])
  = sortTranscriptionFiles codeUnitCollation
      [js "b.txt"; js "part_2.txt"; js "a.txt"; js "part_1.txt"]
  /\ sortTranscriptionFiles codeUnitCollation
       [js "b.txt"; js "part_2.txt"; js "a.txt"; js "part_1.txt"]
     = [js "part_1.txt"; js "part_2.txt"; js "a.txt"; js "b.txt"].
Proof.
  split; [|reflexivity].
  apply (sorting_keeps_a_sorted_list codeUnitCollation
           [js "b.txt"; js "part_2.txt"; js "a.txt"; js "part_1.txt"]
           codeUnitCollation_consistent).
Defined.

Section DiscoveryOrder.

Lemma filter_perm (A : Type) (f : A -> bool) (l l' : list A) :
  Permutation l l' -> Permutation (filter f l) (filter f l').
Proof.
  induction 1 as [|x l l' _ IH|x y l|l l' l'' _ IH1 _ IH2]; simpl.
  - constructor.
  - destruct (f x); [now constructor | exact IH].
  - destruct (f x), (f y); try apply Permutation_refl. apply perm_swap.
  - eapply Permutation_trans; eassumption.
Qed.

(** Two arrangements of entries that are all the same are the same
    list. *)
Lemma perm_of_one (A : Type) (l l' : list A) :
  Permutation l l' ->
  (forall x y, In x l -> In y l -> x = y) ->
  l = l'.
Proof.
  intros P Same. destruct l as [|x l].
  - apply Permutation_nil in P. now subst.
  - assert (F : Forall (eq x) (x :: l)).
    { apply Forall_forall. intros y Hy. apply Same; [now left | exact Hy]. }
    assert (F' : Forall (eq x) l').
    { apply Forall_forall. intros y Hy. apply Same; [now left|].
      eapply Permutation_in; [apply Permutation_sym; exact P | exact Hy]. }
    rewrite (Forall_eq_repeat F), (Forall_eq_repeat F').
    now rewrite (Permutation_length P).
Qed.
End DiscoveryOrder.

(** X21. Under a collation that is an order, and for files of which no two
    different ones have the same rank under the comparator (the same key,
    or no key and names the collation takes for equal), the order the sort
    returns is the same for every arrangement of the input; this holds for
    files without a key as well. *)
Theorem order_is_independent_of_discovery (localeCompare : collation)
    (files files' : list jsstring) :
  consistentCollation localeCompare ->
  (forall a b, In a files -> In b files ->
               sameRank (compareFiles localeCompare) a b = true -> a = b) ->
  Permutation files files' ->
  sortTranscriptionFiles localeCompare files
  = sortTranscriptionFiles localeCompare files'.
Proof.
  intros C U P. unfold sortTranscriptionFiles.
  pose proof (compareFiles_trans localeCompare C) as T.
  pose proof (compareFiles_total localeCompare C) as O.
  apply (sorted_stable_unique jsstring (compareFiles localeCompare) O).
  - now apply arraySort_sorted.
  - now apply arraySort_sorted.
  - intros z.
    rewrite !(arraySort_stable jsstring (compareFiles localeCompare) T).
    apply perm_of_one; [now apply filter_perm|].
    intros x y Hx Hy. apply filter_In in Hx, Hy.
    destruct Hx as (Ix & Rx), Hy as (Iy & Ry).
    apply U; [exact Ix | exact Iy |].
    apply sameRank_iff in Rx, Ry. apply sameRank_iff.
    destruct Rx, Ry. split; eapply T; eassumption.
Qed.

Lemma notes_and_two_parts :
  sortTranscriptionFiles codeUnitCollation
    [js "notes.txt"; js "part_2.txt"; js "part_1.txt"]
  = sortTranscriptionFiles codeUnitCollation
      [js "part_1.txt"; js "notes.txt"; js "part_2.txt"].
Proof.
  apply (order_is_independent_of_discovery codeUnitCollation
           [js "notes.txt"; js "part_2.txt"; js "part_1.txt"]
           [js "part_1.txt"; js "notes.txt"; js "part_2.txt"]
           codeUnitCollation_consistent).
  - intros a b [<-|[<-|[<-|[]]]] [<-|[<-|[<-|[]]]] H;
      try reflexivity; discriminate H.
  - apply Permutation_sym.
    apply (Permutation_cons_app [js "notes.txt"; js "part_2.txt"] []
             (js "part_1.txt")).
    apply Permutation_refl.
Defined.
